(** * Canonical formatting of MRO sources

    A shallow embedding of [martian/syntax/formatter.go]: the printer with
    its pending-comment table, the literal, binding, parameter, call, stage
    and pipeline formatters, the whole-unit formatter and the bulk JSON
    export, followed by the properties of the specification that were
    checked against them.

    Conventions.  Go [string]s are byte strings and are modelled by
    [string]; [len] is [String.length].  Go [int]s are modelled by [Z]
    (all the integers that occur are lengths and line numbers, far below
    the 64-bit range).  A run of the Go code that panics (a failed type
    assertion, a nil dereference, a negative [strings.Repeat] count) or
    that prints one of [fmt]'s malformed-verb diagnostics is modelled by
    [None]. *)

From Stdlib Require Import ZArith Lia Permutation.
From Stdlib Require Import DecimalString DecimalZ DecimalPos.
From stdpp Require Import base gmap strings list sorting.

Open Scope Z_scope.

(** ** Byte strings *)

Definition quote : string := String (Ascii.ascii_of_nat 34) EmptyString.
Definition INDENT : string := "    ".
Definition NEWLINE : string := String (Ascii.ascii_of_nat 10) EmptyString.

Definition len (s : string) : Z := Z.of_nat (String.length s).

Definition max (a b : Z) : Z := if b <? a then a else b.

Fixpoint repeat_string (s : string) (n : nat) : string :=
  match n with
  | O => EmptyString
  | S n' => s +:+ repeat_string s n'
  end.

(** [strings.Repeat] panics on a negative count. *)
Definition strings_Repeat (s : string) (count : Z) : option string :=
  if count <? 0 then None else Some (repeat_string s (Z.to_nat count)).

Fixpoint strings_Join (l : list string) (sep : string) : string :=
  match l with
  | [] => EmptyString
  | [x] => x
  | x :: r => x +:+ sep +:+ strings_Join r sep
  end.

Definition concat_strings (l : list string) : string :=
  foldr String.append EmptyString l.

(** Go's [<] on strings: bytewise lexicographic order. *)
Definition string_lt (a b : string) : bool := Stdlib.Strings.String.ltb a b.

(** ** The parts of Go's [strconv] and [fmt] that the formatter calls *)

Module strconv.

(** A binary64 value: [Finite neg m e] is [(-1)^neg * m * 2^e]. *)
Inductive float64 :=
  | Finite (neg : bool) (mant exp : Z)
  | Inf (neg : bool)
  | NaN.

Definition minexp : Z := -1074.
Definition maxexp : Z := 971.

(** The canonical encodings: a 53-bit significand, normalised unless the
    exponent is the smallest one. *)
Definition canonical (m e : Z) : bool :=
  (0 <=? m) && (m <? 2 ^ 53) && (minexp <=? e) && (e <=? maxexp)
  && ((2 ^ 52 <=? m) || (e =? minexp)).

(** The decimals that round to [m * 2^e] under round-to-nearest-even are
    those between the midpoints to the two neighbouring values, the
    midpoints themselves included exactly when [m] is even.  The three
    numbers are kept as integers over the common power of ten [q10]:
    lower midpoint [lo * 10^q10], value [mid * 10^q10], upper midpoint
    [hi * 10^q10]. *)
Record interval := mkInterval
  { lo : Z; mid : Z; hi : Z; q10 : Z; inclusive : bool }.

Definition bounds (m e : Z) : interval :=
  let lo4 := if (2 ^ 52 <? m) || (e =? minexp) then 4 * m - 2 else 4 * m - 1 in
  let s := if 0 <=? e - 2 then 2 ^ (e - 2) else 5 ^ (2 - e) in
  {| lo := lo4 * s; mid := 4 * m * s; hi := (4 * m + 2) * s;
     q10 := Z.min (e - 2) 0; inclusive := Z.even m |}.

(** [rounds_to b c k]: the decimal [c * 10^k] lies in the interval. *)
Definition rounds_to (b : interval) (c k : Z) : bool :=
  let kmin := Z.min k (q10 b) in
  let v := c * 10 ^ (k - kmin) in
  let s := 10 ^ (q10 b - kmin) in
  if inclusive b then (lo b * s <=? v) && (v <=? hi b * s)
  else (lo b * s <? v) && (v <? hi b * s).

(** Decimal digits of a positive integer, most significant first. *)
Fixpoint digits_fuel (fuel : nat) (n : Z) : list Z :=
  match fuel with
  | O => [n mod 10]
  | S f => if n <? 10 then [n] else digits_fuel f (n / 10) ++ [n mod 10]
  end.

Definition digits (n : Z) : list Z := digits_fuel (Z.to_nat (Z.log2 n)) n.

Definition ndigits (n : Z) : Z := Z.of_nat (length (digits n)).

(** The two [n]-digit neighbours of the exact value, and the one to keep:
    the one inside the interval, the nearer one when both are, the even
    one on a tie. *)
Definition candidate (b : interval) (D n : Z) : option Z :=
  let S := 10 ^ (D - n) in
  let k := q10 b + (D - n) in
  let c0 := mid b / S in
  let r := mid b - c0 * S in
  match rounds_to b c0 k, rounds_to b (c0 + 1) k with
  | true, true =>
      if 2 * r <? S then Some c0
      else if S <? 2 * r then Some (c0 + 1)
      else if Z.even c0 then Some c0 else Some (c0 + 1)
  | true, false => Some c0
  | false, true => Some (c0 + 1)
  | false, false => None
  end.

(** Try 1, 2, ... digits; with all [D] digits the value is exact. *)
Fixpoint search (b : interval) (D : Z) (fuel : nat) (n : Z) : Z * Z :=
  match fuel with
  | O => (mid b, D)
  | S f =>
      match candidate b D n with
      | Some c => (c, n)
      | None => search b D f (n + 1)
      end
  end.

(** Go's [decimalSlice]: digits [d], decimal point after [dp] digits; the
    value is [0.d1d2... * 10^dp]. *)
Record decimalSlice := mkDecimal { d : list Z; dp : Z }.

Definition nd (digs : decimalSlice) : Z := Z.of_nat (length (d digs)).

(** The shortest decimal [c * 10^k] that rounds to [m * 2^e], [m > 0]. *)
Definition shortest_ck (m e : Z) : Z * Z :=
  let b := bounds m e in
  let D := ndigits (mid b) in
  let '(c, n) := search b D (Z.to_nat (D - 1)) 1 in
  let k := q10 b + (D - n) in
  if c =? 10 ^ n then (1, k + n) else (c, k).

Definition shortest (m e : Z) : decimalSlice :=
  if m =? 0 then {| d := []; dp := 0 |}
  else let '(c, k) := shortest_ck m e in
       {| d := digits c; dp := ndigits c + k |}.

Definition digit_char (x : Z) : Ascii.ascii := Ascii.ascii_of_nat (48 + Z.to_nat x).

Fixpoint digit_string (l : list Z) : string :=
  match l with
  | [] => EmptyString
  | x :: r => String (digit_char x) (digit_string r)
  end.

Definition zeros (n : Z) : string := repeat_string "0" (Z.to_nat n).

(** [%e]: [d.ddde±dd], at least two exponent digits. *)
Definition fmtE (neg : bool) (digs : decimalSlice) (prec : Z) : string :=
  let sign := if neg then "-" else "" in
  let first := match d digs with [] => "0" | x :: _ => digit_string [x] end in
  let frac :=
    if 0 <? prec then
      let m := Z.min (nd digs) (prec + 1) in
      "." +:+ digit_string (take (Z.to_nat (m - 1)) (drop 1 (d digs)))
          +:+ zeros (prec + 1 - Z.max m 1)
    else "" in
  let exp := if nd digs =? 0 then 0 else dp digs - 1 in
  let esign := if exp <? 0 then "-" else "+" in
  let a := Z.abs exp in
  let edigits := if a <? 10 then "0" +:+ digit_string [a] else digit_string (digits a) in
  sign +:+ first +:+ frac +:+ "e" +:+ esign +:+ edigits.

(** [%f] with [prec] digits after the point. *)
Definition fmtF (neg : bool) (digs : decimalSlice) (prec : Z) : string :=
  let sign := if neg then "-" else "" in
  let int_part :=
    if 0 <? dp digs then
      let m := Z.min (nd digs) (dp digs) in
      digit_string (take (Z.to_nat m) (d digs)) +:+ zeros (dp digs - m)
    else "0" in
  let frac :=
    if 0 <? prec then
      "." +:+ digit_string
        (map (fun i => let j := dp digs + Z.of_nat i in
                       if (0 <=? j) && (j <? nd digs)
                       then nth (Z.to_nat j) (d digs) 0 else 0)
             (seq 0 (Z.to_nat prec)))
    else "" in
  sign +:+ int_part +:+ frac.

(** [formatDigits] for the verb [g] with the shortest precision: the
    exponent threshold is then fixed at 6. *)
Definition formatDigits_g (neg : bool) (digs : decimalSlice) : string :=
  let prec := nd digs in
  let eprec := 6 in
  let exp := dp digs - 1 in
  if (exp <? -4) || (eprec <=? exp)
  then fmtE neg digs (prec - 1)
  else fmtF neg digs (Z.max (nd digs - dp digs) 0).

(** [fmt.Sprintf("%g", f)]. *)
Definition FormatFloat_g (f : float64) : string :=
  match f with
  | NaN => "NaN"
  | Inf neg => if neg then "-Inf" else "+Inf"
  | Finite neg m e => formatDigits_g neg (shortest m e)
  end.

(** [fmt.Sprintf("%d", i)]. *)
Definition FormatInt (i : Z) : string := NilZero.string_of_int (Z.to_int i).

(** The binary64 value denoted by the decimal literal [c * 10^k], [c >= 0]
    (what the Go compiler and [strconv.ParseFloat] produce): the canonical
    value whose rounding interval holds the literal. *)
Definition normal (m e : Z) : Z * Z :=
  if m =? 2 ^ 53 then (2 ^ 52, e + 1) else (m, e).

Definition floor_scaled (c k e : Z) : Z :=
  (c * 10 ^ Z.max k 0 * 2 ^ Z.max (- e) 0) / (10 ^ Z.max (- k) 0 * 2 ^ Z.max e 0).

Definition ParseFloat_decimal (neg : bool) (c k : Z) : float64 :=
  if c =? 0 then Finite neg 0 minexp
  else
    let lg := Z.log2 (c * 10 ^ Z.max k 0) - Z.log2 (10 ^ Z.max (- k) 0) in
    let tries :=
      flat_map (fun e0 =>
        let e := Z.max e0 minexp in
        let m := floor_scaled c k e in
        [normal m e; normal (m + 1) e])
        [lg - 53; lg - 52; lg - 51] in
    match filter (fun me => canonical (fst me) (snd me)
                            && rounds_to (bounds (fst me) (snd me)) c k = true) tries with
    | (m, e) :: _ => Finite neg m e
    | [] =>
        if 0 <? lg then Inf neg else Finite neg 0 minexp
    end.

End strconv.

(** ** Sorting as [sort.Slice] and [sort.Strings] do it

    On fewer than twelve elements Go's [sort] package runs an insertion
    sort: each element moves left while it is less than its left
    neighbour.  The accumulator holds the sorted prefix, last element
    first. *)

Section Sort.
Context {A : Type} (less : A → A → bool).

Fixpoint sort_insert (x : A) (racc : list A) : list A :=
  match racc with
  | [] => [x]
  | y :: r => if less x y then y :: sort_insert x r else x :: y :: r
  end.

Definition sort_Slice (l : list A) : list A :=
  reverse (fold_left (fun racc x => sort_insert x racc) l []).
End Sort.

Definition sort_Strings (l : list string) : list string := sort_Slice string_lt l.

(** ** The AST

    Modelled from the spec: the declarations of the AST types (ast.go) are
    not among the sources; the records below carry the fields that the
    formatter reads and that the grammar actions fill in. *)

Inductive SourceFile := mkSourceFile
  { FileName : string; FullPath : string; IncludedFrom : list SourceLoc }
with SourceLoc := mkSourceLoc
  { Line : Z; File : option SourceFile }.

Record commentBlock := mkCommentBlock
  { comment_Loc : SourceLoc; comment_Value : string }.

Record AstNode := mkAstNode
  { Loc : SourceLoc; Comments : list string; scopeComments : list commentBlock }.

Inductive ExpKind :=
  | KindInt | KindFloat | KindString | KindMap | KindArray
  | KindBool | KindNull | KindCall | KindSelf.

#[global] Instance ExpKind_eq_dec : EqDecision ExpKind.
Proof. solve_decision. Defined.

Record RefExp := mkRefExp
  { RefExp_Node : AstNode; RefExp_Kind : ExpKind;
    RefExp_Id : string; RefExp_OutputId : string }.

(** [ValExp.Value] is an [interface{}]: the dynamic values the grammar
    stores in it.  [VMapIface] is the empty [map[string]interface{}] that
    the grammar builds for the literal [{}]. *)
Inductive Exp :=
  | ValExp (Node : AstNode) (Kind : ExpKind) (Value : Value)
  | Ref (r : RefExp)
with Value :=
  | VNil
  | VInt (i : Z)
  | VFloat (f : strconv.float64)
  | VString (s : string)
  | VBool (b : bool)
  | VExps (l : list Exp)
  | VMapExp (m : list (string * Exp))
  | VMapIface.

Definition Exp_getNode (e : Exp) : AstNode :=
  match e with
  | ValExp n _ _ => n
  | Ref r => RefExp_Node r
  end.

Record BindStm := mkBindStm
  { BindStm_Node : AstNode; BindStm_Id : string;
    BindStm_Exp : Exp; BindStm_Sweep : bool }.

Record BindStms := mkBindStms
  { BindStms_Node : AstNode; BindStms_List : list BindStm }.

Record Modifiers := mkModifiers
  { Local : bool; Preflight : bool; Volatile : bool;
    Modifiers_Bindings : option BindStms }.

Record CallStm := mkCallStm
  { CallStm_Node : AstNode; CallStm_Modifiers : Modifiers;
    CallStm_Id : string; CallStm_DecId : string;
    CallStm_Bindings : BindStms }.

Record InParam := mkInParam
  { InParam_Node : AstNode; InParam_Tname : string; InParam_ArrayDim : Z;
    InParam_Id : string; InParam_Help : string }.

Record OutParam := mkOutParam
  { OutParam_Node : AstNode; OutParam_Tname : string; OutParam_ArrayDim : Z;
    OutParam_Id : string; OutParam_Help : string; OutParam_OutName : string }.

(** The [Param] interface and its two implementations. *)
Inductive Param :=
  | Param_In (p : InParam)
  | Param_Out (p : OutParam).

Definition Param_getNode (p : Param) : AstNode :=
  match p with Param_In p => InParam_Node p | Param_Out p => OutParam_Node p end.
Definition Param_getMode (p : Param) : string :=
  match p with Param_In _ => "in" | Param_Out _ => "out" end.
Definition Param_GetTname (p : Param) : string :=
  match p with Param_In p => InParam_Tname p | Param_Out p => OutParam_Tname p end.
Definition Param_GetArrayDim (p : Param) : Z :=
  match p with Param_In p => InParam_ArrayDim p | Param_Out p => OutParam_ArrayDim p end.
Definition Param_GetId (p : Param) : string :=
  match p with Param_In p => InParam_Id p | Param_Out p => OutParam_Id p end.
Definition Param_GetHelp (p : Param) : string :=
  match p with Param_In p => InParam_Help p | Param_Out p => OutParam_Help p end.
Definition Param_GetOutName (p : Param) : string :=
  match p with Param_In _ => "" | Param_Out p => OutParam_OutName p end.

Record InParams := mkInParams { InParams_List : list InParam }.
Record OutParams := mkOutParams { OutParams_List : list OutParam }.

(** The [Params] interface of the formatter ([getWidths]). *)
Inductive Params :=
  | Params_In (ps : InParams)
  | Params_Out (ps : OutParams).

Record SrcParam := mkSrcParam
  { SrcParam_Node : AstNode; Lang : string; Path : string; Args : list string }.

Record Resources := mkResources
  { Resources_Node : AstNode;
    ThreadNode : option AstNode; MemNode : option AstNode;
    SpecialNode : option AstNode; VolatileNode : option AstNode;
    Threads : Z; MemGB : Z; Special : string; StrictVolatile : bool }.

Record RetainParam := mkRetainParam
  { RetainParam_Node : AstNode; RetainParam_Id : string }.

Record RetainParams := mkRetainParams
  { RetainParams_Node : AstNode; RetainParams_Params : list RetainParam }.

Record Stage := mkStage
  { Stage_Node : AstNode; Stage_Id : string;
    Stage_InParams : InParams; Stage_OutParams : OutParams;
    Src : SrcParam;
    ChunkIns : InParams; ChunkOuts : OutParams; Split : bool;
    Stage_Resources : option Resources; Stage_Retain : option RetainParams }.

Record ReturnStm := mkReturnStm
  { ReturnStm_Node : AstNode; ReturnStm_Bindings : BindStms }.

Record PipelineRetains := mkPipelineRetains
  { PipelineRetains_Node : AstNode; Refs : list RefExp }.

Record Pipeline := mkPipeline
  { Pipeline_Node : AstNode; Pipeline_Id : string;
    Pipeline_InParams : InParams; Pipeline_OutParams : OutParams;
    Calls : list CallStm; Ret : ReturnStm;
    Pipeline_Retain : option PipelineRetains }.

Inductive Callable :=
  | Callable_Stage (s : Stage)
  | Callable_Pipeline (p : Pipeline).

Record UserType := mkUserType { UserType_Node : AstNode; UserType_Id : string }.

Record Include := mkInclude { Include_Node : AstNode; Include_Value : string }.

(** [Files] is the set of source files of the unit, keyed by full path;
    [Stages] and [Pipelines] list the same declarations as [Callables]. *)
Record Ast := mkAst
  { UserTypes : list UserType; Stages : list Stage; Pipelines : list Pipeline;
    Callables : list Callable; Call : option CallStm;
    Includes : list Include; Ast_comments : list commentBlock;
    Files : gmap string SourceFile }.

(** Modelled from the spec: the constants [local], [preflight] and
    [volatile] are declared outside the sources; they are the modifier
    keywords, which the grammar stores as the identifier of a bound
    modifier. *)
Definition local : string := "local".
Definition preflight : string := "preflight".
Definition volatile : string := "volatile".

(** ** Iterating over a Go map

    A [range] loop over a map visits the keys in an order that the
    language leaves unspecified and the runtime randomises.  A run of the
    formatter is therefore parameterised by the order in which each loop
    happens to visit a given list of keys. *)

Definition MapOrder := list string → list string.

Definition valid_order (o : MapOrder) : Prop := ∀ l, o l ≡ₚ l.

Definition range_map {V : Type} (o : MapOrder) (m : gmap string V) : list (string * V) :=
  omap (fun k => (fun v => (k, v)) <$> m !! k) (o (map fst (map_to_list m))).

(** ** The printer *)

Record printer := mkPrinter
  { buf : string;
    comments : gmap string (list commentBlock);
    lastComment : SourceLoc }.

(** Printing code threads the printer and may panic. *)
Definition M (A : Type) : Type := printer → option (A * printer).

Definition M_ret {A} (x : A) : M A := fun p => Some (x, p).

Definition M_bind {A B} (f : A → M B) (m : M A) : M B :=
  fun p => match m p with
           | Some (x, p') => f x p'
           | None => None
           end.

#[global] Instance M_MRet : MRet M := @M_ret.
#[global] Instance M_MBind : MBind M := @M_bind.

Definition panic {A} : M A := fun _ => None.

Definition liftO {A} (o : option A) : M A :=
  match o with
  | Some x => mret x
  | None => panic
  end.

Definition when (b : bool) (m : M unit) : M unit := if b then m else mret tt.

Fixpoint forM_ {A} (l : list A) (f : A → M unit) : M unit :=
  match l with
  | [] => mret tt
  | x :: r => f x;; forM_ r f
  end.

Definition get_lastComment : M SourceLoc := fun p => Some (lastComment p, p).
Definition set_lastComment (l : SourceLoc) : M unit :=
  fun p => Some (tt, mkPrinter (buf p) (comments p) l).
Definition get_comments : M (gmap string (list commentBlock)) :=
  fun p => Some (comments p, p).
Definition set_comments (c : gmap string (list commentBlock)) : M unit :=
  fun p => Some (tt, mkPrinter (buf p) c (lastComment p)).

Definition WriteString (s : string) : M unit :=
  fun p => Some (tt, mkPrinter (buf p +:+ s) (comments p) (lastComment p)).

Definition printer_String (p : printer) : string := buf p.
Definition get_String : M string := fun p => Some (printer_String p, p).

Definition printComments (node : AstNode) (prefix : string) : M unit :=
  last ← get_lastComment;
  match File last with
  | None => mret tt
  | Some lastFile =>
      nodeFile ← liftO (File (Loc node));
      when (bool_decide (FullPath lastFile ≠ FullPath nodeFile))
        (cs ← get_comments;
         forM_ (default [] (cs !! FullPath lastFile))
           (fun comment => WriteString (comment_Value comment);; WriteString NEWLINE);;
         set_comments (delete (FullPath lastFile) cs);;
         WriteString ("#" +:+ NEWLINE +:+ "# @include " +:+ quote);;
         WriteString (FileName nodeFile);;
         WriteString (quote +:+ NEWLINE +:+ "#" +:+ NEWLINE +:+ NEWLINE))
  end;;
  forM_ (scopeComments node)
    (fun c =>
       last ← get_lastComment;
       when (bool_decide (Line last ≠ 0) && bool_decide (Line last = Line (comment_Loc c) - 2))
         (WriteString NEWLINE);;
       set_lastComment (comment_Loc c);;
       WriteString prefix;;
       WriteString (comment_Value c);;
       WriteString NEWLINE);;
  when (bool_decide (0 < length (scopeComments node))%nat) (WriteString NEWLINE);;
  forM_ (Comments node)
    (fun c => WriteString prefix;; WriteString c;; WriteString NEWLINE);;
  set_lastComment (Loc node).

(** The order of the flush is the order of the [range] over the table. *)
Definition DumpComments (o : MapOrder) : M unit :=
  cs ← get_comments;
  forM_ (range_map o cs)
    (fun kv => forM_ (snd kv)
       (fun comment => WriteString (comment_Value comment);; WriteString NEWLINE));;
  set_comments ∅.

(** ** Expressions

    Expression formatting only writes to its writer, so it is modelled as
    the text it writes. *)

Definition assoc {V : Type} (key : string) (l : list (string * V)) : option V :=
  snd <$> find (fun kv => bool_decide (fst kv = key)) l.

Section ExpFormat.
Variable format : Exp → string → option string.

(** One element per line, as the loops of [formatSweep] and
    [formatArray] write them. *)
Definition formatLines (values : list Exp) (vindent : string) : option string :=
  foldr (fun val rest =>
           s ← format val vindent;
           t ← rest;
           Some (vindent +:+ s +:+ "," +:+ NEWLINE +:+ t))
        (Some EmptyString) values.

Definition ValExp_formatSweep (v : Value) (prefix : string) : option string :=
  match v with
  | VExps values =>
      let vindent := prefix +:+ INDENT in
      body ← formatLines values vindent;
      Some ("sweep(" +:+ NEWLINE +:+ body +:+ prefix +:+ ")")
  | _ => None
  end.

Definition ValExp_formatArray (v : Value) (prefix : string) : option string :=
  match v with
  | VExps [] => Some "[]"
  | VExps [val] =>
      s ← format val prefix;
      Some ("[" +:+ s +:+ "]")
  | VExps values =>
      let vindent := prefix +:+ INDENT in
      body ← formatLines values vindent;
      Some ("[" +:+ NEWLINE +:+ body +:+ prefix +:+ "]")
  | _ => None
  end.

(** The values are formatted where they stand in the map and looked up
    by key afterwards: formatting has no effect besides the text. *)
Definition ValExp_formatMap (v : Value) (prefix : string) : option string :=
  match v with
  | VMapExp ((_ :: _) as valExpMap) =>
      let vindent := prefix +:+ INDENT in
      let formatted := map (fun kv => (fst kv, format (snd kv) vindent)) valExpMap in
      let keys := sort_Strings (map fst valExpMap) in
      body ← foldr (fun key rest =>
                      s ← mjoin (assoc key formatted);
                      t ← rest;
                      Some (vindent +:+ quote +:+ key +:+ quote +:+ ": " +:+ s
                              +:+ "," +:+ NEWLINE +:+ t))
                   (Some EmptyString) keys;
      Some ("{" +:+ NEWLINE +:+ body +:+ prefix +:+ "}")
  | _ => Some "{}"
  end.
End ExpFormat.

Definition RefExp_format (self : RefExp) (prefix : string) : string :=
  if bool_decide (RefExp_Kind self = KindCall) then
    RefExp_Id self +:+
      (if bool_decide (RefExp_OutputId self ≠ "default")
       then "." +:+ RefExp_OutputId self else "")
  else "self." +:+ RefExp_Id self.

(** [fmt.Fprint] of the scalar values; the default rendering of slices and
    maps of expressions (addresses) is not modelled. *)
Definition Fprint_Value (v : Value) : option string :=
  match v with
  | VBool true => Some "true"
  | VBool false => Some "false"
  | VInt i => Some (strconv.FormatInt i)
  | VFloat f => Some (strconv.FormatFloat_g f)
  | VString s => Some s
  | _ => None
  end.

Fixpoint Exp_format (e : Exp) (prefix : string) {struct e} : option string :=
  match e with
  | Ref r => Some (RefExp_format r prefix)
  | ValExp _ Kind Value =>
      match Value with
      | VNil => Some "null"
      | _ =>
          match Kind with
          | KindInt =>
              match Value with VInt i => Some (strconv.FormatInt i) | _ => None end
          | KindFloat =>
              match Value with VFloat f => Some (strconv.FormatFloat_g f) | _ => None end
          | KindString =>
              match Value with VString s => Some (quote +:+ s +:+ quote) | _ => None end
          | KindMap => ValExp_formatMap Exp_format Value prefix
          | KindArray => ValExp_formatArray Exp_format Value prefix
          | _ => Fprint_Value Value
          end
      end
  end.

(** [ValExp.format] on the fields of a [ValExp]. *)
Definition ValExp_format (Node : AstNode) (Kind : ExpKind) (Value : Value)
    (prefix : string) : option string :=
  Exp_format (ValExp Node Kind Value) prefix.

(** ** Bindings *)

(** The guard of the sweep branch: the expression is a [ValExp] whose value
    is a slice of expressions, the binding is a sweep, and there is more
    than one alternative. *)
Definition BindStm_sweepValue (self : BindStm) : option Value :=
  match BindStm_Exp self with
  | ValExp _ _ ((VExps arr) as Value) =>
      if BindStm_Sweep self && bool_decide (1 < length arr)%nat then Some Value else None
  | _ => None
  end.

Definition BindStm_format (self : BindStm) (prefix : string) (idWidth : Z) : M unit :=
  printComments (BindStm_Node self) (prefix +:+ INDENT);;
  printComments (Exp_getNode (BindStm_Exp self)) (prefix +:+ INDENT);;
  idPad ← (if len (BindStm_Id self) <? idWidth
           then liftO (strings_Repeat " " (idWidth - len (BindStm_Id self)))
           else mret EmptyString);
  WriteString (prefix +:+ INDENT +:+ BindStm_Id self +:+ idPad +:+ " = ");;
  match BindStm_sweepValue self with
  | Some Value =>
      s ← liftO (ValExp_formatSweep Exp_format Value (prefix +:+ INDENT));
      WriteString s;;
      WriteString ",";;
      WriteString NEWLINE
  | None =>
      s ← liftO (Exp_format (BindStm_Exp self) (prefix +:+ INDENT));
      WriteString s;;
      WriteString ",";;
      WriteString NEWLINE
  end.

Definition BindStms_idWidth (l : list BindStm) : Z :=
  fold_left (fun idWidth bindstm =>
               if len (BindStm_Id bindstm) <? 30
               then max idWidth (len (BindStm_Id bindstm)) else idWidth)
            l 0.

Definition BindStms_format (self : BindStms) (prefix : string) : M unit :=
  printComments (BindStms_Node self) prefix;;
  let idWidth := BindStms_idWidth (BindStms_List self) in
  forM_ (BindStms_List self) (fun bindstm => BindStm_format bindstm prefix idWidth).

(** ** Parameters *)

Definition paramFormat (param : Param) (modeWidth typeWidth idWidth helpWidth : Z) : M unit :=
  printComments (Param_getNode param) INDENT;;
  let id := if bool_decide (Param_GetId param = "default") then EmptyString
            else Param_GetId param in
  modePad ← liftO (strings_Repeat " " (modeWidth - len (Param_getMode param)));
  typePad ← liftO (strings_Repeat " "
                     (typeWidth - len (Param_GetTname param) - 2 * Param_GetArrayDim param));
  idPad ← (if len id <? idWidth
           then liftO (strings_Repeat " " (idWidth - len id))
           else mret EmptyString);
  helpPad ← (if len (Param_GetHelp param) <? helpWidth
             then liftO (strings_Repeat " " (helpWidth - len (Param_GetHelp param)))
             else mret EmptyString);
  WriteString (INDENT +:+ Param_getMode param +:+ modePad +:+ " " +:+ Param_GetTname param);;
  WriteString (repeat_string "[]" (Z.to_nat (Param_GetArrayDim param)));;
  when (bool_decide (id ≠ EmptyString)) (WriteString (typePad +:+ " " +:+ id));;
  when (0 <? len (Param_GetHelp param))
    (when (bool_decide (id = EmptyString)) (WriteString (typePad +:+ " "));;
     WriteString (idPad +:+ "  " +:+ quote +:+ Param_GetHelp param +:+ quote));;
  when (0 <? len (Param_GetOutName param))
    (when (bool_decide (Param_GetHelp param = EmptyString)) (WriteString (idPad +:+ "  "));;
     WriteString (helpPad +:+ "  " +:+ quote +:+ Param_GetOutName param +:+ quote));;
  WriteString ("," +:+ NEWLINE).

Definition Widths : Type := Z * Z * Z * Z.

(** The loop body shared by the two [getWidths] methods. *)
Definition getWidths_step (w : Widths) (param : Param) : Widths :=
  let '(modeWidth, typeWidth, idWidth, helpWidth) := w in
  let modeWidth := max modeWidth (len (Param_getMode param)) in
  let typeWidth := max typeWidth (len (Param_GetTname param) + 2 * Param_GetArrayDim param) in
  let idWidth := if len (Param_GetId param) <? 35
                 then max idWidth (len (Param_GetId param)) else idWidth in
  let helpWidth := if len (Param_GetHelp param) <? 25
                   then max helpWidth (len (Param_GetHelp param)) else helpWidth in
  (modeWidth, typeWidth, idWidth, helpWidth).

Definition InParams_getWidths (self : InParams) : Widths :=
  fold_left getWidths_step (map Param_In (InParams_List self)) (0, 0, 0, 0).

Definition OutParams_getWidths (self : OutParams) : Widths :=
  fold_left getWidths_step (map Param_Out (OutParams_List self)) (0, 0, 0, 0).

Definition Params_getWidths (params : Params) : Widths :=
  match params with
  | Params_In ps => InParams_getWidths ps
  | Params_Out ps => OutParams_getWidths ps
  end.

Definition measureParamsWidths (paramsList : list Params) : Widths :=
  fold_left (fun w params =>
               let '(modeWidth, typeWidth, idWidth, helpWidth) := w in
               let '(mw, tw, iw, hw) := Params_getWidths params in
               (max modeWidth mw, max typeWidth tw, max idWidth iw, max helpWidth hw))
            paramsList (0, 0, 0, 0).

Definition InParams_format (self : InParams) (modeWidth typeWidth idWidth helpWidth : Z) : M unit :=
  forM_ (InParams_List self)
    (fun param => paramFormat (Param_In param) modeWidth typeWidth idWidth helpWidth).

Definition OutParams_format (self : OutParams) (modeWidth typeWidth idWidth helpWidth : Z) : M unit :=
  forM_ (OutParams_List self)
    (fun param => paramFormat (Param_Out param) modeWidth typeWidth idWidth helpWidth).

(** ** Call statements

    [CallStm.format] stores the canonical modifier list back into the
    call statement, so the formatter returns the node along with the
    text. *)

Definition hasModifiers (mods : Modifiers) : bool :=
  match Modifiers_Bindings mods with
  | Some b => bool_decide (0 < length (BindStms_List b))%nat
  | None => false
  end || Local mods || Preflight mods || Volatile mods.

Definition hasId (id : string) (l : list BindStm) : bool :=
  existsb (fun binding => bool_decide (BindStm_Id binding = id)) l.

(** The [BindStm] appended for a bare modifier. *)
Definition boundTrue (node : AstNode) (id : string) : BindStm :=
  {| BindStm_Node := node; BindStm_Id := id;
     BindStm_Exp := ValExp node KindBool (VBool true); BindStm_Sweep := false |}.

(** The modifier table as [CallStm.format] leaves it when the call has
    modifiers: created if absent, bare modifiers appended in bound form
    unless already bound, then sorted by identifier. *)
Definition canonicalModifiers (self : CallStm) : BindStms :=
  let mods := CallStm_Modifiers self in
  let bindings := match Modifiers_Bindings mods with
                  | Some b => b
                  | None => {| BindStms_Node := CallStm_Node self; BindStms_List := [] |}
                  end in
  let List0 := BindStms_List bindings in
  let foundLocal := hasId local List0 in
  let foundPreflight := hasId preflight List0 in
  let foundVolatile := hasId volatile List0 in
  let List1 := if Local mods && negb foundLocal
               then List0 ++ [boundTrue (BindStms_Node bindings) "local"] else List0 in
  let List2 := if Preflight mods && negb foundPreflight
               then List1 ++ [boundTrue (BindStms_Node bindings) "preflight"] else List1 in
  let List3 := if Volatile mods && negb foundVolatile
               then List2 ++ [boundTrue (BindStms_Node bindings) "volatile"] else List2 in
  {| BindStms_Node := BindStms_Node bindings;
     BindStms_List := sort_Slice (fun a b => string_lt (BindStm_Id a) (BindStm_Id b)) List3 |}.

Definition CallStm_setModifiers (self : CallStm) (b : BindStms) : CallStm :=
  {| CallStm_Node := CallStm_Node self;
     CallStm_Modifiers :=
       {| Local := Local (CallStm_Modifiers self);
          Preflight := Preflight (CallStm_Modifiers self);
          Volatile := Volatile (CallStm_Modifiers self);
          Modifiers_Bindings := Some b |};
     CallStm_Id := CallStm_Id self; CallStm_DecId := CallStm_DecId self;
     CallStm_Bindings := CallStm_Bindings self |}.

Definition CallStm_format (self : CallStm) (prefix : string) : M CallStm :=
  printComments (CallStm_Node self) prefix;;
  WriteString prefix;;
  WriteString "call ";;
  WriteString (CallStm_DecId self);;
  when (bool_decide (CallStm_Id self ≠ CallStm_DecId self))
    (WriteString " as ";; WriteString (CallStm_Id self));;
  WriteString ("(" +:+ NEWLINE);;
  BindStms_format (CallStm_Bindings self) prefix;;
  WriteString prefix;;
  if hasModifiers (CallStm_Modifiers self) then
    let self' := CallStm_setModifiers self (canonicalModifiers self) in
    WriteString (") using (" +:+ NEWLINE);;
    BindStms_format (canonicalModifiers self) prefix;;
    WriteString prefix;;
    WriteString (")" +:+ NEWLINE);;
    mret self'
  else
    WriteString (")" +:+ NEWLINE);;
    mret self.

Definition ReturnStm_format (self : ReturnStm) : M unit :=
  printComments (ReturnStm_Node self) INDENT;;
  WriteString INDENT;;
  WriteString ("return (" +:+ NEWLINE);;
  BindStms_format (ReturnStm_Bindings self) INDENT;;
  WriteString INDENT;;
  WriteString (")" +:+ NEWLINE).

Definition PipelineRetains_format (self : PipelineRetains) : M unit :=
  printComments (PipelineRetains_Node self) INDENT;;
  WriteString INDENT;;
  WriteString ("retain (" +:+ NEWLINE);;
  forM_ (Refs self)
    (fun ref =>
       WriteString INDENT;;
       WriteString INDENT;;
       WriteString (RefExp_format ref (INDENT +:+ INDENT));;
       WriteString ("," +:+ NEWLINE));;
  WriteString INDENT;;
  WriteString (")" +:+ NEWLINE).

(** ** Ordering the calls of a pipeline

    Modelled from the spec: [Pipeline.topoSort] is not among the sources.
    The specification asks for the calls in dependency order with the
    least reordering; its example and the test [TestFormatTopoSort] fix
    the reading implemented here: the next call emitted is always the
    first one, in the order of the source, none of whose bindings refers
    to a call still waiting.  If no such call exists (a dependency cycle,
    which the specification treats as a malformed AST) the calls still
    waiting keep their order. *)

(** The calls whose outputs an expression refers to. *)
Fixpoint Exp_callRefs (e : Exp) : list string :=
  match e with
  | Ref r => if bool_decide (RefExp_Kind r = KindCall) then [RefExp_Id r] else []
  | ValExp _ _ (VExps l) => flat_map Exp_callRefs l
  | ValExp _ _ (VMapExp m) => flat_map (fun kv => Exp_callRefs (snd kv)) m
  | ValExp _ _ _ => []
  end.

Definition CallStm_deps (c : CallStm) : list string :=
  flat_map (fun b => Exp_callRefs (BindStm_Exp b)) (BindStms_List (CallStm_Bindings c)).

Definition hasCall (id : string) (l : list CallStm) : bool :=
  existsb (fun c => bool_decide (CallStm_Id c = id)) l.

(** [c] can be emitted while the calls of [waiting] are still to come. *)
Definition ready (waiting : list CallStm) (c : CallStm) : bool :=
  forallb (fun dep => negb (hasCall dep waiting)) (CallStm_deps c).

(** The first element satisfying [P], and the list without it. *)
Fixpoint extract {A} (P : A → bool) (l : list A) : option (A * list A) :=
  match l with
  | [] => None
  | x :: r =>
      if P x then Some (x, r)
      else '(y, r') ← extract P r; Some (y, x :: r')
  end.

Fixpoint topo (fuel : nat) (waiting : list CallStm) : list CallStm :=
  match fuel with
  | O => waiting
  | S f =>
      match extract (ready waiting) waiting with
      | Some (c, rest) => c :: topo f rest
      | None => waiting
      end
  end.

Definition topoSort (calls : list CallStm) : list CallStm :=
  topo (length calls) calls.

(** ** Pipelines *)

Fixpoint forM {A B} (l : list A) (f : A → M B) : M (list B) :=
  match l with
  | [] => mret []
  | x :: r => y ← f x; ys ← forM r f; mret (y :: ys)
  end.

Definition Pipeline_setCalls (self : Pipeline) (calls : list CallStm) : Pipeline :=
  {| Pipeline_Node := Pipeline_Node self; Pipeline_Id := Pipeline_Id self;
     Pipeline_InParams := Pipeline_InParams self;
     Pipeline_OutParams := Pipeline_OutParams self;
     Calls := calls; Ret := Ret self; Pipeline_Retain := Pipeline_Retain self |}.

Definition Pipeline_format (self : Pipeline) : M Pipeline :=
  printComments (Pipeline_Node self) EmptyString;;
  let '(modeWidth, typeWidth, idWidth, helpWidth) :=
    measureParamsWidths [Params_In (Pipeline_InParams self);
                         Params_Out (Pipeline_OutParams self)] in
  WriteString ("pipeline " +:+ Pipeline_Id self +:+ "(" +:+ NEWLINE);;
  InParams_format (Pipeline_InParams self) modeWidth typeWidth idWidth helpWidth;;
  OutParams_format (Pipeline_OutParams self) modeWidth typeWidth idWidth helpWidth;;
  WriteString (")" +:+ NEWLINE +:+ "{");;
  calls ← forM (topoSort (Calls self))
             (fun callstm => WriteString NEWLINE;; CallStm_format callstm INDENT);
  WriteString NEWLINE;;
  ReturnStm_format (Ret self);;
  match Pipeline_Retain self with
  | Some retain => WriteString NEWLINE;; PipelineRetains_format retain
  | None => mret tt
  end;;
  WriteString ("}" +:+ NEWLINE);;
  mret (Pipeline_setCalls self calls).

(** ** Stages *)

Definition Resources_format (self : Resources) : M unit :=
  printComments (Resources_Node self) INDENT;;
  WriteString (") using (" +:+ NEWLINE);;
  let '(memPad, threadPad) :=
    if bool_decide (is_Some (VolatileNode self)) then ("  ", " ")
    else if bool_decide (is_Some (SpecialNode self)) || bool_decide (is_Some (ThreadNode self))
         then (" ", EmptyString)
         else (EmptyString, EmptyString) in
  match MemNode self with
  | Some node =>
      printComments node INDENT;;
      WriteString INDENT;;
      WriteString ("mem_gb" +:+ memPad +:+ " = " +:+ strconv.FormatInt (MemGB self)
                     +:+ "," +:+ NEWLINE)
  | None => mret tt
  end;;
  match SpecialNode self with
  | Some node =>
      printComments node INDENT;;
      WriteString INDENT;;
      WriteString ("special" +:+ threadPad +:+ " = " +:+ quote +:+ Special self +:+ quote
                     +:+ "," +:+ NEWLINE)
  | None => mret tt
  end;;
  match ThreadNode self with
  | Some node =>
      printComments node INDENT;;
      WriteString INDENT;;
      WriteString ("threads" +:+ threadPad +:+ " = " +:+ strconv.FormatInt (Threads self)
                     +:+ "," +:+ NEWLINE)
  | None => mret tt
  end;;
  match VolatileNode self with
  | Some node =>
      printComments node INDENT;;
      WriteString INDENT;;
      WriteString ("volatile = strict," +:+ NEWLINE)
  | None => mret tt
  end.

Definition RetainParams_format (self : RetainParams) : M unit :=
  printComments (RetainParams_Node self) INDENT;;
  WriteString (") retain (" +:+ NEWLINE);;
  forM_ (RetainParams_Params self)
    (fun param =>
       printComments (RetainParam_Node param) INDENT;;
       WriteString INDENT;;
       WriteString (RetainParam_Id param);;
       WriteString ("," +:+ NEWLINE)).

Definition SrcParam_format (self : SrcParam) (modeWidth typeWidth idWidth : Z) : M unit :=
  printComments (SrcParam_Node self) INDENT;;
  langPad ← liftO (strings_Repeat " " (typeWidth - len (Lang self)));
  modePad ← liftO (strings_Repeat " " (modeWidth - len "src"));
  WriteString (INDENT +:+ "src" +:+ modePad +:+ " " +:+ Lang self +:+ langPad +:+ " "
                 +:+ quote +:+ strings_Join (Path self :: Args self) " " +:+ quote
                 +:+ "," +:+ NEWLINE).

(** The identifier and help widths of the split block: those of the whole
    stage, unless one of them is too wide. *)
Definition Stage_chunkWidths (self : Stage) (idWidth helpWidth : Z) : Z * Z :=
  if (30 <? idWidth) || (20 <? helpWidth) then
    let '(_, _, idWidth, helpWidth) :=
      measureParamsWidths [Params_In (ChunkIns self); Params_Out (ChunkOuts self)] in
    (idWidth, helpWidth)
  else (idWidth, helpWidth).

Definition Stage_format (self : Stage) : M unit :=
  printComments (Stage_Node self) EmptyString;;
  let '(modeWidth, typeWidth, idWidth, helpWidth) :=
    measureParamsWidths [Params_In (Stage_InParams self); Params_Out (Stage_OutParams self);
                         Params_In (ChunkIns self); Params_Out (ChunkOuts self)] in
  let modeWidth := max modeWidth (len "src") in
  WriteString ("stage " +:+ Stage_Id self +:+ "(" +:+ NEWLINE);;
  InParams_format (Stage_InParams self) modeWidth typeWidth idWidth helpWidth;;
  OutParams_format (Stage_OutParams self) modeWidth typeWidth idWidth helpWidth;;
  SrcParam_format (Src self) modeWidth typeWidth idWidth;;
  let '(idWidth, helpWidth) := Stage_chunkWidths self idWidth helpWidth in
  when (Split self)
    (WriteString (") split (" +:+ NEWLINE);;
     InParams_format (ChunkIns self) modeWidth typeWidth idWidth helpWidth;;
     OutParams_format (ChunkOuts self) modeWidth typeWidth idWidth helpWidth);;
  match Stage_Resources self with
  | Some resources => Resources_format resources
  | None => mret tt
  end;;
  match Stage_Retain self with
  | Some retain => RetainParams_format retain
  | None => mret tt
  end;;
  WriteString (")" +:+ NEWLINE).

(** ** Callables, file types, the whole unit *)

Definition Callable_format (callable : Callable) : M Callable :=
  match callable with
  | Callable_Stage s => Stage_format s;; mret (Callable_Stage s)
  | Callable_Pipeline p => p' ← Pipeline_format p; mret (Callable_Pipeline p')
  end.

Fixpoint Callables_format_from (i : nat) (l : list Callable) : M (list Callable) :=
  match l with
  | [] => mret []
  | callable :: r =>
      when (bool_decide (i ≠ 0%nat)) (WriteString NEWLINE);;
      c ← Callable_format callable;
      cs ← Callables_format_from (S i) r;
      mret (c :: cs)
  end.

Definition Callables_format (List : list Callable) : M (list Callable) :=
  Callables_format_from 0 List.

Definition UserType_format (self : UserType) : M unit :=
  printComments (UserType_Node self) EmptyString;;
  WriteString ("filetype " +:+ UserType_Id self +:+ ";" +:+ NEWLINE).

(** The walk from any file of the unit up its first include site. *)
Fixpoint topFile_of (f : SourceFile) : option SourceFile :=
  match IncludedFrom f with
  | [] => Some f
  | site :: _ =>
      match File site with
      | Some g => topFile_of g
      | None => None
      end
  end.

(** The pending-comment table: every comment of the unit, by file. *)
Definition collectComments (l : list commentBlock)
    : option (gmap string (list commentBlock)) :=
  fold_left (fun acc comment =>
               table ← acc;
               file ← File (comment_Loc comment);
               Some (<[FullPath file := default [] (table !! FullPath file) ++ [comment]]> table))
            l (Some ∅).

(** What formatting hands back: the text, and the callables and the
    top-level call as it leaves them. *)
Record Formatted := mkFormatted
  { Formatted_Callables : list Callable;
    Formatted_Call : option CallStm;
    Formatted_text : string }.

(** The body of [Ast.format] once the printer is set up.  [needSpacer]
    is threaded as in the source. *)
Definition Ast_format_body (oComments : MapOrder) (self : Ast) (writeIncludes : bool)
    : M Formatted :=
  (if writeIncludes then
     forM_ (Includes self)
       (fun directive =>
          printComments (Include_Node directive) EmptyString;;
          WriteString ("@include " +:+ quote);;
          WriteString (Include_Value directive);;
          WriteString quote;;
          WriteString NEWLINE)
   else mret tt);;
  let needSpacer := writeIncludes && bool_decide (0 < length (Includes self))%nat in
  when (needSpacer && bool_decide (0 < length (UserTypes self))%nat) (WriteString NEWLINE);;
  forM_ (UserTypes self) UserType_format;;
  let needSpacer := needSpacer || bool_decide (0 < length (UserTypes self))%nat in
  when (needSpacer && bool_decide (0 < length (Callables self))%nat) (WriteString NEWLINE);;
  callables ← Callables_format (Callables self);
  call ← match Call self with
         | Some call =>
             when (bool_decide (0 < length (Callables self))%nat || needSpacer)
               (WriteString NEWLINE);;
             call' ← CallStm_format call EmptyString;
             mret (Some call')
         | None => mret None
         end;
  DumpComments oComments;;
  text ← get_String;
  mret (mkFormatted callables call text).

(** [Ast.format].  [oFiles] and [oComments] are the orders in which this
    run's loops over [self.Files] and over the printer's comment table
    visit their keys. *)
Definition Ast_format (oFiles oComments : MapOrder) (self : Ast) (writeIncludes : bool)
    : option Formatted :=
  let last :=
    match range_map oFiles (Files self) with
    | [] => {| Line := 0; File := None |}
    | (_, f) :: _ => {| Line := 0; File := topFile_of f |}
    end in
  table ← collectComments (Ast_comments self);
  fst <$> Ast_format_body oComments self writeIncludes
            {| buf := EmptyString; comments := table; lastComment := last |}.

(** ** The bulk export *)

Record JsonDump := mkJsonDump
  { JsonDump_UserTypes : gmap string UserType;
    JsonDump_Stages : gmap string Stage;
    JsonDump_Pipelines : gmap string Pipeline }.

(** The table that [JsonDumpAsts] fills before serialising it. *)
Definition JsonDump_add (jd : JsonDump) (ast : Ast) : JsonDump :=
  let uts := fold_left (fun m t => <[UserType_Id t := t]> m) (UserTypes ast)
                       (JsonDump_UserTypes jd) in
  let sts := fold_left (fun m stage => <[Stage_Id stage := stage]> m) (Stages ast)
                       (JsonDump_Stages jd) in
  let pls := fold_left (fun m pipeline => <[Pipeline_Id pipeline := pipeline]> m)
                       (Pipelines ast) (JsonDump_Pipelines jd) in
  {| JsonDump_UserTypes := uts; JsonDump_Stages := sts; JsonDump_Pipelines := pls |}.

Definition JsonDump_of (asts : list Ast) : JsonDump :=
  fold_left JsonDump_add asts
    {| JsonDump_UserTypes := ∅; JsonDump_Stages := ∅; JsonDump_Pipelines := ∅ |}.

(** [json.MarshalIndent] depends on the field tags of the AST types, which
    are declared outside the sources; it is a parameter, returning the text
    or an error message. *)
Definition JsonDumpAsts (MarshalIndent : JsonDump → string + string) (asts : list Ast)
    : string :=
  match MarshalIndent (JsonDump_of asts) with
  | inl jsonBytes => jsonBytes
  | inr err => "{ error: " +:+ quote +:+ err +:+ quote +:+ " }"
  end.

(** * Properties *)

#[local] Set Warnings "-clear-no-such-hyp".

(** ** Byte strings *)

Lemma append_cons (x : Ascii.ascii) (a b : string) :
  String x a +:+ b = String x (a +:+ b).
Proof. reflexivity. Qed.

Lemma append_assoc (a b c : string) : (a +:+ b) +:+ c = a +:+ b +:+ c.
Proof.
  induction a as [|x a IH]; [reflexivity|]. rewrite !append_cons. by rewrite IH.
Qed.

Lemma append_nil_r (a : string) : a +:+ EmptyString = a.
Proof.
  induction a as [|x a IH]; [reflexivity|]. rewrite append_cons. by rewrite IH.
Qed.

Lemma length_append (a b : string) :
  String.length (a +:+ b) = (String.length a + String.length b)%nat.
Proof.
  induction a as [|x a IH]; [reflexivity|]. rewrite append_cons. cbn. by rewrite IH.
Qed.

(** ** Running printer programs *)

Lemma run_bind {A B} (m : M A) (f : A → M B) (p : printer) :
  (m ≫= f) p = match m p with Some (x, p') => f x p' | None => None end.
Proof. reflexivity. Qed.

Lemma run_ret {A} (x : A) (p : printer) : (mret x : M A) p = Some (x, p).
Proof. reflexivity. Qed.

Lemma run_assoc {A B C} (m : M A) (f : A → M B) (g : B → M C) (p : printer) :
  ((m ≫= f) ≫= g) p = (m ≫= (fun x => f x ≫= g)) p.
Proof. rewrite !run_bind. destruct (m p) as [[x p']|]; reflexivity. Qed.

Lemma run_bind_ext {A B} (m : M A) (f g : A → M B) (p : printer) :
  (∀ x q, f x q = g x q) → (m ≫= f) p = (m ≫= g) p.
Proof. intros H. rewrite !run_bind. destruct (m p) as [[x p']|]; auto. Qed.

(** ** Numbers *)

(** The float literals of [TestFormatValueExpression], as the values the
    Go compiler gives them. *)
Module FloatLiterals.
Definition f_10_0 : strconv.float64 := strconv.ParseFloat_decimal false 100 (-1).
Definition f_10_05 : strconv.float64 := strconv.ParseFloat_decimal false 1005 (-2).
Definition f_10_050 : strconv.float64 := strconv.ParseFloat_decimal false 10050 (-3).
Definition f_10_050000000 : strconv.float64 := strconv.ParseFloat_decimal false 10050000000 (-9).
Definition f_0_0000000005 : strconv.float64 := strconv.ParseFloat_decimal false 5 (-10).
Definition f_0_0005 : strconv.float64 := strconv.ParseFloat_decimal false 5 (-4).
Definition f_1000000_0 : strconv.float64 := strconv.ParseFloat_decimal false 10000000 (-1).

Example f_10_05_bits : f_10_05 = strconv.Finite false 5657647031884186 (-49).
Proof. vm_compute. reflexivity. Qed.

Example f_1000000_0_bits : f_1000000_0 = strconv.Finite false 8589934592000000 (-33).
Proof. vm_compute. reflexivity. Qed.
End FloatLiterals.

Section Numbers.
Import strconv.

(** ** Shortest decimals *)

(** The number a list of decimal digits denotes. *)
Definition digits_value (l : list Z) : Z := fold_left (fun a x => 10 * a + x) l 0.

Lemma digits_value_snoc (l : list Z) (x : Z) :
  digits_value (l ++ [x]) = 10 * digits_value l + x.
Proof. unfold digits_value. by rewrite fold_left_app. Qed.

Lemma digits_fuel_spec (fuel : nat) (n : Z) :
  0 < n < 10 ^ (Z.of_nat fuel + 1) →
  let l := digits_fuel fuel n in
  digits_value l = n
  ∧ 10 ^ (Z.of_nat (length l) - 1) ≤ n < 10 ^ Z.of_nat (length l)
  ∧ Forall (fun x => 0 ≤ x < 10) l.
Proof.
  revert n. induction fuel as [|fuel IH]; intros n Hn; cbn zeta.
  - change (10 ^ (Z.of_nat 0 + 1)) with 10 in Hn.
    cbn [digits_fuel]. rewrite Z.mod_small by lia. cbn. repeat split; try lia.
    constructor; [lia|constructor].
  - cbn [digits_fuel]. destruct (Z.ltb_spec n 10) as [Hlt|Hge].
    + cbn. repeat split; try lia. constructor; [lia|constructor].
    + assert (Hpow : 10 ^ (Z.of_nat (S fuel) + 1) = 10 * 10 ^ (Z.of_nat fuel + 1)).
      { rewrite <- Z.pow_succ_r by lia. f_equal. lia. }
      assert (Hdiv : 0 < n / 10 < 10 ^ (Z.of_nat fuel + 1)).
      { split; [apply Z.div_str_pos; lia|]. apply Z.div_lt_upper_bound; lia. }
      destruct (IH _ Hdiv) as (Hval & [Hlo Hhi] & Hall).
      set (l := digits_fuel fuel (n / 10)) in *.
      pose proof (Z.mod_pos_bound n 10 ltac:(lia)) as Hmod.
      pose proof (Z.div_mod n 10 ltac:(lia)) as Hdm.
      rewrite digits_value_snoc, Hval, length_app. cbn [length].
      replace (Z.of_nat (length l + 1)) with (Z.succ (Z.of_nat (length l))) by lia.
      rewrite Z.pow_succ_r by lia.
      replace (Z.succ (Z.of_nat (length l)) - 1) with (Z.succ (Z.of_nat (length l) - 1)) by lia.
      assert (1 ≤ Z.of_nat (length l)).
      { destruct l; [|cbn; lia]. cbn in Hhi. lia. }
      rewrite Z.pow_succ_r by lia.
      repeat split; try lia.
      apply Forall_app. split; [done|]. constructor; [lia|constructor].
Qed.

Lemma digits_spec (n : Z) :
  0 < n →
  digits_value (digits n) = n
  ∧ 10 ^ (ndigits n - 1) ≤ n < 10 ^ ndigits n
  ∧ Forall (fun x => 0 ≤ x < 10) (digits n).
Proof.
  intros Hn. apply digits_fuel_spec. split; [done|].
  pose proof (Z.log2_nonneg n). rewrite Z2Nat.id by done.
  destruct (Z.log2_spec n Hn) as [_ Hlt]. eapply Z.lt_le_trans; [exact Hlt|].
  rewrite <- Z.add_1_r. apply Z.pow_le_mono_l. lia.
Qed.

Lemma ndigits_pos (n : Z) : 1 ≤ ndigits n.
Proof.
  unfold ndigits, digits. destruct (Z.to_nat (Z.log2 n)); cbn [digits_fuel].
  - cbn. lia.
  - destruct (n <? 10); [cbn; lia|]. rewrite length_app. cbn. lia.
Qed.

Lemma ndigits_unique (n j : Z) :
  0 < n → 10 ^ (j - 1) ≤ n < 10 ^ j → ndigits n = j.
Proof.
  intros Hn [Hlo Hhi]. destruct (digits_spec n Hn) as (_ & [Hlo' Hhi'] & _).
  pose proof (ndigits_pos n).
  assert (0 ≤ j).
  { destruct (Z.lt_ge_cases j 0); [|done]. rewrite Z.pow_neg_r in Hhi by done. lia. }
  assert (ndigits n - 1 < j).
  { apply (Z.pow_lt_mono_r_iff 10); lia. }
  assert (j - 1 < ndigits n).
  { destruct (Z.eq_dec j 0) as [->|]; [lia|]. apply (Z.pow_lt_mono_r_iff 10); lia. }
  lia.
Qed.

Lemma bounds_order (m e : Z) :
  0 < m → 0 < lo (bounds m e) < mid (bounds m e) ∧ mid (bounds m e) < hi (bounds m e).
Proof.
  intros Hm. unfold bounds. cbn [lo mid hi].
  set (s := if 0 <=? e - 2 then 2 ^ (e - 2) else 5 ^ (2 - e)).
  assert (0 < s).
  { unfold s. destruct (Z.leb_spec 0 (e - 2)); apply Z.pow_pos_nonneg; lia. }
  destruct ((2 ^ 52 <? m) || (e =? minexp)); nia.
Qed.

Section Shortest.
Variable b : interval.
Variable D : Z.
Hypothesis lo_pos : 0 < lo b.
Hypothesis lo_mid : lo b < mid b.
Hypothesis mid_hi : mid b < hi b.
Hypothesis D_spec : 10 ^ (D - 1) ≤ mid b < 10 ^ D.
Hypothesis D_pos : 1 ≤ D.

(** Membership in the interval for an integer over [10^q10]. *)
Definition inside (v : Z) : Prop :=
  if inclusive b then lo b ≤ v ≤ hi b else lo b < v < hi b.

Lemma rounds_to_ge (c k : Z) :
  q10 b ≤ k → rounds_to b c k = true ↔ inside (c * 10 ^ (k - q10 b)).
Proof.
  intros Hk. unfold rounds_to, inside. rewrite Z.min_r by done.
  rewrite Z.sub_diag, Z.pow_0_r, !Z.mul_1_r.
  destruct (inclusive b); rewrite andb_true_iff.
  - by rewrite !Z.leb_le.
  - by rewrite !Z.ltb_lt.
Qed.

Lemma rounds_to_lt (c k : Z) :
  k < q10 b → rounds_to b c k = true → lo b * 10 ^ (q10 b - k) ≤ c.
Proof.
  intros Hk. unfold rounds_to. rewrite Z.min_l by lia.
  rewrite Z.sub_diag, Z.pow_0_r, Z.mul_1_r.
  destruct (inclusive b); rewrite andb_true_iff.
  - rewrite !Z.leb_le. lia.
  - rewrite !Z.ltb_lt. lia.
Qed.

Lemma inside_lower (v : Z) : inside v → lo b ≤ v.
Proof. unfold inside. destruct (inclusive b); lia. Qed.

Lemma inside_between (u v w : Z) : inside u → inside w → u ≤ v ≤ w → inside v.
Proof. unfold inside. destruct (inclusive b); lia. Qed.

Lemma inside_mid : inside (mid b).
Proof. unfold inside. destruct (inclusive b); lia. Qed.

Lemma inside_above_lo (v : Z) : lo b < v → v ≤ mid b → inside v.
Proof. unfold inside. destruct (inclusive b); lia. Qed.

(** The level-[n] neighbours of the value. *)
Lemma neighbours (n : Z) :
  1 ≤ n ≤ D →
  let S := 10 ^ (D - n) in
  let c0 := mid b / S in
  0 < S ∧ c0 * S ≤ mid b < (c0 + 1) * S ∧ 10 ^ (n - 1) ≤ c0 < 10 ^ n
  ∧ 10 ^ (D - 1) = 10 ^ (n - 1) * S.
Proof.
  intros Hn S c0.
  assert (HS : 0 < S) by (apply Z.pow_pos_nonneg; lia).
  assert (Hsplit : 10 ^ (D - 1) = 10 ^ (n - 1) * S).
  { unfold S. rewrite <- Z.pow_add_r by lia. f_equal. lia. }
  assert (Hsplit' : 10 ^ D = 10 ^ n * S).
  { unfold S. rewrite <- Z.pow_add_r by lia. f_equal. lia. }
  pose proof (Z.mul_div_le (mid b) S HS).
  pose proof (Z.mul_succ_div_gt (mid b) S HS).
  repeat split; try lia.
  - apply Z.div_le_lower_bound; lia.
  - apply Z.div_lt_upper_bound; lia.
Qed.

Lemma candidate_Some (n c : Z) :
  1 ≤ n ≤ D →
  candidate b D n = Some c →
  rounds_to b c (q10 b + (D - n)) = true ∧ 10 ^ (n - 1) ≤ c ≤ 10 ^ n.
Proof.
  intros Hn. destruct (neighbours n Hn) as (HS & Hc0 & Hr & _).
  unfold candidate. cbv zeta.
  destruct (rounds_to b (mid b / 10 ^ (D - n)) _) eqn:H0;
    destruct (rounds_to b (mid b / 10 ^ (D - n) + 1) _) eqn:H1;
    repeat match goal with |- context [if ?x then _ else _] => destruct x end;
    intros [= <-]; split; try done; lia.
Qed.

Lemma candidate_None (n : Z) :
  1 ≤ n ≤ D →
  candidate b D n = None →
  ¬ inside (mid b / 10 ^ (D - n) * 10 ^ (D - n))
  ∧ ¬ inside ((mid b / 10 ^ (D - n) + 1) * 10 ^ (D - n)).
Proof.
  intros Hn. unfold candidate. cbv zeta.
  destruct (rounds_to b (mid b / 10 ^ (D - n)) _) eqn:H0;
    destruct (rounds_to b (mid b / 10 ^ (D - n) + 1) _) eqn:H1;
    repeat match goal with |- context [if ?x then _ else _] => destruct x end;
    try discriminate.
  intros _. apply not_true_iff_false in H0, H1.
  rewrite rounds_to_ge in H0, H1 by lia.
  replace (q10 b + (D - n) - q10 b) with (D - n) in H0, H1 by lia. done.
Qed.

(** If any decimal of at most [n] digits lies in the interval, so does one
    of the two level-[n] neighbours of the value. *)
Lemma candidate_complete (n c' k' : Z) :
  1 ≤ n ≤ D → 0 < c' < 10 ^ n →
  rounds_to b c' k' = true → candidate b D n ≠ None.
Proof.
  intros Hn Hc' Hr Hnone.
  destruct (candidate_None n Hn Hnone) as [Hno0 Hno1].
  destruct (neighbours n Hn) as (HS & [Hc0 Hc1] & [Hc0lo Hc0hi] & Hsplit).
  set (S := 10 ^ (D - n)) in *. set (c0 := mid b / S) in *.
  pose proof inside_mid as Hmid.
  destruct (Z.le_gt_cases (q10 b + (D - n)) k') as [Hk|Hk].
  - (* the decimal is a multiple of the level's unit *)
    apply rounds_to_ge in Hr; [|lia].
    replace (k' - q10 b) with ((k' - (q10 b + (D - n))) + (D - n)) in Hr by lia.
    rewrite Z.pow_add_r, Z.mul_assoc in Hr by lia. fold S in Hr.
    set (w := c' * 10 ^ (k' - (q10 b + (D - n)))) in *.
    destruct (Z.le_gt_cases w c0) as [Hw|Hw].
    + apply Hno0. apply (inside_between (w * S) _ (mid b)); [done|done|nia].
    + apply Hno1. apply (inside_between (mid b) _ (w * S)); [done|done|nia].
  - (* the decimal is smaller than every [n]-digit decimal of the level *)
    apply Hno0. apply inside_above_lo; [|lia].
    apply Z.lt_le_trans with (10 ^ (D - 1)); [|nia].
    destruct (Z.le_gt_cases (q10 b) k') as [Hq|Hq].
    + apply rounds_to_ge in Hr; [|done]. apply inside_lower in Hr.
      eapply Z.le_lt_trans; [exact Hr|].
      assert (0 < 10 ^ (k' - q10 b)) by (apply Z.pow_pos_nonneg; lia).
      apply Z.lt_le_trans with (10 ^ n * 10 ^ (k' - q10 b)); [nia|].
      rewrite <- Z.pow_add_r by lia. apply Z.pow_le_mono_r; lia.
    + apply rounds_to_lt in Hr; [|done].
      assert (10 ≤ 10 ^ (q10 b - k')).
      { change 10 with (10 ^ 1) at 1. apply Z.pow_le_mono_r; lia. }
      assert (Hlt : lo b * 10 < 10 ^ n) by nia.
      replace n with (Z.succ (n - 1)) in Hlt by lia.
      rewrite Z.pow_succ_r in Hlt by lia.
      apply Z.lt_le_trans with (10 ^ (n - 1)); [lia|].
      apply Z.pow_le_mono_r; lia.
Qed.

Lemma search_spec (fuel : nat) (n : Z) :
  1 ≤ n → n + Z.of_nat fuel = D →
  let '(c, nf) := search b D fuel n in
  n ≤ nf ≤ D
  ∧ rounds_to b c (q10 b + (D - nf)) = true
  ∧ 10 ^ (nf - 1) ≤ c ≤ 10 ^ nf
  ∧ (∀ n', n ≤ n' < nf → candidate b D n' = None).
Proof.
  revert n. induction fuel as [|fuel IH]; intros n Hn Hfuel; cbn [search].
  - assert (n = D) as -> by lia. split; [lia|]. split; [|split; [lia|intros; lia]].
    apply rounds_to_ge; [lia|].
    replace (q10 b + (D - D) - q10 b) with 0 by lia.
    rewrite Z.pow_0_r, Z.mul_1_r. apply inside_mid.
  - destruct (candidate b D n) as [c|] eqn:Hcand.
    + destruct (candidate_Some n c ltac:(lia) Hcand) as [Hr Hc].
      split; [lia|]. split; [done|]. split; [done|]. intros; lia.
    + specialize (IH (n + 1) ltac:(lia) ltac:(lia)).
      destruct (search b D fuel (n + 1)) as [c nf].
      destruct IH as (Hnf & Hr & Hc & Hnone).
      split; [lia|]. split; [done|]. split; [done|].
      intros n' Hn'. destruct (Z.eq_dec n' n) as [->|]; [done|]. apply Hnone. lia.
Qed.
End Shortest.

Lemma rounds_to_shift (b : interval) (c k : Z) :
  q10 b ≤ k → rounds_to b (10 * c) k = rounds_to b c (k + 1).
Proof.
  intros Hk. unfold rounds_to. rewrite !Z.min_r by lia.
  replace (k + 1 - q10 b) with (Z.succ (k - q10 b)) by lia.
  rewrite Z.pow_succ_r by lia.
  replace (10 * c * 10 ^ (k - q10 b)) with (c * (10 * 10 ^ (k - q10 b))) by ring.
  reflexivity.
Qed.

Lemma shortest_ck_spec (m e : Z) :
  0 < m →
  let b := bounds m e in
  let '(c, k) := shortest_ck m e in
  0 < c
  ∧ rounds_to b c k = true
  ∧ (∀ c' k', 0 < c' < 10 ^ (ndigits c - 1) → rounds_to b c' k' = false)
  ∧ c mod 10 ≠ 0.
Proof.
  intros Hm b. destruct (bounds_order m e Hm) as [[Hlo Hlm] Hmh]. fold b in Hlo, Hlm, Hmh.
  unfold shortest_ck. fold b. set (D := ndigits (mid b)).
  destruct (digits_spec (mid b) ltac:(lia)) as (_ & HD & _). fold D in HD.
  pose proof (ndigits_pos (mid b)) as HD1. fold D in HD1.
  pose proof (search_spec b D Hlm Hmh HD HD1 (Z.to_nat (D - 1)) 1
                ltac:(lia) ltac:(lia)) as Hs.
  destruct (search b D (Z.to_nat (D - 1)) 1) as [c1 nf].
  destruct Hs as (Hnf & Hr & [Hc1lo Hc1hi] & Hnone).
  assert (Hpow : 0 < 10 ^ (nf - 1)) by (apply Z.pow_pos_nonneg; lia).
  assert (Hsucc : 10 ^ nf = 10 * 10 ^ (nf - 1)).
  { rewrite <- Z.pow_succ_r by lia. f_equal. lia. }
  destruct (Z.eqb_spec c1 (10 ^ nf)) as [->|Hne].
  - (* the upper neighbour is a power of ten *)
    split; [lia|]. split; [|split].
    + apply (rounds_to_ge b); [lia|]. apply (rounds_to_ge b) in Hr; [|lia].
      replace (q10 b + (D - nf) + nf - q10 b) with (nf + (D - nf)) by lia.
      replace (q10 b + (D - nf) - q10 b) with (D - nf) in Hr by lia.
      rewrite Z.pow_add_r by lia. by rewrite Z.mul_1_l.
    + intros c' k' Hc'. change (ndigits 1) with 1 in Hc'. cbn in Hc'. lia.
    + by cbn.
  - assert (Hnd : ndigits c1 = nf) by (apply ndigits_unique; lia).
    assert (Hmin : ∀ c' k', 0 < c' < 10 ^ (nf - 1) → rounds_to b c' k' = false).
    { intros c' k' Hc'. apply not_true_iff_false. intros Hr'.
      assert (1 ≤ nf - 1).
      { destruct (Z.eq_dec nf 1) as [->|]; [cbn in Hc'; lia|lia]. }
      apply (candidate_complete b D Hlo Hlm Hmh HD HD1 (nf - 1) c' k'); try done; try lia.
      apply Hnone. lia. }
    split; [lia|]. split; [done|]. split; [by rewrite Hnd|].
    intros Hmod.
    destruct (Z.eq_dec nf 1) as [Hnf1|Hnf1].
    { rewrite Hnf1 in *. cbn in Hc1lo, Hc1hi.
      rewrite Z.mod_small in Hmod by (change (10 ^ 1) with 10 in *; lia). lia. }
    pose proof (Z.div_mod c1 10 ltac:(lia)) as Hdm. rewrite Hmod, Z.add_0_r in Hdm.
    assert (Hr' : rounds_to b (c1 / 10) (q10 b + (D - nf) + 1) = true).
    { rewrite <- rounds_to_shift by lia. by rewrite <- Hdm. }
    rewrite Hmin in Hr'; [done|]. lia.
Qed.

(** The last of the digits of [n] is [n mod 10]. *)
Lemma digits_last (n : Z) : 0 < n → last (digits n) = Some (n mod 10).
Proof.
  intros Hn. unfold digits. destruct (Z.to_nat (Z.log2 n)); cbn [digits_fuel].
  - reflexivity.
  - destruct (Z.ltb_spec n 10).
    + cbn. by rewrite Z.mod_small by lia.
    + by rewrite last_snoc.
Qed.

(** The interval of the value a literal denotes holds the literal. *)
Lemma ParseFloat_decimal_sound (neg : bool) (c k m e : Z) :
  ParseFloat_decimal neg c k = Finite neg m e → m ≠ 0 →
  canonical m e = true ∧ rounds_to (bounds m e) c k = true.
Proof.
  unfold ParseFloat_decimal. destruct (c =? 0); [intros [= <- _]; done|].
  set (tries := flat_map _ _).
  set (ok := fun me : Z * Z => _ && _ = true).
  destruct (filter ok tries) as [|[m' e'] l] eqn:Hf.
  - destruct (0 <? _); [discriminate|]. intros [= <- _]; done.
  - intros [= -> ->] _.
    assert (Hin : (m, e) ∈ filter ok tries) by (rewrite Hf; left).
    apply list_elem_of_filter in Hin as [Hok _]. unfold ok in Hok. cbn in Hok.
    by apply andb_true_iff in Hok.
Qed.

(** *** The layouts *)

Lemma fmtE_shortest (neg : bool) (digs : decimalSlice) :
  0 < nd digs →
  fmtE neg digs (nd digs - 1)
  = (if neg then "-" else "")
    +:+ digit_string (take 1 (d digs))
    +:+ (if 1 <? nd digs then "." +:+ digit_string (drop 1 (d digs)) else "")
    +:+ "e" +:+ (if dp digs - 1 <? 0 then "-" else "+")
    +:+ (if Z.abs (dp digs - 1) <? 10
         then "0" +:+ digit_string [Z.abs (dp digs - 1)]
         else digit_string (digits (Z.abs (dp digs - 1)))).
Proof.
  intros Hnd. unfold fmtE. unfold nd in *.
  destruct (d digs) as [|x l] eqn:Hd; [cbn in Hnd; lia|].
  cbn [take drop length] in *.
  replace (Z.of_nat (S (length l)) =? 0) with false by (symmetry; apply Z.eqb_neq; lia).
  replace (0 <? Z.of_nat (S (length l)) - 1) with (1 <? Z.of_nat (S (length l)))
    by (destruct (Z.ltb_spec 0 (Z.of_nat (S (length l)) - 1)), (Z.ltb_spec 1 (Z.of_nat (S (length l)))); lia).
  destruct (Z.ltb_spec 1 (Z.of_nat (S (length l)))); [|reflexivity].
  rewrite Z.min_l by lia.
  replace (Z.to_nat (Z.of_nat (S (length l)) - 1)) with (length l) by lia.
  rewrite firstn_all.
  replace (Z.of_nat (S (length l)) - 1 + 1 - Z.max (Z.of_nat (S (length l))) 1) with 0 by lia.
  change (zeros 0) with EmptyString. by rewrite append_nil_r.
Qed.

Lemma fmtF_integral (neg : bool) (digs : decimalSlice) :
  0 < nd digs → nd digs ≤ dp digs →
  fmtF neg digs (Z.max (nd digs - dp digs) 0)
  = (if neg then "-" else "") +:+ digit_string (d digs) +:+ zeros (dp digs - nd digs).
Proof.
  intros Hnd Hdp. unfold fmtF. rewrite Z.max_r by lia. cbn [Z.ltb Z.compare].
  replace (0 <? dp digs) with true by (symmetry; apply Z.ltb_lt; lia).
  rewrite Z.min_l by lia. unfold nd. rewrite Nat2Z.id, firstn_all.
  by rewrite append_nil_r.
Qed.

(** The digits after the point, but for the last one. *)
Definition fraction_init (digs : decimalSlice) : list Z :=
  map (fun i => let j := dp digs + Z.of_nat i in
                if (0 <=? j) && (j <? nd digs) then nth (Z.to_nat j) (d digs) 0 else 0)
      (seq 0 (Z.to_nat (nd digs - dp digs - 1))).

Lemma fmtF_fraction (neg : bool) (digs : decimalSlice) (x : Z) :
  last (d digs) = Some x → dp digs < nd digs →
  fmtF neg digs (Z.max (nd digs - dp digs) 0)
  = (if neg then "-" else "")
    +:+ (if 0 <? dp digs then digit_string (take (Z.to_nat (dp digs)) (d digs)) else "0")
    +:+ "." +:+ digit_string (fraction_init digs ++ [x]).
Proof.
  intros Hlast Hdp. unfold fmtF, fraction_init. rewrite Z.max_l by lia.
  replace (0 <? nd digs - dp digs) with true by (symmetry; apply Z.ltb_lt; lia).
  replace (Z.to_nat (nd digs - dp digs)) with (S (Z.to_nat (nd digs - dp digs - 1))) by lia.
  rewrite seq_S, map_app. cbn [map Nat.add].
  rewrite Z2Nat.id by lia.
  replace (dp digs + (nd digs - dp digs - 1)) with (nd digs - 1) by lia.
  assert (Hnd : 0 < nd digs).
  { unfold nd. destruct (d digs); [discriminate|cbn; lia]. }
  replace ((0 <=? nd digs - 1) && (nd digs - 1 <? nd digs)) with true
    by (symmetry; apply andb_true_iff; split; [apply Z.leb_le|apply Z.ltb_lt]; lia).
  assert (nth (Z.to_nat (nd digs - 1)) (d digs) 0 = x) as ->.
  { rewrite nth_lookup. rewrite last_lookup in Hlast.
    unfold nd. replace (Z.to_nat (Z.of_nat (length (d digs)) - 1)) with (pred (length (d digs))) by lia.
    by rewrite Hlast. }
  destruct (Z.ltb_spec 0 (dp digs)).
  - rewrite Z.min_r by lia. replace (dp digs - dp digs) with 0 by lia.
    change (zeros 0) with EmptyString. by rewrite append_nil_r.
  - reflexivity.
Qed.

Lemma shortest_digits (m e : Z) :
  0 < m →
  let digs := shortest m e in
  let '(c, k) := shortest_ck m e in
  d digs = digits c ∧ dp digs = nd digs + k ∧ nd digs = ndigits c.
Proof.
  intros Hm. unfold shortest. replace (m =? 0) with false by (symmetry; apply Z.eqb_neq; lia).
  destruct (shortest_ck m e) as [c k]. cbn. by repeat split.
Qed.

Lemma FormatInt_exact (i : Z) :
  Z.of_int <$> NilZero.int_of_string (FormatInt i) = Some i.
Proof.
  unfold FormatInt. rewrite NilZero.isi.
  - cbn. f_equal. apply DecimalZ.of_to.
  - destruct i as [|p|p]; cbn; try discriminate.
    intros [= H]. by apply (Unsigned.to_uint_nonnil p).
  - destruct i as [|p|p]; cbn; try discriminate.
    intros [= H]. by apply (Unsigned.to_uint_nonnil p).
Qed.

(** C6 as stated does not hold: the float 1000000.0 has decimal exponent
    6, which is not below -4, and is printed in scientific notation. *)
Lemma large_float_scientific :
  ¬ (∀ (Node : AstNode) (prefix : string) (neg : bool) (m e : Z),
       0 < m → canonical m e = true →
       let digs := shortest m e in
       ¬ (dp digs - 1 < -4) →
       ValExp_format Node KindFloat (VFloat (Finite neg m e)) prefix
       = Some (fmtF neg digs (Z.max (nd digs - dp digs) 0))).
Proof.
  intros H.
  specialize (H (mkAstNode (mkSourceLoc 0 None) [] []) EmptyString
                false 8589934592000000 (-33) ltac:(lia) ltac:(reflexivity)).
  cbv zeta in H.
  assert (Hdp : dp (shortest 8589934592000000 (-33)) = 7) by (vm_compute; reflexivity).
  specialize (H ltac:(rewrite Hdp; lia)).
  vm_compute in H. discriminate H.
Qed.

(** C6, as amended.  A positive or negative float is printed with the
    digits of the shortest decimal that rounds to it: the decimal lies in
    the rounding interval of the value, no decimal of fewer digits does,
    and its last digit is not zero.  The digits are laid out in scientific
    notation ([d.ddd], [e], a sign and at least two exponent digits) when
    the decimal exponent is below -4 or at least 6, and in fixed-point
    notation otherwise, where the text has no point when no digit falls
    behind it and otherwise ends in the last, non-zero, digit.  The
    literals of the test are printed as 10, 10.05, 10.05, 10.05, 5e-10
    and 0.0005.  An integer is printed as the decimal numeral of its
    value: 0, 10, 1000000. *)
Theorem float_and_integer_literals :
  (∀ m e : Z, 0 < m →
     let digs := shortest m e in
     let '(c, k) := shortest_ck m e in
     d digs = digits c
     ∧ digits_value (d digs) = c
     ∧ Forall (fun x => 0 ≤ x < 10) (d digs)
     ∧ dp digs = nd digs + k
     ∧ last (d digs) = Some (c mod 10) ∧ c mod 10 ≠ 0
     ∧ rounds_to (bounds m e) c k = true
     ∧ (∀ c' k', 0 < c' < 10 ^ (nd digs - 1) → rounds_to (bounds m e) c' k' = false))
  ∧ (∀ (Node : AstNode) (prefix : string) (neg : bool) (m e : Z), 0 < m →
       let digs := shortest m e in
       let exp := dp digs - 1 in
       let sign := if neg then "-" else "" in
       ∃ text,
         ValExp_format Node KindFloat (VFloat (Finite neg m e)) prefix = Some text
         ∧ (exp < -4 ∨ 6 ≤ exp →
            text = sign +:+ digit_string (take 1 (d digs))
                   +:+ (if 1 <? nd digs then "." +:+ digit_string (drop 1 (d digs)) else "")
                   +:+ "e" +:+ (if exp <? 0 then "-" else "+")
                   +:+ (if Z.abs exp <? 10 then "0" +:+ digit_string [Z.abs exp]
                        else digit_string (digits (Z.abs exp))))
         ∧ (-4 ≤ exp < 6 → nd digs ≤ dp digs →
            text = sign +:+ digit_string (d digs) +:+ zeros (dp digs - nd digs))
         ∧ (-4 ≤ exp < 6 → dp digs < nd digs →
            ∃ x, last (d digs) = Some x ∧ x ≠ 0
                 ∧ text = sign
                          +:+ (if 0 <? dp digs
                               then digit_string (take (Z.to_nat (dp digs)) (d digs))
                               else "0")
                          +:+ "." +:+ digit_string (fraction_init digs ++ [x])))
  ∧ (∀ (Node : AstNode) (prefix : string),
       ValExp_format Node KindFloat (VFloat FloatLiterals.f_10_0) prefix = Some "10"
       ∧ ValExp_format Node KindFloat (VFloat FloatLiterals.f_10_05) prefix = Some "10.05"
       ∧ ValExp_format Node KindFloat (VFloat FloatLiterals.f_10_050) prefix = Some "10.05"
       ∧ ValExp_format Node KindFloat (VFloat FloatLiterals.f_10_050000000) prefix
         = Some "10.05"
       ∧ ValExp_format Node KindFloat (VFloat FloatLiterals.f_0_0000000005) prefix
         = Some "5e-10"
       ∧ ValExp_format Node KindFloat (VFloat FloatLiterals.f_0_0005) prefix
         = Some "0.0005")
  ∧ (∀ (Node : AstNode) (prefix : string) (i : Z),
       ValExp_format Node KindInt (VInt i) prefix = Some (FormatInt i)
       ∧ Z.of_int <$> NilZero.int_of_string (FormatInt i) = Some i)
  ∧ FormatInt 0 = "0" ∧ FormatInt 10 = "10" ∧ FormatInt 1000000 = "1000000".
Proof.
  split; [|split; [|split; [|split]]].
  - intros m e Hm digs.
    pose proof (shortest_ck_spec m e Hm) as Hspec.
    pose proof (shortest_digits m e Hm) as Hdigs. cbv zeta in Hspec, Hdigs. fold digs in Hdigs.
    destruct (shortest_ck m e) as [c k].
    destruct Hspec as (Hc & Hr & Hmin & Hmod). destruct Hdigs as (Hd & Hdp & Hnd).
    destruct (digits_spec c Hc) as (Hval & _ & Hall).
    rewrite Hnd in Hdp. rewrite Hd, Hnd. repeat split; try done. by apply digits_last.
  - intros Node prefix neg m e Hm digs exp sign.
    exists (FormatFloat_g (Finite neg m e)).
    pose proof (shortest_ck_spec m e Hm) as Hspec.
    pose proof (shortest_digits m e Hm) as Hdigs. cbv zeta in Hspec, Hdigs. fold digs in Hdigs.
    destruct (shortest_ck m e) as [c k].
    destruct Hspec as (Hc & Hr & Hmin & Hmod). destruct Hdigs as (Hd & Hdp & Hnd).
    pose proof (ndigits_pos c) as Hpos.
    split; [reflexivity|]. unfold FormatFloat_g, formatDigits_g. fold digs. fold exp.
    split; [|split].
    + intros Hexp.
      replace ((exp <? -4) || (6 <=? exp)) with true
        by (symmetry; apply orb_true_iff; rewrite Z.ltb_lt, Z.leb_le; lia).
      apply fmtE_shortest. lia.
    + intros Hexp Hint.
      replace ((exp <? -4) || (6 <=? exp)) with false
        by (symmetry; apply orb_false_iff; rewrite Z.ltb_ge, Z.leb_gt; lia).
      apply fmtF_integral; lia.
    + intros Hexp Hfrac. exists (c mod 10).
      assert (Hlast : last (d digs) = Some (c mod 10))
        by (rewrite Hd; by apply digits_last).
      split; [done|]. split; [done|].
      replace ((exp <? -4) || (6 <=? exp)) with false
        by (symmetry; apply orb_false_iff; rewrite Z.ltb_ge, Z.leb_gt; lia).
      by apply fmtF_fraction.
  - intros Node prefix. repeat split; vm_compute; reflexivity.
  - intros Node prefix i. split; [reflexivity|apply FormatInt_exact].
  - repeat split; reflexivity.
Qed.

Lemma float_and_integer_literals_witness :
  let digs := shortest 5657647031884186 (-49) in
  let '(c, k) := shortest_ck 5657647031884186 (-49) in
  d digs = digits c
  ∧ digits_value (d digs) = c
  ∧ Forall (fun x => 0 ≤ x < 10) (d digs)
  ∧ dp digs = nd digs + k
  ∧ last (d digs) = Some (c mod 10) ∧ c mod 10 ≠ 0
  ∧ rounds_to (bounds 5657647031884186 (-49)) c k = true
  ∧ (∀ c' k', 0 < c' < 10 ^ (nd digs - 1)
              → rounds_to (bounds 5657647031884186 (-49)) c' k' = false).
Proof.
  apply (proj1 float_and_integer_literals 5657647031884186 (-49)). lia.
Defined.
End Numbers.

(** ** Literals *)

(** The loops of [formatSweep] and [formatArray] write one line per
    element that formats. *)
Definition elementLines (vindent : string) (strs : list string) : string :=
  concat_strings (map (fun s => vindent +:+ s +:+ "," +:+ NEWLINE) strs).

Lemma formatLines_mapM (values : list Exp) (vindent : string) :
  formatLines Exp_format values vindent
  = (strs ← mapM (fun val => Exp_format val vindent) values;
     Some (elementLines vindent strs)).
Proof.
  induction values as [|val values IH]; [reflexivity|].
  cbn [formatLines foldr mapM]. fold (formatLines Exp_format values vindent).
  rewrite IH. destruct (Exp_format val vindent) as [s|]; [|reflexivity].
  simpl. destruct (mapM _ values) as [strs|]; [|reflexivity].
  simpl. unfold elementLines. cbn [map concat_strings foldr].
  by rewrite !append_assoc.
Qed.

(** C8.  A string value is written between two double quotes with its
    bytes unchanged, whatever they are; a value that already carries quote
    characters keeps them inside the added pair. *)
Theorem string_literal_quoted :
  (∀ (Node : AstNode) (s prefix : string),
      ValExp_format Node KindString (VString s) prefix = Some (quote +:+ s +:+ quote))
  ∧ (∀ (Node : AstNode) (prefix : string),
      ValExp_format Node KindString (VString "blah") prefix
      = Some (quote +:+ "blah" +:+ quote)
      ∧ ValExp_format Node KindString (VString (quote +:+ "blah" +:+ quote)) prefix
        = Some (quote +:+ quote +:+ "blah" +:+ quote +:+ quote)).
Proof. split; [reflexivity|]. intros; split; reflexivity. Qed.

(** ** Sweeps *)

(** The statements of [BindStm.format] before the value is written: the
    comments of the binding and of its expression, then [id = ], padded. *)
Definition BindStm_head (self : BindStm) (prefix : string) (idWidth : Z) : M unit :=
  printComments (BindStm_Node self) (prefix +:+ INDENT);;
  printComments (Exp_getNode (BindStm_Exp self)) (prefix +:+ INDENT);;
  idPad ← (if len (BindStm_Id self) <? idWidth
           then liftO (strings_Repeat " " (idWidth - len (BindStm_Id self)))
           else mret EmptyString);
  WriteString (prefix +:+ INDENT +:+ BindStm_Id self +:+ idPad +:+ " = ").

Lemma BindStm_format_head (self : BindStm) (prefix : string) (idWidth : Z) (p : printer) :
  BindStm_format self prefix idWidth p
  = (BindStm_head self prefix idWidth;;
     s ← liftO (match BindStm_sweepValue self with
                | Some Value => ValExp_formatSweep Exp_format Value (prefix +:+ INDENT)
                | None => Exp_format (BindStm_Exp self) (prefix +:+ INDENT)
                end);
     WriteString s;; WriteString ",";; WriteString NEWLINE) p.
Proof.
  unfold BindStm_format, BindStm_head.
  rewrite !run_assoc. apply run_bind_ext; intros [] q1.
  rewrite !run_assoc. apply run_bind_ext; intros [] q2.
  rewrite !run_assoc. apply run_bind_ext; intros idPad q3.
  rewrite !run_bind. destruct (WriteString _ q3) as [[[] q4]|]; [|reflexivity].
  destruct (BindStm_sweepValue self); reflexivity.
Qed.

(** C7.  A sweep binding with more than one alternative is written as
    [sweep(], one alternative per line one level deeper than the binding,
    each followed by a comma, and a closing parenthesis at the indent of
    the binding; with exactly one alternative the binding is written as if
    it were not a sweep, which for the array the grammar builds is the
    one-line form [[alt]]. *)
Theorem sweep_binding_format (self : BindStm) (prefix : string) (idWidth : Z)
    (Node : AstNode) (Kind : ExpKind) (alts : list Exp) (p : printer) :
  BindStm_Exp self = ValExp Node Kind (VExps alts) →
  BindStm_Sweep self = true →
  let indent := prefix +:+ INDENT in
  ((1 < length alts)%nat →
     BindStm_format self prefix idWidth p
     = (BindStm_head self prefix idWidth;;
        strs ← liftO (mapM (fun alt => Exp_format alt (indent +:+ INDENT)) alts);
        WriteString ("sweep(" +:+ NEWLINE +:+ elementLines (indent +:+ INDENT) strs
                       +:+ indent +:+ ")");;
        WriteString ",";; WriteString NEWLINE) p)
  ∧ (∀ alt, alts = [alt] →
       BindStm_format self prefix idWidth p
       = BindStm_format (mkBindStm (BindStm_Node self) (BindStm_Id self)
                           (BindStm_Exp self) false) prefix idWidth p
       ∧ (Kind = KindArray →
          BindStm_format self prefix idWidth p
          = (BindStm_head self prefix idWidth;;
             s ← liftO (Exp_format alt indent);
             WriteString ("[" +:+ s +:+ "]");;
             WriteString ",";; WriteString NEWLINE) p)).
Proof.
  intros HExp HSweep indent. split.
  - intros Hlen. rewrite BindStm_format_head.
    apply run_bind_ext; intros [] q.
    unfold BindStm_sweepValue. rewrite HExp, HSweep.
    rewrite bool_decide_eq_true_2 by exact Hlen. cbn [andb].
    unfold ValExp_formatSweep. rewrite formatLines_mapM.
    fold indent. rewrite !run_bind.
    destruct (mapM _ alts) as [strs|]; reflexivity.
  - intros alt ->. split.
    + rewrite !BindStm_format_head. unfold BindStm_head. cbn.
      unfold BindStm_sweepValue. cbn. rewrite HExp, HSweep. reflexivity.
    + intros ->. rewrite BindStm_format_head.
      apply run_bind_ext; intros [] q.
      unfold BindStm_sweepValue. rewrite HExp, HSweep. cbn.
      fold indent. rewrite !run_bind.
      destruct (Exp_format alt indent) as [s|]; reflexivity.
Qed.

(** ** Column widths *)

(** The parameters of a group of parameter lists, the greatest of a list
    of lengths, and the two shared widths in the words of the
    specification: the greatest length over the group, identifiers of 35
    or more bytes and help strings of 25 or more left out. *)
Definition Params_params (params : Params) : list Param :=
  match params with
  | Params_In ps => map Param_In (InParams_List ps)
  | Params_Out ps => map Param_Out (OutParams_List ps)
  end.

Definition group_params (paramsList : list Params) : list Param :=
  flat_map Params_params paramsList.

Definition maximum (l : list Z) : Z := foldr Z.max 0 l.

Definition modeWidthOf (ps : list Param) : Z :=
  maximum (map (fun p => len (Param_getMode p)) ps).
Definition typeWidthOf (ps : list Param) : Z :=
  maximum (map (fun p => len (Param_GetTname p) + 2 * Param_GetArrayDim p) ps).
Definition idWidthOf (ps : list Param) : Z :=
  maximum (map (fun p => len (Param_GetId p))
               (filter (fun p => len (Param_GetId p) < 35) ps)).
Definition helpWidthOf (ps : list Param) : Z :=
  maximum (map (fun p => len (Param_GetHelp p))
               (filter (fun p => len (Param_GetHelp p) < 25) ps)).

Lemma max_Zmax (a b : Z) : max a b = Z.max a b.
Proof. unfold max. destruct (Z.ltb_spec b a); lia. Qed.

Lemma maximum_cons (x : Z) (l : list Z) : maximum (x :: l) = Z.max x (maximum l).
Proof. reflexivity. Qed.

Lemma maximum_nonneg (l : list Z) : 0 ≤ maximum l.
Proof.
  induction l as [|x l IH]; [reflexivity|]. rewrite maximum_cons. lia.
Qed.

Lemma maximum_app (l1 l2 : list Z) : maximum (l1 ++ l2) = Z.max (maximum l1) (maximum l2).
Proof.
  induction l1 as [|x l1 IH].
  - change (maximum l2 = Z.max 0 (maximum l2)). pose proof (maximum_nonneg l2). lia.
  - rewrite <- app_comm_cons, !maximum_cons, IH. lia.
Qed.

Ltac tuple_eq :=
  repeat match goal with |- (_, _) = (_, _) => apply (f_equal2 pair) end.

Lemma getWidths_fold (ps : list Param) (mw tw iw hw : Z) :
  0 ≤ mw → 0 ≤ tw → 0 ≤ iw → 0 ≤ hw →
  fold_left getWidths_step ps (mw, tw, iw, hw)
  = (Z.max mw (modeWidthOf ps), Z.max tw (typeWidthOf ps),
     Z.max iw (idWidthOf ps), Z.max hw (helpWidthOf ps)).
Proof.
  unfold modeWidthOf, typeWidthOf, idWidthOf, helpWidthOf.
  revert mw tw iw hw. induction ps as [|p ps IH]; intros mw tw iw hw Hm Ht Hi Hh.
  - cbn [fold_left]. rewrite !filter_nil. cbn [map]. change (maximum []) with 0.
    tuple_eq; lia.
  - cbn [fold_left getWidths_step]. rewrite !max_Zmax.
    rewrite !filter_cons.
    destruct (Z.ltb_spec (len (Param_GetId p)) 35) as [Hi'|Hi'];
      destruct (Z.ltb_spec (len (Param_GetHelp p)) 25) as [Hh'|Hh'];
      rewrite ?max_Zmax, IH by lia;
      repeat (destruct (decide _); try lia);
      cbn [map]; rewrite ?maximum_cons; tuple_eq; lia.
Qed.

Lemma Params_getWidths_closed (params : Params) :
  Params_getWidths params
  = (modeWidthOf (Params_params params), typeWidthOf (Params_params params),
     idWidthOf (Params_params params), helpWidthOf (Params_params params)).
Proof.
  destruct params; cbn [Params_getWidths Params_params];
    unfold InParams_getWidths, OutParams_getWidths; rewrite getWidths_fold by lia;
    unfold modeWidthOf, typeWidthOf, idWidthOf, helpWidthOf;
    tuple_eq;
    match goal with |- Z.max 0 (maximum ?l) = _ =>
      pose proof (maximum_nonneg l); lia end.
Qed.

Lemma measureParamsWidths_fold (paramsList : list Params) (mw tw iw hw : Z) :
  0 ≤ mw → 0 ≤ tw → 0 ≤ iw → 0 ≤ hw →
  fold_left (fun w params =>
               let '(modeWidth, typeWidth, idWidth, helpWidth) := w in
               let '(mw, tw, iw, hw) := Params_getWidths params in
               (max modeWidth mw, max typeWidth tw, max idWidth iw, max helpWidth hw))
            paramsList (mw, tw, iw, hw)
  = (Z.max mw (modeWidthOf (group_params paramsList)),
     Z.max tw (typeWidthOf (group_params paramsList)),
     Z.max iw (idWidthOf (group_params paramsList)),
     Z.max hw (helpWidthOf (group_params paramsList))).
Proof.
  revert mw tw iw hw.
  induction paramsList as [|params paramsList IH]; intros mw tw iw hw Hm Ht Hi Hh.
  - cbn [fold_left group_params flat_map].
    unfold modeWidthOf, typeWidthOf, idWidthOf, helpWidthOf.
    rewrite !filter_nil. cbn [map]. change (maximum []) with 0. tuple_eq; lia.
  - cbn [fold_left]. rewrite Params_getWidths_closed, !max_Zmax.
    rewrite IH by lia.
    cbn [group_params flat_map]. fold (group_params paramsList).
    unfold modeWidthOf, typeWidthOf, idWidthOf, helpWidthOf.
    rewrite !filter_app, !map_app, !maximum_app.
    tuple_eq; lia.
Qed.

(** [measureParamsWidths] computes the four widths of the specification
    over the parameters of all the lists it is given. *)
Lemma measureParamsWidths_closed (paramsList : list Params) :
  measureParamsWidths paramsList
  = (modeWidthOf (group_params paramsList), typeWidthOf (group_params paramsList),
     idWidthOf (group_params paramsList), helpWidthOf (group_params paramsList)).
Proof.
  unfold measureParamsWidths. rewrite measureParamsWidths_fold by lia.
  unfold modeWidthOf, typeWidthOf, idWidthOf, helpWidthOf.
  tuple_eq;
    match goal with |- Z.max 0 (maximum ?l) = _ =>
      pose proof (maximum_nonneg l); lia end.
Qed.

Lemma maximum_le_app_l (l1 l2 : list Z) : maximum l1 ≤ maximum (l1 ++ l2).
Proof. rewrite maximum_app. lia. Qed.

(** The closing statements of [Stage.format]. *)
Definition Stage_tail (self : Stage) : M unit :=
  match Stage_Resources self with
  | Some resources => Resources_format resources
  | None => mret tt
  end;;
  match Stage_Retain self with
  | Some retain => RetainParams_format retain
  | None => mret tt
  end;;
  WriteString (")" +:+ NEWLINE).

(** C9.  The identifier and help widths shared by a group of parameter
    lists are the greatest identifier and help lengths over the group,
    identifiers of 35 or more bytes and help strings of 25 or more left
    out.  In a stage, when the identifier width of the primary parameters
    exceeds 30 or their help width exceeds 20, the split block is laid out
    with the identifier and help widths of the chunk parameters alone. *)
Theorem parameter_column_widths :
  (∀ paramsList : list Params,
      let '(_, _, idWidth, helpWidth) := measureParamsWidths paramsList in
      idWidth = idWidthOf (group_params paramsList)
      ∧ helpWidth = helpWidthOf (group_params paramsList))
  ∧ (∀ (self : Stage) (p : printer),
      let primary := group_params [Params_In (Stage_InParams self);
                                   Params_Out (Stage_OutParams self)] in
      let chunk := group_params [Params_In (ChunkIns self); Params_Out (ChunkOuts self)] in
      let all := primary ++ chunk in
      30 < idWidthOf primary ∨ 20 < helpWidthOf primary →
      let modeWidth := Z.max (modeWidthOf all) (len "src") in
      let typeWidth := typeWidthOf all in
      Stage_format self p
      = (printComments (Stage_Node self) EmptyString;;
         WriteString ("stage " +:+ Stage_Id self +:+ "(" +:+ NEWLINE);;
         InParams_format (Stage_InParams self) modeWidth typeWidth
           (idWidthOf all) (helpWidthOf all);;
         OutParams_format (Stage_OutParams self) modeWidth typeWidth
           (idWidthOf all) (helpWidthOf all);;
         SrcParam_format (Src self) modeWidth typeWidth (idWidthOf all);;
         when (Split self)
           (WriteString (") split (" +:+ NEWLINE);;
            InParams_format (ChunkIns self) modeWidth typeWidth
              (idWidthOf chunk) (helpWidthOf chunk);;
            OutParams_format (ChunkOuts self) modeWidth typeWidth
              (idWidthOf chunk) (helpWidthOf chunk));;
         Stage_tail self) p).
Proof.
  split.
  - intros paramsList. rewrite measureParamsWidths_closed. split; reflexivity.
  - intros self p primary chunk all Hwide modeWidth typeWidth.
    unfold Stage_format, Stage_chunkWidths.
    rewrite !measureParamsWidths_closed.
    replace (group_params [Params_In (Stage_InParams self); Params_Out (Stage_OutParams self);
                           Params_In (ChunkIns self); Params_Out (ChunkOuts self)])
      with all
      by (unfold all, primary, chunk, group_params; cbn [flat_map];
          rewrite ?app_nil_r, <- ?app_assoc; reflexivity).
    fold chunk. rewrite max_Zmax. fold modeWidth typeWidth.
    assert ((30 <? idWidthOf all) || (20 <? helpWidthOf all) = true) as ->.
    { apply orb_true_iff.
      assert (idWidthOf primary ≤ idWidthOf all ∧ helpWidthOf primary ≤ helpWidthOf all)
        as [Hi Hh].
      { unfold all, idWidthOf, helpWidthOf. rewrite !filter_app, !map_app.
        split; apply maximum_le_app_l. }
      destruct Hwide; [left|right]; apply Z.ltb_lt; lia. }
    reflexivity.
Qed.

(** ** The bulk export *)

Section LastWriter.
Context {A : Type} (key : A → string).

Definition fill (m : gmap string A) (l : list A) : gmap string A :=
  fold_left (fun m x => <[key x := x]> m) l m.

Lemma fill_app (m : gmap string A) (l1 l2 : list A) :
  fill m (l1 ++ l2) = fill (fill m l1) l2.
Proof. apply fold_left_app. Qed.

Lemma fill_absent (m : gmap string A) (l : list A) (id : string) :
  (∀ x, x ∈ l → key x ≠ id) → fill m l !! id = m !! id.
Proof.
  revert m. induction l as [|x l IH]; intros m Hl; [reflexivity|].
  cbn. fold (fill (<[key x:=x]> m) l). rewrite IH.
  - apply lookup_insert_ne, Hl. left.
  - intros y Hy. apply Hl. by right.
Qed.

Lemma fill_last (m : gmap string A) (l1 l2 : list A) (t : A) :
  (∀ x, x ∈ l2 → key x ≠ key t) →
  fill m (l1 ++ t :: l2) !! key t = Some t.
Proof.
  intros Hl2. rewrite fill_app. cbn. fold (fill (<[key t:=t]> (fill m l1)) l2).
  rewrite fill_absent by exact Hl2. apply lookup_insert_eq.
Qed.
End LastWriter.

Lemma JsonDump_of_fill (asts : list Ast) (jd : JsonDump) :
  let out := fold_left JsonDump_add asts jd in
  JsonDump_UserTypes out
  = fill UserType_Id (JsonDump_UserTypes jd) (flat_map UserTypes asts)
  ∧ JsonDump_Stages out
    = fill Stage_Id (JsonDump_Stages jd) (flat_map Stages asts)
  ∧ JsonDump_Pipelines out
    = fill Pipeline_Id (JsonDump_Pipelines jd) (flat_map Pipelines asts).
Proof.
  revert jd. induction asts as [|ast asts IH]; intros jd; [by repeat split|].
  cbn [fold_left flat_map]. destruct (IH (JsonDump_add jd ast)) as (-> & -> & ->).
  rewrite !fill_app. by repeat split.
Qed.

(** The declarations of a list of units in the order [JsonDumpAsts] visits
    them, split at a declaration [t] of the later of two units. *)
Lemma flat_map_split {A} (f : Ast → list A) (asts1 asts2 asts3 : list Ast)
    (a1 a2 : Ast) (us vs : list A) (t : A) :
  f a2 = us ++ t :: vs →
  flat_map f (asts1 ++ a1 :: asts2 ++ a2 :: asts3)
  = (flat_map f asts1 ++ f a1 ++ flat_map f asts2 ++ us) ++ t :: (vs ++ flat_map f asts3).
Proof.
  intros Hf. rewrite flat_map_app. cbn [flat_map]. rewrite flat_map_app. cbn [flat_map].
  rewrite Hf, <- !app_assoc. reflexivity.
Qed.

Lemma elem_of_tail_flat_map {A} (f : Ast → list A) (vs : list A) (asts3 : list Ast)
    (P : A → Prop) :
  (∀ x, x ∈ vs → P x) →
  (∀ a x, a ∈ asts3 → x ∈ f a → P x) →
  ∀ x, x ∈ vs ++ flat_map f asts3 → P x.
Proof.
  intros Hvs H3 x Hx. apply elem_of_app in Hx as [Hx|Hx]; [by apply Hvs|].
  apply list_elem_of_In, in_flat_map in Hx as (a & Ha & Hx).
  apply (H3 a x); by apply list_elem_of_In.
Qed.

(** C10.  When two units of the list declare a user type, a stage or a
    pipeline under one identifier, the exported table holds under that
    identifier the declaration of the later unit (its last one, if that
    unit repeats it, and provided no unit further on declares it again),
    and the text is the serialisation of that table: a repeated identifier
    is never reported. *)
Theorem JsonDumpAsts_last_writer_wins
    (asts1 asts2 asts3 : list Ast) (a1 a2 : Ast) :
  let asts := asts1 ++ a1 :: asts2 ++ a2 :: asts3 in
  (∀ (t1 t2 : UserType) (us vs : list UserType),
      t1 ∈ UserTypes a1 → UserTypes a2 = us ++ t2 :: vs →
      UserType_Id t1 = UserType_Id t2 →
      (∀ x, x ∈ vs → UserType_Id x ≠ UserType_Id t2) →
      (∀ a x, a ∈ asts3 → x ∈ UserTypes a → UserType_Id x ≠ UserType_Id t2) →
      JsonDump_UserTypes (JsonDump_of asts) !! UserType_Id t1 = Some t2)
  ∧ (∀ (s1 s2 : Stage) (us vs : list Stage),
      s1 ∈ Stages a1 → Stages a2 = us ++ s2 :: vs →
      Stage_Id s1 = Stage_Id s2 →
      (∀ x, x ∈ vs → Stage_Id x ≠ Stage_Id s2) →
      (∀ a x, a ∈ asts3 → x ∈ Stages a → Stage_Id x ≠ Stage_Id s2) →
      JsonDump_Stages (JsonDump_of asts) !! Stage_Id s1 = Some s2)
  ∧ (∀ (p1 p2 : Pipeline) (us vs : list Pipeline),
      p1 ∈ Pipelines a1 → Pipelines a2 = us ++ p2 :: vs →
      Pipeline_Id p1 = Pipeline_Id p2 →
      (∀ x, x ∈ vs → Pipeline_Id x ≠ Pipeline_Id p2) →
      (∀ a x, a ∈ asts3 → x ∈ Pipelines a → Pipeline_Id x ≠ Pipeline_Id p2) →
      JsonDump_Pipelines (JsonDump_of asts) !! Pipeline_Id p1 = Some p2)
  ∧ (∀ MarshalIndent jsonBytes,
      MarshalIndent (JsonDump_of asts) = inl jsonBytes →
      JsonDumpAsts MarshalIndent asts = jsonBytes).
Proof.
  intros asts.
  destruct (JsonDump_of_fill asts
              {| JsonDump_UserTypes := ∅; JsonDump_Stages := ∅; JsonDump_Pipelines := ∅ |})
    as (HU & HS & HP).
  cbn [JsonDump_UserTypes JsonDump_Stages JsonDump_Pipelines] in HU, HS, HP.
  fold (JsonDump_of asts) in HU, HS, HP.
  repeat split.
  - intros t1 t2 us vs _ Ha2 Hid Hvs H3. rewrite HU, Hid. unfold asts.
    rewrite (flat_map_split UserTypes _ _ _ _ _ us vs t2 Ha2).
    apply fill_last. by apply elem_of_tail_flat_map.
  - intros s1 s2 us vs _ Ha2 Hid Hvs H3. rewrite HS, Hid. unfold asts.
    rewrite (flat_map_split Stages _ _ _ _ _ us vs s2 Ha2).
    apply fill_last. by apply elem_of_tail_flat_map.
  - intros p1 p2 us vs _ Ha2 Hid Hvs H3. rewrite HP, Hid. unfold asts.
    rewrite (flat_map_split Pipelines _ _ _ _ _ us vs p2 Ha2).
    apply fill_last. by apply elem_of_tail_flat_map.
  - intros MarshalIndent jsonBytes HM. unfold JsonDumpAsts. by rewrite HM.
Qed.

(** ** Sorting *)

Lemma string_lt_false (a b : string) : string_lt a b = false ↔ String.le b a.
Proof.
  unfold string_lt, String.le, Stdlib.Strings.String.ltb, Stdlib.Strings.String.leb.
  rewrite (Stdlib.Strings.String.compare_antisym b a).
  destruct (Stdlib.Strings.String.compare a b); cbn; naive_solver.
Qed.

Section SortByKey.
Context {A : Type} (key : A → string).

Let less (a b : A) : bool := string_lt (key a) (key b).
Let ge (y z : A) : Prop := String.le (key z) (key y).

Lemma sort_insert_perm (x : A) (racc : list A) : sort_insert less x racc ≡ₚ x :: racc.
Proof.
  induction racc as [|y r IH]; [reflexivity|]. cbn.
  destruct (less x y); [|reflexivity]. rewrite IH. apply perm_swap.
Qed.

Lemma sort_insert_sorted (x : A) (racc : list A) :
  StronglySorted ge racc → StronglySorted ge (sort_insert less x racc).
Proof.
  induction 1 as [|y r Hr IH Hy]; cbn; [repeat constructor|].
  destruct (less x y) eqn:Hxy.
  - constructor; [exact IH|].
    rewrite sort_insert_perm. constructor; [|exact Hy].
    unfold ge. unfold less in Hxy.
    destruct (total String.le (key x) (key y)) as [H|H]; [exact H|].
    apply string_lt_false in H. unfold string_lt in *. congruence.
  - apply string_lt_false in Hxy.
    constructor; [by constructor|].
    constructor; [exact Hxy|].
    eapply Forall_impl; [exact Hy|]. intros z Hz. unfold ge in *. by etrans.
Qed.

Lemma sort_fold_perm (l racc : list A) :
  fold_left (fun racc x => sort_insert less x racc) l racc ≡ₚ racc ++ l.
Proof.
  revert racc. induction l as [|x l IH]; intros racc; cbn.
  - by rewrite app_nil_r.
  - rewrite IH, sort_insert_perm. cbn. apply Permutation_middle.
Qed.

Lemma sort_fold_sorted (l racc : list A) :
  StronglySorted ge racc →
  StronglySorted ge (fold_left (fun racc x => sort_insert less x racc) l racc).
Proof.
  revert racc. induction l as [|x l IH]; intros racc Hs; cbn; [exact Hs|].
  apply IH, sort_insert_sorted, Hs.
Qed.

Lemma sort_Slice_perm (l : list A) : sort_Slice less l ≡ₚ l.
Proof. unfold sort_Slice. by rewrite reverse_Permutation, sort_fold_perm. Qed.

Lemma sort_Slice_sorted (l : list A) :
  Sorted (fun a b => String.le (key a) (key b)) (sort_Slice less l).
Proof.
  unfold sort_Slice. apply (Sorted_reverse ge), StronglySorted_Sorted, sort_fold_sorted.
  constructor.
Qed.
End SortByKey.

(** ** Modifiers *)

(** The statements of [CallStm.format] up to the closing parenthesis of
    the argument bindings. *)
Definition CallStm_head (self : CallStm) (prefix : string) : M unit :=
  printComments (CallStm_Node self) prefix;;
  WriteString prefix;;
  WriteString "call ";;
  WriteString (CallStm_DecId self);;
  when (bool_decide (CallStm_Id self ≠ CallStm_DecId self))
    (WriteString " as ";; WriteString (CallStm_Id self));;
  WriteString ("(" +:+ NEWLINE);;
  BindStms_format (CallStm_Bindings self) prefix;;
  WriteString prefix.

(** The bare modifier keywords of a call, its modifiers in bound form, and
    the node given to the entries made for bare keywords. *)
Definition bareModifiers (mods : Modifiers) : list string :=
  (if Local mods then ["local"] else [])
  ++ (if Preflight mods then ["preflight"] else [])
  ++ (if Volatile mods then ["volatile"] else []).

Definition boundModifiers (mods : Modifiers) : list BindStm :=
  match Modifiers_Bindings mods with
  | Some b => BindStms_List b
  | None => []
  end.

Definition modifiersNode (self : CallStm) : AstNode :=
  match Modifiers_Bindings (CallStm_Modifiers self) with
  | Some b => BindStms_Node b
  | None => CallStm_Node self
  end.

Lemma CallStm_format_head (self : CallStm) (prefix : string) (p : printer) :
  CallStm_format self prefix p
  = (CallStm_head self prefix;;
     if hasModifiers (CallStm_Modifiers self) then
       WriteString (") using (" +:+ NEWLINE);;
       BindStms_format (canonicalModifiers self) prefix;;
       WriteString prefix;;
       WriteString (")" +:+ NEWLINE);;
       mret (CallStm_setModifiers self (canonicalModifiers self))
     else
       WriteString (")" +:+ NEWLINE);;
       mret self) p.
Proof.
  unfold CallStm_format, CallStm_head.
  repeat (rewrite !run_assoc; apply run_bind_ext; intros [] ?).
  rewrite !run_bind. destruct (WriteString prefix _) as [[[] ?]|]; reflexivity.
Qed.

Lemma hasModifiers_false (mods : Modifiers) :
  hasModifiers mods = false ↔ bareModifiers mods = [] ∧ boundModifiers mods = [].
Proof.
  unfold hasModifiers, bareModifiers, boundModifiers.
  destruct (Modifiers_Bindings mods) as [[node [|b l]]|];
    destruct (Local mods), (Preflight mods), (Volatile mods); cbn;
    (split; [try discriminate; by split | by intros [? ?]]).
Qed.

Lemma canonicalModifiers_unsorted (self : CallStm) :
  let mods := CallStm_Modifiers self in
  BindStms_List (canonicalModifiers self)
  ≡ₚ boundModifiers mods
     ++ map (boundTrue (modifiersNode self))
            (filter (fun id => hasId id (boundModifiers mods) = false) (bareModifiers mods)).
Proof.
  intros mods. unfold canonicalModifiers. cbn [BindStms_List].
  rewrite sort_Slice_perm. fold mods.
  unfold boundModifiers, modifiersNode, bareModifiers. fold mods.
  destruct (Modifiers_Bindings mods) as [[node bound]|]; cbn [BindStms_List BindStms_Node];
    unfold local, preflight, volatile;
    destruct (Local mods), (Preflight mods), (Volatile mods); cbn [andb app];
    rewrite ?filter_cons, ?filter_nil;
    repeat match goal with
           | |- context [hasId ?id ?l] => destruct (hasId id l) eqn:?
           end;
    cbn [andb negb];
    repeat (destruct (decide _); try congruence);
    cbn [map]; rewrite <- ?app_assoc, ?app_nil_r; cbn [app]; reflexivity.
Qed.

Lemma canonicalModifiers_node (self : CallStm) :
  canonicalModifiers self
  = mkBindStms (modifiersNode self) (BindStms_List (canonicalModifiers self)).
Proof.
  unfold canonicalModifiers, modifiersNode.
  destruct (Modifiers_Bindings (CallStm_Modifiers self)); reflexivity.
Qed.

Lemma bareModifiers_NoDup (mods : Modifiers) : NoDup (bareModifiers mods).
Proof.
  unfold bareModifiers.
  destruct (Local mods), (Preflight mods), (Volatile mods); cbn [app];
    apply (bool_decide_unpack _); vm_compute; exact I.
Qed.

Lemma filter_boundTrue (node : AstNode) (id : string) (ids : list string) :
  NoDup ids →
  filter (fun b => BindStm_Id b = id) (map (boundTrue node) ids)
  = if bool_decide (id ∈ ids) then [boundTrue node id] else [].
Proof.
  induction 1 as [|i ids Hi Hnd IH]; cbn [map]; [reflexivity|].
  rewrite filter_cons, IH. cbn [boundTrue BindStm_Id].
  destruct (decide (i = id)) as [->|Hne].
  - rewrite (bool_decide_eq_false_2 (id ∈ ids)) by exact Hi.
    rewrite bool_decide_eq_true_2 by left. reflexivity.
  - destruct (decide (id ∈ ids)) as [Hin|Hin].
    + rewrite !bool_decide_eq_true_2; [reflexivity|by right|exact Hin].
    + rewrite !bool_decide_eq_false_2; [reflexivity| |exact Hin].
      intros [->|?]%elem_of_cons; congruence.
Qed.

Lemma hasId_false (id : string) (l : list BindStm) :
  hasId id l = false → filter (fun b => BindStm_Id b = id) l = [].
Proof.
  unfold hasId. induction l as [|b l IH]; [reflexivity|]. cbn [existsb].
  intros [Hb Hl]%orb_false_iff. rewrite filter_cons, IH by exact Hl.
  apply bool_decide_eq_false in Hb. by destruct (decide _).
Qed.

(** C5.  The modifier list that a call is printed with holds the entries
    already in bound form (a [disabled] entry among them) and, for each
    bare keyword not already bound, one entry [keyword = true]; a keyword
    that is already bound keeps its bound entries and gets no other; the
    list is sorted by identifier in byte order.  The [using] clause is
    written exactly when the call has a bare modifier or a bound entry. *)
Theorem modifier_canonicalization (self : CallStm) (prefix : string) (p : printer) :
  let mods := CallStm_Modifiers self in
  let bound := boundModifiers mods in
  let added := map (boundTrue (modifiersNode self))
                   (filter (fun id => hasId id bound = false) (bareModifiers mods)) in
  let usingList := BindStms_List (canonicalModifiers self) in
  usingList ≡ₚ bound ++ added
  ∧ Sorted (fun a b => String.le (BindStm_Id a) (BindStm_Id b)) usingList
  ∧ (∀ b, b ∈ bound → b ∈ usingList)
  ∧ (∀ id, hasId id bound = true →
       filter (fun b => BindStm_Id b = id) usingList ≡ₚ filter (fun b => BindStm_Id b = id) bound)
  ∧ (∀ id, id ∈ bareModifiers mods → hasId id bound = false →
       filter (fun b => BindStm_Id b = id) usingList = [boundTrue (modifiersNode self) id])
  ∧ (bareModifiers mods = [] → bound = [] →
       CallStm_format self prefix p
       = (CallStm_head self prefix;;
          WriteString (")" +:+ NEWLINE);;
          mret self) p)
  ∧ (bareModifiers mods ≠ [] ∨ bound ≠ [] →
       CallStm_format self prefix p
       = (CallStm_head self prefix;;
          WriteString (") using (" +:+ NEWLINE);;
          BindStms_format (mkBindStms (modifiersNode self) usingList) prefix;;
          WriteString prefix;;
          WriteString (")" +:+ NEWLINE);;
          mret (CallStm_setModifiers self (mkBindStms (modifiersNode self) usingList))) p).
Proof.
  intros mods bound added usingList.
  pose proof (canonicalModifiers_unsorted self) as Hperm. cbn zeta in Hperm.
  fold mods bound added usingList in Hperm.
  assert (Hfilter : ∀ id, filter (fun b => BindStm_Id b = id) usingList
                          ≡ₚ filter (fun b => BindStm_Id b = id) bound
                             ++ filter (fun b => BindStm_Id b = id) added).
  { intros id. by rewrite Hperm, filter_app. }
  assert (Hadded : ∀ id, filter (fun b => BindStm_Id b = id) added
                         = if bool_decide (id ∈ filter (fun id => hasId id bound = false)
                                                       (bareModifiers mods))
                           then [boundTrue (modifiersNode self) id] else []).
  { intros id. apply filter_boundTrue, NoDup_filter, bareModifiers_NoDup. }
  split; [exact Hperm|]. split; [apply sort_Slice_sorted|].
  split; [intros b Hb; rewrite Hperm; apply elem_of_app; by left|].
  split; [|split; [|split]].
  - intros id Hid. rewrite Hfilter, Hadded.
    rewrite bool_decide_eq_false_2; [by rewrite app_nil_r|].
    intros [Hf _]%list_elem_of_filter. congruence.
  - intros id Hbare Hid. specialize (Hfilter id).
    rewrite Hadded, (hasId_false _ _ Hid) in Hfilter.
    rewrite bool_decide_eq_true_2 in Hfilter by (by apply list_elem_of_filter).
    by apply Permutation_singleton_r in Hfilter.
  - intros Hbare Hbound. rewrite CallStm_format_head. fold mods.
    assert (hasModifiers mods = false) as -> by (by apply hasModifiers_false).
    reflexivity.
  - intros Hsome. rewrite CallStm_format_head. fold mods.
    assert (hasModifiers mods = true) as ->.
    { apply not_false_iff_true. rewrite hasModifiers_false. intros [? ?].
      destruct Hsome; contradiction. }
    unfold usingList. rewrite <- canonicalModifiers_node. reflexivity.
Qed.

(** ** The order of the calls *)

(** The identifiers of a list of calls, in order.  [[i; j] `sublist_of` ids l]
    says that a call named [i] stands before a call named [j] in [l]. *)
Definition ids (l : list CallStm) : list string := CallStm_Id <$> l.

(** The calls follow the calls they refer to: each is ready when its turn
    comes. *)
Fixpoint ordered (l : list CallStm) : bool :=
  match l with
  | [] => true
  | c :: r => ready (c :: r) c && ordered r
  end.

Lemma hasCall_spec (id : string) (l : list CallStm) :
  hasCall id l = true ↔ id ∈ ids l.
Proof.
  unfold hasCall, ids. induction l as [|c l IH]; cbn.
  - split; [discriminate|]. by intros ?%elem_of_nil.
  - rewrite orb_true_iff, IH, bool_decide_eq_true, elem_of_cons. naive_solver.
Qed.

Lemma ready_spec (waiting : list CallStm) (c : CallStm) :
  ready waiting c = true ↔ ∀ dep, dep ∈ CallStm_deps c → dep ∉ ids waiting.
Proof.
  unfold ready. rewrite forallb_forall. split.
  - intros H dep Hdep Hin. apply list_elem_of_In, H in Hdep.
    apply negb_true_iff in Hdep. apply hasCall_spec in Hin. congruence.
  - intros H dep Hdep. apply negb_true_iff, not_true_iff_false.
    rewrite hasCall_spec. by apply H, list_elem_of_In.
Qed.

Lemma not_ready_spec (waiting : list CallStm) (c : CallStm) :
  ready waiting c = false → ∃ dep, dep ∈ CallStm_deps c ∧ dep ∈ ids waiting.
Proof.
  unfold ready. induction (CallStm_deps c) as [|dep deps IH]; cbn; [discriminate|].
  intros [H|H]%andb_false_iff.
  - exists dep. split; [left|]. apply hasCall_spec. by apply negb_false_iff.
  - destruct (IH H) as (dep' & ? & ?). exists dep'. split; [by right|done].
Qed.

Lemma ready_subseteq (w1 w2 : list CallStm) (c : CallStm) :
  ids w1 ⊆ ids w2 → ready w2 c = true → ready w1 c = true.
Proof. rewrite !ready_spec. intros Hsub H dep Hdep Hin. by apply (H dep), Hsub. Qed.

Lemma ids_Permutation (l1 l2 : list CallStm) : l1 ≡ₚ l2 → ids l1 ≡ₚ ids l2.
Proof. intros H. unfold ids. by rewrite H. Qed.

Lemma ready_Permutation (w1 w2 : list CallStm) (c : CallStm) :
  w1 ≡ₚ w2 → ready w1 c = ready w2 c.
Proof.
  intros H%ids_Permutation.
  destruct (ready w2 c) eqn:H2.
  - eapply ready_subseteq; [|exact H2]. intros x. by rewrite H.
  - destruct (ready w1 c) eqn:H1; [|reflexivity].
    rewrite <- H2. symmetry. eapply ready_subseteq; [|exact H1]. intros x. by rewrite H.
Qed.

(** *** [extract] *)

Lemma extract_Some {A} (P : A → bool) (l : list A) (c : A) (rest : list A) :
  extract P l = Some (c, rest) →
  ∃ pre post, l = pre ++ c :: post ∧ rest = pre ++ post
              ∧ P c = true ∧ Forall (fun x => P x = false) pre.
Proof.
  revert rest. induction l as [|x l IH]; intros rest; cbn; [discriminate|].
  destruct (P x) eqn:HPx.
  - intros [= -> ->]. exists [], rest. by repeat split.
  - destruct (extract P l) as [[y r']|]; cbn; [|discriminate].
    intros [= -> <-]. destruct (IH r' eq_refl) as (pre & post & -> & -> & ? & ?).
    exists (x :: pre), post. repeat split; [done|]. by constructor.
Qed.

Lemma extract_None {A} (P : A → bool) (l : list A) :
  extract P l = None → Forall (fun x => P x = false) l.
Proof.
  induction l as [|x l IH]; cbn; [constructor|].
  destruct (P x) eqn:HPx; [discriminate|].
  destruct (extract P l) as [[y r']|]; cbn; [discriminate|].
  intros _. constructor; auto.
Qed.

(** *** The result is a rearrangement *)

Lemma topo_Permutation (fuel : nat) (waiting : list CallStm) :
  topo fuel waiting ≡ₚ waiting.
Proof.
  revert waiting. induction fuel as [|fuel IH]; intros waiting; cbn; [reflexivity|].
  destruct (extract (ready waiting) waiting) as [[c rest]|] eqn:He; [|reflexivity].
  apply extract_Some in He as (pre & post & -> & -> & _ & _).
  rewrite IH. apply Permutation_middle.
Qed.

(** *** Dependencies come first *)

Lemma ordered_tail (l1 l2 : list CallStm) : ordered (l1 ++ l2) = true → ordered l2 = true.
Proof.
  induction l1 as [|x l1 IH]; cbn; [done|]. intros [_ H]%andb_true_iff. auto.
Qed.

Lemma ordered_remove (o1 o2 : list CallStm) (c : CallStm) :
  ordered (o1 ++ c :: o2) = true → ordered (o1 ++ o2) = true.
Proof.
  induction o1 as [|x o1 IH]; cbn.
  - by intros [_ H]%andb_true_iff.
  - intros [Hx H]%andb_true_iff. apply andb_true_iff. split; [|auto].
    eapply ready_subseteq; [|exact Hx].
    change (ids ((x :: o1) ++ o2) ⊆ ids ((x :: o1) ++ c :: o2)).
    unfold ids. rewrite !fmap_app, fmap_cons. set_solver.
Qed.

(** The calls can be put in an order in which each follows the calls it
    refers to. *)
Definition acyclic (calls : list CallStm) : Prop :=
  ∃ order, order ≡ₚ calls ∧ ordered order = true.

Lemma acyclic_remove (pre post : list CallStm) (c : CallStm) :
  acyclic (pre ++ c :: post) → acyclic (pre ++ post).
Proof.
  intros (order & Hperm & Hord).
  assert (c ∈ order) as (o1 & o2 & ->)%list_elem_of_split.
  { rewrite Hperm. set_solver. }
  exists (o1 ++ o2). split; [|by eapply ordered_remove].
  rewrite <- !Permutation_middle in Hperm. by apply Permutation_cons_inv in Hperm.
Qed.

Lemma acyclic_ready (waiting : list CallStm) :
  acyclic waiting → waiting ≠ [] → ∃ c, c ∈ waiting ∧ ready waiting c = true.
Proof.
  intros (order & Hperm & Hord) Hne. destruct order as [|c r].
  - apply Permutation_nil in Hperm. congruence.
  - exists c. split; [rewrite <- Hperm; left|].
    cbn in Hord. apply andb_true_iff in Hord as [Hc _].
    by rewrite <- (ready_Permutation _ _ c Hperm).
Qed.

Lemma topo_ordered (fuel : nat) (waiting : list CallStm) :
  (length waiting ≤ fuel)%nat → acyclic waiting → ordered (topo fuel waiting) = true.
Proof.
  revert waiting. induction fuel as [|fuel IH]; intros waiting Hlen Hac.
  - destruct waiting; [reflexivity|cbn in Hlen; lia].
  - cbn. destruct (extract (ready waiting) waiting) as [[c rest]|] eqn:He.
    + apply extract_Some in He as (pre & post & -> & -> & Hc & _).
      cbn. apply andb_true_iff. split.
      * rewrite <- Hc. apply ready_Permutation.
        rewrite topo_Permutation. apply Permutation_middle.
      * apply IH; [|by eapply acyclic_remove].
        rewrite length_app in *. cbn in Hlen. lia.
    + apply extract_None in He. destruct waiting as [|x w]; [reflexivity|].
      destruct (acyclic_ready (x :: w) Hac) as (c & Hin & Hc); [done|].
      rewrite Forall_forall in He. rewrite (He c Hin) in Hc. discriminate.
Qed.

Lemma singleton_sublist (i : string) (l : list string) : [i] `sublist_of` l ↔ i ∈ l.
Proof.
  rewrite sublist_cons_l. split.
  - intros (k1 & k2 & -> & _). set_solver.
  - intros (k1 & k2 & ->)%list_elem_of_split. exists k1, k2. split; [done|].
    apply sublist_nil_l.
Qed.

Lemma pair_sublist_cons (i j a : string) (l : list string) :
  [i; j] `sublist_of` a :: l ↔ (i = a ∧ j ∈ l) ∨ [i; j] `sublist_of` l.
Proof.
  rewrite sublist_cons_r. split.
  - intros [H|(l' & [= -> <-] & H)]; [by right|]. left. split; [done|].
    by apply singleton_sublist.
  - intros [[-> H]|H]; [right|by left]. eexists. split; [done|].
    by apply singleton_sublist.
Qed.

Lemma pair_sublist_elem (i j : string) (l : list string) :
  [i; j] `sublist_of` l → i ∈ l ∧ j ∈ l.
Proof. intros H%sublist_subseteq. split; apply H; set_solver. Qed.

Lemma ordered_before (out : list CallStm) (a b : CallStm) :
  ordered out = true → a ∈ out → b ∈ out →
  CallStm_Id a ∈ CallStm_deps b →
  [CallStm_Id a; CallStm_Id b] `sublist_of` ids out.
Proof.
  intros Hord Ha Hb Hdep.
  apply list_elem_of_split in Hb as (l1 & l2 & ->).
  apply ordered_tail in Hord. cbn in Hord. apply andb_true_iff in Hord as [Hready _].
  rewrite ready_spec in Hready. specialize (Hready _ Hdep).
  apply elem_of_app in Ha as [Ha|Ha].
  - unfold ids. rewrite fmap_app, fmap_cons.
    apply (sublist_app [_] _ [_] _).
    + apply singleton_sublist. by apply list_elem_of_fmap_2.
    + apply sublist_skip, sublist_nil_l.
  - exfalso. apply Hready. by apply list_elem_of_fmap_2.
Qed.

(** *** A call is overtaken only while it waits for another *)

Lemma filter_sublist_mono (P : string → Prop) `{!∀ x, Decision (P x)}
    (l1 l2 : list string) :
  l1 `sublist_of` l2 → filter P l1 `sublist_of` filter P l2.
Proof.
  induction 1 as [|x l1 l2 _ IH|x l1 l2 _ IH]; rewrite ?filter_cons.
  - constructor.
  - destruct (decide (P x)); [by constructor|done].
  - destruct (decide (P x)); [by constructor|done].
Qed.

Lemma filter_all (P : string → Prop) `{!∀ x, Decision (P x)} (l : list string) :
  (∀ x, x ∈ l → P x) → filter P l = l.
Proof.
  induction l as [|x l IH]; intros Hall; [done|].
  rewrite filter_cons, decide_True by (apply Hall; left).
  rewrite IH; [done|]. intros y Hy. apply Hall. by right.
Qed.

Lemma ids_app (l1 l2 : list CallStm) : ids (l1 ++ l2) = ids l1 ++ ids l2.
Proof. apply fmap_app. Qed.

Lemma ids_remove (pre post : list CallStm) (c : CallStm) :
  NoDup (ids (pre ++ c :: post)) →
  ids (pre ++ post) = filter (fun i => i ≠ CallStm_Id c) (ids (pre ++ c :: post)).
Proof.
  rewrite !ids_app. change (ids (c :: post)) with (CallStm_Id c :: ids post).
  intros (_ & Hpre & [Hpost _]%NoDup_cons)%NoDup_app.
  rewrite filter_app, filter_cons, decide_False by (intros H; by apply H).
  rewrite !filter_all; [done| |].
  - intros i Hi ->. contradiction.
  - intros i Hi ->. apply (Hpre _ Hi). left.
Qed.

Lemma NoDup_ids_remove (pre post : list CallStm) (c : CallStm) :
  NoDup (ids (pre ++ c :: post)) → NoDup (ids (pre ++ post)).
Proof.
  intros H. rewrite (ids_remove _ _ _ H). by apply NoDup_filter.
Qed.

Lemma topo_stable (fuel : nat) (waiting : list CallStm) :
  (length waiting ≤ fuel)%nat → acyclic waiting → NoDup (ids waiting) →
  ∀ x c, x ∈ waiting →
    [CallStm_Id x; CallStm_Id c] `sublist_of` ids waiting →
    [CallStm_Id c; CallStm_Id x] `sublist_of` ids (topo fuel waiting) →
    ∃ dep, dep ∈ CallStm_deps x
           ∧ (dep = CallStm_Id c
              ∨ [CallStm_Id c; dep] `sublist_of` ids (topo fuel waiting)).
Proof.
  revert waiting. induction fuel as [|fuel IH]; intros waiting Hlen Hac Hnd x c Hx Hin Hout.
  { destruct waiting; [by apply elem_of_nil in Hx|cbn in Hlen; lia]. }
  cbn in Hout |- *.
  destruct (extract (ready waiting) waiting) as [[c0 rest]|] eqn:He.
  - apply extract_Some in He as (pre & post & -> & -> & Hc0 & Hpre).
    set (out' := topo fuel (pre ++ post)) in *.
    change (ids (c0 :: out')) with (CallStm_Id c0 :: ids out') in *.
    assert (Hperm : ids out' ≡ₚ ids (pre ++ post))
      by apply ids_Permutation, topo_Permutation.
    pose proof (ids_remove _ _ _ Hnd) as Hrem.
    apply pair_sublist_cons in Hout as [[Hc Hxout]|Hout].
    + (* [c] is the call emitted now: [x] stood before it, so [x] waits *)
      assert (x ∈ pre) as Hxpre.
      { rewrite Hperm, Hrem in Hxout.
        apply list_elem_of_filter in Hxout as [Hne _].
        rewrite ids_app in Hin, Hnd.
        change (ids (c0 :: post)) with (CallStm_Id c0 :: ids post) in Hin, Hnd.
        apply NoDup_app in Hnd as (_ & Hndpre & [Hndpost _]%NoDup_cons).
        apply elem_of_app in Hx as [Hx|[->|Hx]%elem_of_cons]; [done|done|].
        exfalso. apply sublist_app_r in Hin as (l1 & l2 & Heq & H1 & H2).
        destruct l1 as [|i1 [|i2 l1]].
        * cbn in Heq. subst l2. apply pair_sublist_cons in H2 as [[? ?]|H2]; [done|].
          apply pair_sublist_elem in H2 as [_ H2]. rewrite Hc in H2. contradiction.
        * injection Heq as <- <-. apply singleton_sublist in H1.
          apply (Hndpre _ H1). right. by apply list_elem_of_fmap_2.
        * injection Heq as <- <- Hnil. symmetry in Hnil.
          apply app_eq_nil in Hnil as [-> ->]. apply pair_sublist_elem in H1 as [_ H1].
          rewrite Hc in H1. apply (Hndpre _ H1). left. }
      rewrite Forall_forall in Hpre.
      destruct (not_ready_spec _ _ (Hpre x Hxpre)) as (dep & Hdep & Hdepin).
      exists dep. split; [done|].
      assert (dep ∈ CallStm_Id c0 :: ids out') as [->|Hd]%elem_of_cons.
      { rewrite Hperm. rewrite ids_app in Hdepin |- *.
        change (ids (c0 :: post)) with (CallStm_Id c0 :: ids post) in Hdepin.
        set_solver. }
      * by left.
      * right. apply pair_sublist_cons. by left.
    + (* both are emitted later: the order among the calls left is kept *)
      pose proof (pair_sublist_elem _ _ _ Hout) as [Hcout Hxout].
      rewrite Hperm, Hrem in Hcout, Hxout.
      apply list_elem_of_filter in Hcout as [Hcne _].
      apply list_elem_of_filter in Hxout as [Hxne _].
      destruct (IH (pre ++ post)) with (x := x) (c := c) as (dep & Hdep & Hd).
      * rewrite length_app in *. cbn in Hlen. lia.
      * by eapply acyclic_remove.
      * by eapply NoDup_ids_remove.
      * apply elem_of_app in Hx as [Hx|[->|Hx]%elem_of_cons]; set_solver.
      * rewrite Hrem.
        apply (filter_sublist_mono (fun i => i ≠ CallStm_Id c0)) in Hin.
        by rewrite !filter_cons, !decide_True, filter_nil in Hin.
      * exact Hout.
      * exists dep. split; [done|]. destruct Hd as [->|Hd]; [by left|].
        right. apply pair_sublist_cons. by right.
  - apply extract_None in He. destruct waiting as [|y w]; [by apply elem_of_nil in Hx|].
    destruct (acyclic_ready (y :: w) Hac) as (c1 & Hin1 & Hc1); [done|].
    rewrite Forall_forall in He. rewrite (He c1 Hin1) in Hc1. discriminate.
Qed.

(** *** What formatting leaves in the AST *)

Lemma run_bind_Some {A B} (m : M A) (f : A → M B) (p : printer) (r : B * printer) :
  (m ≫= f) p = Some r → ∃ x p1, m p = Some (x, p1) ∧ f x p1 = Some r.
Proof. rewrite run_bind. destruct (m p) as [[x p1]|]; [eauto|discriminate]. Qed.

Ltac run_inv H :=
  repeat (apply run_bind_Some in H as (? & ? & ? & H)).

(** The call statement and the pipeline as their formatters store them. *)
Definition CallStm_formatted (self : CallStm) : CallStm :=
  if hasModifiers (CallStm_Modifiers self)
  then CallStm_setModifiers self (canonicalModifiers self)
  else self.

Definition Pipeline_formatted (self : Pipeline) : Pipeline :=
  Pipeline_setCalls self (CallStm_formatted <$> topoSort (Calls self)).

Definition Callable_formatted (callable : Callable) : Callable :=
  match callable with
  | Callable_Stage s => Callable_Stage s
  | Callable_Pipeline p => Callable_Pipeline (Pipeline_formatted p)
  end.

Lemma CallStm_format_formatted (self self' : CallStm) (prefix : string) (p p' : printer) :
  CallStm_format self prefix p = Some (self', p') → self' = CallStm_formatted self.
Proof.
  rewrite CallStm_format_head. intros H. unfold CallStm_formatted.
  apply run_bind_Some in H as ([] & p1 & _ & H).
  destruct (hasModifiers (CallStm_Modifiers self)); run_inv H; by injection H as <- _.
Qed.

Lemma forM_formatted {A B} (f : A → M B) (g : A → B) (l : list A) (ys : list B)
    (p p' : printer) :
  (∀ x q y q', f x q = Some (y, q') → y = g x) →
  forM l f p = Some (ys, p') → ys = g <$> l.
Proof.
  intros Hf. revert ys p. induction l as [|x l IH]; intros ys p H; cbn in H.
  - by injection H as <- _.
  - apply run_bind_Some in H as (y & p1 & Hy & H).
    apply run_bind_Some in H as (ys' & p2 & Hys & H).
    injection H as <- <-. rewrite fmap_cons. f_equal; [by eapply Hf|by eapply IH].
Qed.

Lemma Pipeline_format_formatted (self self' : Pipeline) (p p' : printer) :
  Pipeline_format self p = Some (self', p') → self' = Pipeline_formatted self.
Proof.
  unfold Pipeline_format, Pipeline_formatted.
  destruct (measureParamsWidths _) as [[[modeWidth typeWidth] idWidth] helpWidth].
  intros H. run_inv H. injection H as <- _. f_equal.
  match goal with
  | Hf : forM _ _ _ = Some _ |- _ =>
      apply (forM_formatted _ CallStm_formatted) in Hf; [exact Hf|]
  end.
  intros c q c' q' Hc. apply run_bind_Some in Hc as ([] & q1 & _ & Hc).
  by eapply CallStm_format_formatted.
Qed.

Lemma CallStm_formatted_Id (self : CallStm) :
  CallStm_Id (CallStm_formatted self) = CallStm_Id self.
Proof. unfold CallStm_formatted. by destruct (hasModifiers _). Qed.

Lemma ids_formatted (l : list CallStm) : ids (CallStm_formatted <$> l) = ids l.
Proof.
  unfold ids. rewrite <- list_fmap_compose. apply list_fmap_ext.
  intros _ c _. apply CallStm_formatted_Id.
Qed.

(** *** The pipeline of [TestFormatTopoSort] *)

Module TestFormatTopoSort.
Definition file : SourceFile :=
  {| FileName := "test"; FullPath := "/test"; IncludedFrom := [] |}.

Definition node (line : Z) : AstNode :=
  {| Loc := {| Line := line; File := Some file |}; Comments := []; scopeComments := [] |}.

Definition self_ref (line : Z) (id : string) : Exp :=
  Ref (mkRefExp (node line) KindSelf id EmptyString).

Definition call_ref (line : Z) (id out : string) : Exp :=
  Ref (mkRefExp (node line) KindCall id out).

Definition bind (line : Z) (id : string) (e : Exp) : BindStm :=
  mkBindStm (node line) id e false.

Definition call (line : Z) (id decId : string) (bindings : list BindStm) : CallStm :=
  mkCallStm (node line) (mkModifiers false false false None) id decId
            (mkBindStms (node line) bindings).

Definition STAGE_3 : CallStm :=
  call 7 "STAGE_3" "STAGE_3"
       [bind 8 "in1" (self_ref 8 "input"); bind 9 "in2" (call_ref 9 "STAGE_2" "output")].
Definition STAGE_1 : CallStm :=
  call 12 "STAGE_1" "STAGE" [bind 13 "input" (self_ref 13 "input")].
Definition STAGE_2 : CallStm :=
  call 16 "STAGE_2" "STAGE" [bind 17 "input" (self_ref 17 "input")].
Definition STAGE_4 : CallStm :=
  call 20 "STAGE_4" "STAGE" [bind 21 "input" (call_ref 21 "STAGE_2" "output")].
Definition STAGE_5 : CallStm :=
  call 24 "STAGE_5" "STAGE_3"
       [bind 25 "in1" (self_ref 25 "input"); bind 26 "in2" (call_ref 26 "STAGE_2" "output")].

Definition calls : list CallStm := [STAGE_3; STAGE_1; STAGE_2; STAGE_4; STAGE_5].

Definition pipeline : Pipeline :=
  {| Pipeline_Node := node 1; Pipeline_Id := "PIPELINE";
     Pipeline_InParams := mkInParams [mkInParam (node 2) "int" 0 "input" EmptyString];
     Pipeline_OutParams :=
       mkOutParams [mkOutParam (node 3) "int" 0 "output1" EmptyString EmptyString;
                    mkOutParam (node 4) "int" 0 "output2" EmptyString EmptyString];
     Calls := calls;
     Ret := mkReturnStm (node 29)
              (mkBindStms (node 29)
                 [bind 30 "output1" (call_ref 30 "STAGE_3" "output");
                  bind 31 "output2" (call_ref 31 "STAGE_5" "output")]);
     Pipeline_Retain := None |}.

Definition ast : Ast :=
  {| UserTypes := []; Stages := []; Pipelines := [pipeline];
     Callables := [Callable_Pipeline pipeline]; Call := None; Includes := [];
     Ast_comments := []; Files := {[ "/test" := file ]} |}.

Definition expected : string :=
  concat_strings (map (fun line => line +:+ NEWLINE)
    [ "pipeline PIPELINE(";
      "    in  int input,";
      "    out int output1,";
      "    out int output2,";
      ")";
      "{";
      "    call STAGE as STAGE_1(";
      "        input = self.input,";
      "    )";
      "";
      "    call STAGE as STAGE_2(";
      "        input = self.input,";
      "    )";
      "";
      "    call STAGE_3(";
      "        in1 = self.input,";
      "        in2 = STAGE_2.output,";
      "    )";
      "";
      "    call STAGE as STAGE_4(";
      "        input = STAGE_2.output,";
      "    )";
      "";
      "    call STAGE_3 as STAGE_5(";
      "        in1 = self.input,";
      "        in2 = STAGE_2.output,";
      "    )";
      "";
      "    return (";
      "        output1 = STAGE_3.output,";
      "        output2 = STAGE_5.output,";
      "    )";
      "}" ]).

(** The model prints what the test expects. *)
Example TestFormatTopoSort_expected :
  Formatted_text <$> Ast_format (fun l => l) (fun l => l) ast true = Some expected.
Proof. vm_compute. reflexivity. Qed.

Lemma calls_acyclic : acyclic calls.
Proof.
  exists [STAGE_1; STAGE_2; STAGE_3; STAGE_4; STAGE_5]. split; [|reflexivity].
  unfold calls. etrans; [apply perm_skip, perm_swap|apply perm_swap].
Qed.

Lemma calls_NoDup : NoDup (ids calls).
Proof. apply (bool_decide_unpack _). vm_compute. exact I. Qed.
End TestFormatTopoSort.

(** C3, as amended.  When the calls of a pipeline have distinct names and
    can be ordered at all, the formatter emits every call after the calls
    its bindings refer to, and a call is emitted ahead of a call declared
    before it only when the earlier one refers to it or to a call emitted
    still later; the calls of the formatted pipeline stand in that order.
    The five calls of [TestFormatTopoSort] come out as STAGE_1 ...
    STAGE_5. *)
Theorem topoSort_stable (calls : list CallStm) :
  NoDup (ids calls) →
  acyclic calls →
  let out := topoSort calls in
  out ≡ₚ calls
  ∧ (∀ a b, a ∈ calls → b ∈ calls → CallStm_Id a ∈ CallStm_deps b →
       [CallStm_Id a; CallStm_Id b] `sublist_of` ids out)
  ∧ (∀ x c, x ∈ calls →
       [CallStm_Id x; CallStm_Id c] `sublist_of` ids calls →
       [CallStm_Id c; CallStm_Id x] `sublist_of` ids out →
       ∃ dep, dep ∈ CallStm_deps x
              ∧ (dep = CallStm_Id c ∨ [CallStm_Id c; dep] `sublist_of` ids out))
  ∧ (∀ (self self' : Pipeline) (p p' : printer),
       Calls self = calls → Pipeline_format self p = Some (self', p') →
       ids (Calls self') = ids out)
  ∧ ids (topoSort TestFormatTopoSort.calls)
    = ["STAGE_1"; "STAGE_2"; "STAGE_3"; "STAGE_4"; "STAGE_5"].
Proof.
  intros Hnd Hac out.
  assert (Hperm : out ≡ₚ calls) by apply topo_Permutation.
  split; [exact Hperm|]. split; [|split; [|split]].
  - intros a b Ha Hb Hdep. apply ordered_before; [|by rewrite Hperm..|done].
    by apply topo_ordered.
  - intros x c Hx Hin Hout. by apply (topo_stable (length calls) calls).
  - intros self self' p p' <- H. apply Pipeline_format_formatted in H as ->.
    apply ids_formatted.
  - reflexivity.
Qed.

Lemma topoSort_stable_witness :
  let calls := TestFormatTopoSort.calls in
  let out := topoSort calls in
  out ≡ₚ calls
  ∧ (∀ a b, a ∈ calls → b ∈ calls → CallStm_Id a ∈ CallStm_deps b →
       [CallStm_Id a; CallStm_Id b] `sublist_of` ids out)
  ∧ (∀ x c, x ∈ calls →
       [CallStm_Id x; CallStm_Id c] `sublist_of` ids calls →
       [CallStm_Id c; CallStm_Id x] `sublist_of` ids out →
       ∃ dep, dep ∈ CallStm_deps x
              ∧ (dep = CallStm_Id c ∨ [CallStm_Id c; dep] `sublist_of` ids out))
  ∧ (∀ (self self' : Pipeline) (p p' : printer),
       Calls self = calls → Pipeline_format self p = Some (self', p') →
       ids (Calls self') = ids out)
  ∧ ids (topoSort TestFormatTopoSort.calls)
    = ["STAGE_1"; "STAGE_2"; "STAGE_3"; "STAGE_4"; "STAGE_5"].
Proof.
  exact (topoSort_stable TestFormatTopoSort.calls
           TestFormatTopoSort.calls_NoDup TestFormatTopoSort.calls_acyclic).
Defined.

(** C3 as stated does not hold: in the pipeline of [TestFormatTopoSort],
    STAGE_3 is declared before STAGE_1 and neither refers to the other,
    yet STAGE_1 is emitted first. *)
Lemma independent_calls_reordered :
  ¬ (∀ a b, a ∈ TestFormatTopoSort.calls → b ∈ TestFormatTopoSort.calls →
       CallStm_Id a ∉ CallStm_deps b → CallStm_Id b ∉ CallStm_deps a →
       [CallStm_Id a; CallStm_Id b] `sublist_of` ids TestFormatTopoSort.calls →
       [CallStm_Id a; CallStm_Id b] `sublist_of` ids (topoSort TestFormatTopoSort.calls)).
Proof.
  intros H.
  specialize (H TestFormatTopoSort.STAGE_3 TestFormatTopoSort.STAGE_1).
  assert (Hout : [ "STAGE_3"; "STAGE_1" ]
                 `sublist_of` ["STAGE_1"; "STAGE_2"; "STAGE_3"; "STAGE_4"; "STAGE_5"]).
  { apply H.
    - left.
    - right; left.
    - vm_compute. intros Hin. repeat (apply elem_of_cons in Hin as [?|Hin]; [discriminate|]).
      by apply elem_of_nil in Hin.
    - vm_compute. intros Hin. repeat (apply elem_of_cons in Hin as [?|Hin]; [discriminate|]).
      by apply elem_of_nil in Hin.
    - vm_compute. apply sublist_skip, sublist_skip, sublist_nil_l. }
  repeat (apply pair_sublist_cons in Hout as [[? Hin]|Hout];
          [first [discriminate
                 | repeat (apply elem_of_cons in Hin as [?|Hin]; [discriminate|]);
                   by apply elem_of_nil in Hin]|]).
  by apply sublist_nil_r in Hout.
Qed.

(** ** What formatting changes in the AST *)

Lemma Callables_format_formatted (l l' : list Callable) (i : nat) (p p' : printer) :
  Callables_format_from i l p = Some (l', p') → l' = Callable_formatted <$> l.
Proof.
  revert i l' p. induction l as [|callable l IH]; intros i l' p H; cbn in H.
  - by injection H as <- _.
  - apply run_bind_Some in H as ([] & p1 & _ & H).
    apply run_bind_Some in H as (c & p2 & Hc & H).
    apply run_bind_Some in H as (cs & p3 & Hcs & H).
    injection H as <- <-. rewrite fmap_cons. f_equal; [|by eapply IH].
    destruct callable as [s|pl]; cbn in Hc.
    + apply run_bind_Some in Hc as ([] & q & _ & Hc). by injection Hc as <- _.
    + apply run_bind_Some in Hc as (pl' & q & Hpl & Hc). injection Hc as <- _.
      cbn. f_equal. by eapply Pipeline_format_formatted.
Qed.

Lemma Ast_format_formatted (oFiles oComments : MapOrder) (self : Ast)
    (writeIncludes : bool) (r : Formatted) :
  Ast_format oFiles oComments self writeIncludes = Some r →
  Formatted_Callables r = Callable_formatted <$> Callables self
  ∧ Formatted_Call r = CallStm_formatted <$> Call self.
Proof.
  unfold Ast_format. intros H.
  destruct (collectComments (Ast_comments self)) as [table|]; [|discriminate].
  cbn in H. destruct (Ast_format_body _ _ _ _) as [[r' p']|] eqn:Hbody; [|discriminate].
  injection H as <-. unfold Ast_format_body in Hbody.
  apply run_bind_Some in Hbody as ([] & p1 & _ & Hbody).
  apply run_bind_Some in Hbody as ([] & p2 & _ & Hbody).
  apply run_bind_Some in Hbody as ([] & p3 & _ & Hbody).
  apply run_bind_Some in Hbody as ([] & p4 & _ & Hbody).
  apply run_bind_Some in Hbody as (callables & p5 & Hcallables & Hbody).
  apply run_bind_Some in Hbody as (call & p6 & Hcall & Hbody).
  apply run_bind_Some in Hbody as ([] & p7 & _ & Hbody).
  apply run_bind_Some in Hbody as (text & p8 & _ & Hbody).
  injection Hbody as <- _. cbn [Formatted_Callables Formatted_Call]. split.
  - by eapply Callables_format_formatted.
  - destruct (Call self) as [c|].
    + apply run_bind_Some in Hcall as ([] & q1 & _ & Hcall).
      apply run_bind_Some in Hcall as (c' & q2 & Hc & Hcall).
      injection Hcall as <- _. cbn. f_equal. by eapply CallStm_format_formatted.
    + by injection Hcall as <- _.
Qed.

(** A unit whose only statement is [call local FOO()] on one line. *)
Module BareModifier.
Definition file : SourceFile :=
  {| FileName := "test"; FullPath := "/test"; IncludedFrom := [] |}.

Definition node : AstNode :=
  {| Loc := {| Line := 1; File := Some file |}; Comments := []; scopeComments := [] |}.

Definition call : CallStm :=
  {| CallStm_Node := node;
     CallStm_Modifiers := {| Local := true; Preflight := false; Volatile := false;
                             Modifiers_Bindings := None |};
     CallStm_Id := "FOO"; CallStm_DecId := "FOO";
     CallStm_Bindings := mkBindStms node [] |}.

Definition ast : Ast :=
  {| UserTypes := []; Stages := []; Pipelines := []; Callables := [];
     Call := Some call; Includes := []; Ast_comments := [];
     Files := {[ "/test" := file ]} |}.

Definition text : string :=
  concat_strings (map (fun line => line +:+ NEWLINE)
    [ "call FOO("; ") using ("; "    local = true,"; ")" ]).

Definition formatted : Formatted :=
  {| Formatted_Callables := [];
     Formatted_Call :=
       Some (mkCallStm node
               (mkModifiers true false false
                  (Some (mkBindStms node
                           [mkBindStm node "local" (ValExp node KindBool (VBool true)) false])))
               "FOO" "FOO" (mkBindStms node []));
     Formatted_text := text |}.

Example format_formatted :
  Ast_format (fun l => l) (fun l => l) ast true = Some formatted.
Proof. vm_compute. reflexivity. Qed.
End BareModifier.

(** C4 as stated does not hold: formatting [call local FOO()] gives the
    call statement a table of bound modifiers that it did not have. *)
Lemma format_writes_modifiers :
  ¬ (∀ r, Ast_format (fun l => l) (fun l => l) BareModifier.ast true = Some r →
          Formatted_Callables r = Callables BareModifier.ast
          ∧ Formatted_Call r = Call BareModifier.ast).
Proof.
  intros H.
  destruct (Ast_format (fun l => l) (fun l => l) BareModifier.ast true) as [r|] eqn:Hr;
    [|by vm_compute in Hr].
  destruct (H r eq_refl) as [_ Hcall].
  apply Ast_format_formatted in Hr as [_ Hr]. rewrite Hr in Hcall.
  vm_compute in Hcall. discriminate Hcall.
Qed.

(** C4, as amended.  Formatting writes to the AST in two places only.  It
    replaces the bound-modifier table of every call statement that has a
    bare modifier or a bound entry by the canonical table (created if
    absent, bare modifiers appended in bound form, sorted by identifier),
    leaving every other field of the call statement as it was and a call
    without modifiers untouched; and it puts the calls of every pipeline in
    the emitted order, leaving the other fields of the pipeline as they
    were.  Stages are not written to. *)
Theorem format_writes_only_modifiers_and_call_order
    (oFiles oComments : MapOrder) (self : Ast) (writeIncludes : bool) (r : Formatted) :
  Ast_format oFiles oComments self writeIncludes = Some r →
  (Formatted_Callables r = Callable_formatted <$> Callables self
   ∧ Formatted_Call r = CallStm_formatted <$> Call self)
  ∧ (∀ s, Callable_formatted (Callable_Stage s) = Callable_Stage s)
  ∧ (∀ pl, Callable_formatted (Callable_Pipeline pl)
           = Callable_Pipeline
               (Pipeline_setCalls pl (CallStm_formatted <$> topoSort (Calls pl)))
           ∧ topoSort (Calls pl) ≡ₚ Calls pl)
  ∧ (∀ c, CallStm_Node (CallStm_formatted c) = CallStm_Node c
          ∧ CallStm_Id (CallStm_formatted c) = CallStm_Id c
          ∧ CallStm_DecId (CallStm_formatted c) = CallStm_DecId c
          ∧ CallStm_Bindings (CallStm_formatted c) = CallStm_Bindings c
          ∧ Local (CallStm_Modifiers (CallStm_formatted c)) = Local (CallStm_Modifiers c)
          ∧ Preflight (CallStm_Modifiers (CallStm_formatted c))
            = Preflight (CallStm_Modifiers c)
          ∧ Volatile (CallStm_Modifiers (CallStm_formatted c))
            = Volatile (CallStm_Modifiers c)
          ∧ Modifiers_Bindings (CallStm_Modifiers (CallStm_formatted c))
            = if hasModifiers (CallStm_Modifiers c)
              then Some (canonicalModifiers c)
              else Modifiers_Bindings (CallStm_Modifiers c))
  ∧ (∀ c, hasModifiers (CallStm_Modifiers c) = false → CallStm_formatted c = c).
Proof.
  intros H. split; [by eapply Ast_format_formatted|].
  split; [reflexivity|]. split; [|split].
  - intros pl. split; [reflexivity|apply topo_Permutation].
  - intros c. unfold CallStm_formatted.
    destruct (hasModifiers (CallStm_Modifiers c)); by repeat split.
  - intros c Hc. unfold CallStm_formatted. by rewrite Hc.
Qed.

Lemma format_writes_only_modifiers_and_call_order_witness :
  Formatted_Callables BareModifier.formatted
  = Callable_formatted <$> Callables BareModifier.ast
  ∧ Formatted_Call BareModifier.formatted
    = CallStm_formatted <$> Call BareModifier.ast.
Proof.
  apply (format_writes_only_modifiers_and_call_order
           (fun l => l) (fun l => l) BareModifier.ast true BareModifier.formatted).
  vm_compute. reflexivity.
Defined.

(** ** Determinism *)

(** A unit of two files, each with a comment that no node claims: the top
    file [a.mro] includes [b.mro] and calls FOO. *)
Module TrailingComments.
Definition a : SourceFile :=
  {| FileName := "a.mro"; FullPath := "/a.mro"; IncludedFrom := [] |}.

Definition b : SourceFile :=
  {| FileName := "b.mro"; FullPath := "/b.mro";
     IncludedFrom := [ {| Line := 1; File := Some a |} ] |}.

Definition node (line : Z) : AstNode :=
  {| Loc := {| Line := line; File := Some a |}; Comments := []; scopeComments := [] |}.

Definition ast : Ast :=
  {| UserTypes := []; Stages := []; Pipelines := []; Callables := [];
     Call := Some (mkCallStm (node 3) (mkModifiers false false false None)
                     "FOO" "FOO" (mkBindStms (node 3) []));
     Includes := [ mkInclude (node 1) "b.mro" ];
     Ast_comments :=
       [ mkCommentBlock {| Line := 5; File := Some a |} "# end of a";
         mkCommentBlock {| Line := 2; File := Some b |} "# end of b" ];
     Files := {[ "/a.mro" := a; "/b.mro" := b ]} |}.

Definition text_ab : string :=
  concat_strings (map (fun line => line +:+ NEWLINE)
    [ "@include " +:+ quote +:+ "b.mro" +:+ quote; "";
      "call FOO("; ")"; "# end of a"; "# end of b" ]).

Definition text_ba : string :=
  concat_strings (map (fun line => line +:+ NEWLINE)
    [ "@include " +:+ quote +:+ "b.mro" +:+ quote; "";
      "call FOO("; ")"; "# end of b"; "# end of a" ]).
End TrailingComments.

Lemma valid_order_id : valid_order (fun l => l).
Proof. intros l. reflexivity. Qed.

Lemma valid_order_reverse : valid_order reverse.
Proof. intros l. apply reverse_Permutation. Qed.


(** ** Instances *)

Module Instances.
Definition file : SourceFile :=
  {| FileName := "test"; FullPath := "/test"; IncludedFrom := [] |}.

Definition node (line : Z) : AstNode :=
  {| Loc := {| Line := line; File := Some file |}; Comments := []; scopeComments := [] |}.

Definition start : printer :=
  {| buf := EmptyString; comments := ∅; lastComment := {| Line := 0; File := Some file |} |}.

Definition text_of {A} (r : option (A * printer)) : option string :=
  (fun xp => buf (snd xp)) <$> r.

Definition lines (l : list string) : string :=
  concat_strings (map (fun line => line +:+ NEWLINE) l).

Definition str (line : Z) (s : string) : Exp := ValExp (node line) KindString (VString s).

(** [value = sweep("four", "feir")] in [TestFormatCommentedSrc]. *)
Definition sweep_value : BindStm :=
  mkBindStm (node 120) "value"
    (ValExp (node 120) KindArray (VExps [str 121 "four"; str 122 "feir"])) true.

(** The call of MAP_EXAMPLE in [TestFormatCommentedSrc], with [local]
    written as a bare keyword. *)
Definition map_example : CallStm :=
  {| CallStm_Node := node 128;
     CallStm_Modifiers :=
       {| Local := true; Preflight := false; Volatile := false;
          Modifiers_Bindings :=
            Some (mkBindStms (node 136)
                    [ mkBindStm (node 138) "volatile"
                        (ValExp (node 138) KindBool (VBool false)) false;
                      mkBindStm (node 137) "disabled"
                        (Ref (mkRefExp (node 137) KindCall "ADD_KEY3" "disable_example"))
                        false ]) |};
     CallStm_Id := "MAP_EXAMPLE"; CallStm_DecId := "MAP_EXAMPLE";
     CallStm_Bindings := mkBindStms (node 128) [] |}.

(** A split stage whose primary parameters have an identifier of 32
    bytes. *)
Definition wide : Stage :=
  {| Stage_Node := node 1; Stage_Id := "WIDE";
     Stage_InParams :=
       mkInParams [mkInParam (node 2) "float" 1 "values_with_a_very_long_name_32b" EmptyString];
     Stage_OutParams := mkOutParams [mkOutParam (node 3) "float" 0 "sum" EmptyString EmptyString];
     Src := mkSrcParam (node 4) "comp" "bin/sum_squares" [];
     ChunkIns := mkInParams [mkInParam (node 6) "float" 0 "value" EmptyString];
     ChunkOuts := mkOutParams [mkOutParam (node 7) "float" 0 "square" "the square" EmptyString];
     Split := true; Stage_Resources := None; Stage_Retain := None |}.

(** Two units that both declare the file type [json]. *)
Definition json (line : Z) : UserType := mkUserType (node line) "json".

Definition unit (line : Z) : Ast :=
  {| UserTypes := [json line]; Stages := []; Pipelines := []; Callables := [];
     Call := None; Includes := []; Ast_comments := []; Files := ∅ |}.
End Instances.

Lemma sweep_binding_format_witness :
  Instances.text_of (BindStm_format Instances.sweep_value INDENT 8 Instances.start)
  = Some (Instances.lines
            [ "        value    = sweep(";
              "            " +:+ quote +:+ "four" +:+ quote +:+ ",";
              "            " +:+ quote +:+ "feir" +:+ quote +:+ ",";
              "        )," ]).
Proof.
  rewrite (proj1 (sweep_binding_format Instances.sweep_value INDENT 8 _ _ _
                    Instances.start eq_refl eq_refl));
    [vm_compute; reflexivity | vm_compute; lia].
Defined.

Lemma modifier_canonicalization_witness :
  filter (fun b => BindStm_Id b = "local")
         (BindStms_List (canonicalModifiers Instances.map_example))
  = [boundTrue (Instances.node 136) "local"].
Proof.
  apply (proj1 (proj2 (proj2 (proj2 (proj2
           (modifier_canonicalization Instances.map_example INDENT Instances.start)))))).
  - vm_compute. left.
  - vm_compute. reflexivity.
Defined.

Lemma parameter_column_widths_witness :
  Instances.text_of (Stage_format Instances.wide Instances.start)
  = Some (Instances.lines
            [ "stage WIDE(";
              "    in  float[] values_with_a_very_long_name_32b,";
              "    out float   sum,";
              "    src comp    " +:+ quote +:+ "bin/sum_squares" +:+ quote +:+ ",";
              ") split (";
              "    in  float   value,";
              "    out float   square  " +:+ quote +:+ "the square" +:+ quote +:+ ",";
              ")" ]).
Proof.
  rewrite (proj2 parameter_column_widths Instances.wide Instances.start);
    [vm_compute; reflexivity | left; vm_compute; reflexivity].
Defined.

Lemma JsonDumpAsts_last_writer_wins_witness :
  JsonDump_UserTypes (JsonDump_of [Instances.unit 1; Instances.unit 2]) !! "json"
  = Some (Instances.json 2).
Proof.
  apply (proj1 (JsonDumpAsts_last_writer_wins [] [] [] (Instances.unit 1) (Instances.unit 2))
           (Instances.json 1) (Instances.json 2) [] []).
  - left.
  - reflexivity.
  - reflexivity.
  - intros x Hx. by apply elem_of_nil in Hx.
  - intros a x Ha. by apply elem_of_nil in Ha.
Defined.

(** ** The split stage of [TestFormatCommentedSrc] *)

Module TestFormatCommentedSrc.
Definition file : SourceFile :=
  {| FileName := "test"; FullPath := "/test"; IncludedFrom := [] |}.

Definition node (line : Z) (comments : list string) : AstNode :=
  {| Loc := {| Line := line; File := Some file |}; Comments := comments;
     scopeComments := [] |}.

Definition SUM_SQUARES : Stage :=
  {| Stage_Node := node 54 []; Stage_Id := "SUM_SQUARES";
     Stage_InParams := mkInParams [mkInParam (node 55 []) "float" 1 "values" EmptyString];
     Stage_OutParams :=
       mkOutParams [mkOutParam (node 56 []) "float" 0 "sum" EmptyString EmptyString];
     Src := mkSrcParam (node 57 []) "comp" "bin/sum_squares" ["mode_arg"];
     ChunkIns := mkInParams [mkInParam (node 59 []) "float" 0 "value" EmptyString];
     ChunkOuts :=
       mkOutParams [mkOutParam (node 60 []) "float" 0 "square" EmptyString EmptyString];
     Split := true;
     Stage_Resources :=
       Some {| Resources_Node := node 61 [];
               ThreadNode := None;
               MemNode := Some (node 63 ["# For some reason this uses lots of memory."]);
               SpecialNode := None;
               VolatileNode := Some (node 65 ["# This doesn't generate files anyway."]);
               Threads := 0; MemGB := 4; Special := EmptyString; StrictVolatile := true |};
     Stage_Retain := None |}.

Definition expected : string :=
  concat_strings (map (fun line => line +:+ NEWLINE)
    [ "stage SUM_SQUARES(";
      "    in  float[] values,";
      "    out float   sum,";
      "    src comp    " +:+ quote +:+ "bin/sum_squares mode_arg" +:+ quote +:+ ",";
      ") split (";
      "    in  float   value,";
      "    out float   square,";
      ") using (";
      "    # For some reason this uses lots of memory.";
      "    mem_gb   = 4,";
      "    # This doesn't generate files anyway.";
      "    volatile = strict,";
      ")" ]).

(** The model prints the stage as the test has it. *)
Example SUM_SQUARES_expected :
  (fun r => buf (snd r))
    <$> Stage_format SUM_SQUARES
          {| buf := EmptyString; comments := ∅;
             lastComment := {| Line := 0; File := Some file |} |}
  = Some expected.
Proof. vm_compute. reflexivity. Qed.
End TestFormatCommentedSrc.

(** ** A stage that cannot be formatted *)

(** The unit that the grammar builds for the source
<<
stage SUM(
    in  int  x,
    out int  sum,
    src comp "bin/sum",
)
>>
    Its widest type name, [int], is shorter than the language tag
    [comp]. *)
Module NarrowStage.
Definition file : SourceFile :=
  {| FileName := "test"; FullPath := "/test"; IncludedFrom := [] |}.

Definition node (line : Z) : AstNode :=
  {| Loc := {| Line := line; File := Some file |}; Comments := []; scopeComments := [] |}.

Definition stage : Stage :=
  {| Stage_Node := node 1; Stage_Id := "SUM";
     Stage_InParams := mkInParams [mkInParam (node 2) "int" 0 "x" EmptyString];
     Stage_OutParams := mkOutParams [mkOutParam (node 3) "int" 0 "sum" EmptyString EmptyString];
     Src := mkSrcParam (node 4) "comp" "bin/sum" [];
     ChunkIns := mkInParams []; ChunkOuts := mkOutParams []; Split := false;
     Stage_Resources := None; Stage_Retain := None |}.

Definition ast : Ast :=
  {| UserTypes := []; Stages := [stage]; Pipelines := [];
     Callables := [Callable_Stage stage]; Call := None; Includes := [];
     Ast_comments := []; Files := {[ "/test" := file ]} |}.
End NarrowStage.

Lemma run_bind_None {A B} (m : M A) (f : A → M B) (p : printer) :
  (∀ x q, f x q = None) → (m ≫= f) p = None.
Proof. intros Hf. rewrite run_bind. destruct (m p) as [[x q]|]; auto. Qed.

(** [SrcParam.format] pads the language tag to the type column with
    [strings.Repeat], whose count is negative when every type name of the
    stage is shorter than the tag. *)
Lemma SrcParam_format_panics (self : SrcParam) (modeWidth typeWidth idWidth : Z)
    (p : printer) :
  typeWidth < len (Lang self) →
  SrcParam_format self modeWidth typeWidth idWidth p = None.
Proof.
  intros Hlt. unfold SrcParam_format. apply run_bind_None. intros [] q.
  unfold strings_Repeat.
  replace (typeWidth - len (Lang self) <? 0) with true by (symmetry; apply Z.ltb_lt; lia).
  reflexivity.
Qed.

(** C1 fails on the code: formatting the stage above panics, whatever the
    state of the printer and whatever the order of the map iterations, so
    the source has no formatted text at all. *)
Theorem narrow_stage_format_panics :
  (∀ p, Stage_format NarrowStage.stage p = None)
  ∧ (∀ oFiles oComments writeIncludes,
       Ast_format oFiles oComments NarrowStage.ast writeIncludes = None).
Proof.
  assert (Hstage : ∀ p, Stage_format NarrowStage.stage p = None).
  { intros p. unfold Stage_format.
    apply run_bind_None. intros [] q0.
    match goal with
    | |- context [measureParamsWidths ?l] =>
        let w := eval vm_compute in (measureParamsWidths l) in
        change (measureParamsWidths l) with w
    end.
    cbv iota beta zeta.
    apply run_bind_None. intros [] q1.
    apply run_bind_None. intros [] q2.
    apply run_bind_None. intros [] q3.
    rewrite run_bind, SrcParam_format_panics; [reflexivity|].
    vm_compute. reflexivity. }
  split; [exact Hstage|].
  intros oFiles oComments writeIncludes. unfold Ast_format.
  change (collectComments (Ast_comments NarrowStage.ast)) with (Some (∅ : gmap string (list commentBlock))).
  cbn [mbind option_bind]. 
  match goal with |- fst <$> ?x = None => assert (x = None) as ->; [|reflexivity] end.
  unfold Ast_format_body.
  apply run_bind_None. intros [] q0.
  apply run_bind_None. intros [] q1.
  apply run_bind_None. intros [] q2.
  apply run_bind_None. intros [] q3.
  rewrite run_bind.
  change (Callables_format (Callables NarrowStage.ast) q3)
    with ((when (bool_decide (0%nat ≠ 0%nat)) (WriteString NEWLINE)
           ≫= fun _ => Callable_format (Callable_Stage NarrowStage.stage)
           ≫= fun c => Callables_format_from 1 [] ≫= fun cs => mret (c :: cs)) q3).
  rewrite run_bind_None; [reflexivity|]. intros [] q4.
  rewrite run_bind. cbn [Callable_format]. rewrite run_bind, Hstage. reflexivity.
Qed.

(** * Further properties of the formatter

    Properties read off the code of the formatter itself: how map
    literals, comments, paddings and the bulk export behave on their edge
    cases, what the formatters leave of the printer, and when they
    panic. *)

(** ** Map literals *)

Lemma sort_Strings_perm (l : list string) : sort_Strings l ≡ₚ l.
Proof. apply (sort_Slice_perm (fun s => s)). Qed.

Lemma sort_Strings_sorted (l : list string) : Sorted String.le (sort_Strings l).
Proof. apply (sort_Slice_sorted (fun s => s)). Qed.

Lemma sort_Strings_Permutation (l1 l2 : list string) :
  l1 ≡ₚ l2 → sort_Strings l1 = sort_Strings l2.
Proof.
  intros H. apply (Sorted_unique String.le); try apply sort_Strings_sorted.
  by rewrite !sort_Strings_perm.
Qed.

Lemma assoc_elem {V} (key : string) (l : list (string * V)) (v : V) :
  assoc key l = Some v → (key, v) ∈ l.
Proof.
  unfold assoc. induction l as [|[k w] l IH]; cbn; [discriminate|].
  case_bool_decide as Hk; cbn in *.
  - intros [= <-]. subst. left.
  - intros H. right. by apply IH.
Qed.

Lemma assoc_NoDup {V} (key : string) (l : list (string * V)) (v : V) :
  NoDup (map fst l) → (key, v) ∈ l → assoc key l = Some v.
Proof.
  unfold assoc. induction l as [|[k w] l IH]; cbn; intros Hnd Hin.
  - by apply elem_of_nil in Hin.
  - apply NoDup_cons in Hnd as [Hk Hnd].
    apply elem_of_cons in Hin as [[= <- <-]|Hin].
    + by rewrite bool_decide_eq_true_2.
    + case_bool_decide as Hkey; cbn in *.
      * subst k. destruct Hk. apply list_elem_of_fmap. by exists (key, v).
      * by apply IH.
Qed.

Lemma assoc_None {V} (key : string) (l : list (string * V)) :
  key ∉ map fst l → assoc key l = None.
Proof.
  intros H. destruct (assoc key l) as [v|] eqn:E; [|done].
  destruct H. apply assoc_elem in E. apply list_elem_of_fmap. by exists (key, v).
Qed.

Lemma assoc_Permutation {V} (key : string) (l1 l2 : list (string * V)) :
  NoDup (map fst l1) → l1 ≡ₚ l2 → assoc key l1 = assoc key l2.
Proof.
  intros Hnd Hp.
  assert (Hnd2 : NoDup (map fst l2)) by by rewrite <- Hp.
  destruct (assoc key l1) as [v|] eqn:E.
  - apply assoc_elem in E. rewrite Hp in E. symmetry. by apply assoc_NoDup.
  - symmetry. apply assoc_None. intros Hin.
    apply list_elem_of_fmap in Hin as ([k v] & -> & Hin). rewrite <- Hp in Hin.
    apply (assoc_NoDup _ _ _ Hnd) in Hin. cbn in *. congruence.
Qed.

Lemma formatMap_body_ext (f1 f2 : list (string * option string)) (vindent : string)
    (keys : list string) :
  (∀ key, assoc key f1 = assoc key f2) →
  foldr (fun key rest =>
           s ← mjoin (assoc key f1);
           t ← rest;
           Some (vindent +:+ quote +:+ key +:+ quote +:+ ": " +:+ s
                   +:+ "," +:+ NEWLINE +:+ t))
        (Some EmptyString) keys
  = foldr (fun key rest =>
             s ← mjoin (assoc key f2);
             t ← rest;
             Some (vindent +:+ quote +:+ key +:+ quote +:+ ": " +:+ s
                     +:+ "," +:+ NEWLINE +:+ t))
          (Some EmptyString) keys.
Proof.
  intros H. induction keys as [|key keys IH]; [reflexivity|].
  cbn [foldr]. by rewrite IH, H.
Qed.

Lemma assoc_map {V W} (g : V → W) (key : string) (l : list (string * V)) :
  assoc key (map (fun kv => (kv.1, g kv.2)) l) = g <$> assoc key l.
Proof.
  unfold assoc. induction l as [|[k v] l IH]; [reflexivity|]. cbn.
  case_bool_decide; [reflexivity|exact IH].
Qed.

(** One line per entry, as the loop of [formatMap] writes them. *)
Definition entryLines (vindent : string) (entries : list (string * string)) : string :=
  concat_strings
    (map (fun ks => vindent +:+ quote +:+ ks.1 +:+ quote +:+ ": " +:+ ks.2
                      +:+ "," +:+ NEWLINE) entries).

Lemma formatMap_body_mapM (m : list (string * Exp)) (vindent : string)
    (keys : list string) :
  foldr (fun key rest =>
           s ← mjoin (assoc key (map (fun kv => (kv.1, Exp_format kv.2 vindent)) m));
           t ← rest;
           Some (vindent +:+ quote +:+ key +:+ quote +:+ ": " +:+ s
                   +:+ "," +:+ NEWLINE +:+ t))
        (Some EmptyString) keys
  = (entries ← mapM (fun key => e ← assoc key m;
                                s ← Exp_format e vindent;
                                Some (key, s)) keys;
     Some (entryLines vindent entries)).
Proof.
  induction keys as [|key keys IH]; [reflexivity|].
  cbn [foldr mapM]. rewrite IH, (assoc_map (fun e => Exp_format e vindent)).
  destruct (assoc key m) as [e|]; [|reflexivity]. cbn.
  destruct (Exp_format e vindent) as [s|]; [|reflexivity]. cbn.
  destruct (mapM _ keys) as [entries|]; [|reflexivity]. cbn.
  unfold entryLines. cbn [map concat_strings foldr fst snd].
  by rewrite !append_assoc.
Qed.

(** X1.  [formatMap] writes the entries of a map one per line in the byte
    order of their keys, whatever order the runtime hands them out in: two
    listings of one map give the same text.  A map without entries, and
    the empty [map[string]interface{}] that the grammar builds for [{}],
    are written as [{}]. *)
Theorem formatMap_order_independent (m1 m2 : list (string * Exp)) (prefix : string) :
  NoDup (map fst m1) → m1 ≡ₚ m2 →
  let keys := sort_Strings (map fst m1) in
  let vindent := prefix +:+ INDENT in
  ValExp_formatMap Exp_format (VMapExp m1) prefix
  = ValExp_formatMap Exp_format (VMapExp m2) prefix
  ∧ Sorted String.le keys
  ∧ keys ≡ₚ map fst m1
  ∧ (m1 ≠ [] →
     ValExp_formatMap Exp_format (VMapExp m1) prefix
     = (entries ← mapM (fun key => e ← assoc key m1;
                                   s ← Exp_format e vindent;
                                   Some (key, s)) keys;
        Some ("{" +:+ NEWLINE +:+ entryLines vindent entries +:+ prefix +:+ "}")))
  ∧ ValExp_formatMap Exp_format (VMapExp []) prefix = Some "{}"
  ∧ ValExp_formatMap Exp_format VMapIface prefix = Some "{}".
Proof.
  intros Hnd Hp keys vindent.
  split; [|split; [apply sort_Strings_sorted|split; [apply sort_Strings_perm|]]].
  - destruct m1 as [|kv1 m1], m2 as [|kv2 m2]; try reflexivity.
    + by apply Permutation_nil_cons in Hp.
    + symmetry in Hp. by apply Permutation_nil_cons in Hp.
    + unfold ValExp_formatMap.
      set (l1 := kv1 :: m1) in *. set (l2 := kv2 :: m2) in *.
      rewrite (sort_Strings_Permutation (map fst l1) (map fst l2)) by by rewrite Hp.
      rewrite (formatMap_body_ext
                 (map (fun kv => (kv.1, Exp_format kv.2 vindent)) l1)
                 (map (fun kv => (kv.1, Exp_format kv.2 vindent)) l2)); [reflexivity|].
      intros key. apply assoc_Permutation.
      * rewrite map_map. cbn. exact Hnd.
      * by rewrite Hp.
  - split; [|split; reflexivity].
    intros Hne. destruct m1 as [|kv1 m1]; [done|].
    unfold ValExp_formatMap. rewrite formatMap_body_mapM.
    fold vindent. fold keys.
    destruct (mapM _ keys) as [entries|]; reflexivity.
Qed.

(** ** Expressions of the grammar *)

(** The expressions that the grammar's actions build: the kind of a value
    expression names the dynamic type of its value, arrays hold such
    expressions and so do maps; [{}] holds the empty
    [map[string]interface{}]; a reference is a call or a [self]
    reference. *)
Fixpoint grammar_exp (e : Exp) : bool :=
  match e with
  | Ref r => bool_decide (RefExp_Kind r = KindCall) || bool_decide (RefExp_Kind r = KindSelf)
  | ValExp _ Kind Value =>
      match Kind, Value with
      | KindArray, VExps l => forallb grammar_exp l
      | KindMap, VMapExp m => forallb (fun kv => grammar_exp (snd kv)) m
      | KindMap, VMapIface => true
      | KindFloat, VFloat _ => true
      | KindInt, VInt _ => true
      | KindString, VString _ => true
      | KindBool, VBool _ => true
      | KindNull, VNil => true
      | _, _ => false
      end
  end.

Section Exp_nested_ind.
Variable P : Exp → Prop.
Hypothesis HRef : ∀ r, P (Ref r).
Hypothesis HArray : ∀ n k l, Forall P l → P (ValExp n k (VExps l)).
Hypothesis HMap : ∀ n k m, Forall (fun kv => P (snd kv)) m → P (ValExp n k (VMapExp m)).
Hypothesis HScalar : ∀ n k v,
  match v with VExps _ | VMapExp _ => False | _ => True end → P (ValExp n k v).

Fixpoint Exp_nested_ind (e : Exp) : P e :=
  match e with
  | Ref r => HRef r
  | ValExp n k v =>
      match v with
      | VExps l =>
          HArray n k l
            ((fix go (l : list Exp) : Forall P l :=
                match l with
                | [] => List.Forall_nil P
                | x :: r => @List.Forall_cons _ P x r (Exp_nested_ind x) (go r)
                end) l)
      | VMapExp m =>
          HMap n k m
            ((fix go (m : list (string * Exp)) : Forall (fun kv => P (snd kv)) m :=
                match m with
                | [] => List.Forall_nil _
                | (key, x) :: r =>
                    @List.Forall_cons _ (fun kv => P (snd kv)) (key, x) r (Exp_nested_ind x) (go r)
                end) m)
      | VNil => HScalar n k VNil I
      | VInt i => HScalar n k (VInt i) I
      | VFloat f => HScalar n k (VFloat f) I
      | VString s => HScalar n k (VString s) I
      | VBool b => HScalar n k (VBool b) I
      | VMapIface => HScalar n k VMapIface I
      end
  end.
End Exp_nested_ind.

Lemma formatLines_is_Some (values : list Exp) (vindent : string) :
  Forall (fun e => is_Some (Exp_format e vindent)) values →
  is_Some (formatLines Exp_format values vindent).
Proof.
  induction 1 as [|e l [s Hs] _ [t Ht]]; [by eexists|].
  cbn [formatLines foldr]. fold (formatLines Exp_format l vindent).
  rewrite Hs, Ht. by eexists.
Qed.

Lemma assoc_is_Some {V} (key : string) (l : list (string * V)) :
  key ∈ map fst l → is_Some (assoc key l).
Proof.
  intros Hin. apply list_elem_of_fmap in Hin as ([k v] & -> & Hin).
  unfold assoc. induction l as [|[a b] l IH]; [by apply elem_of_nil in Hin|].
  cbn. case_bool_decide as E; [by eexists|].
  apply elem_of_cons in Hin as [[= <- <-]|Hin]; [done|]. by apply IH.
Qed.

Lemma grammar_exp_format (e : Exp) :
  grammar_exp e = true → ∀ prefix, is_Some (Exp_format e prefix).
Proof.
  induction e as [r|n k l IH|n k m IH|n k v Hv] using Exp_nested_ind; intros Hg prefix.
  - by eexists.
  - destruct k; try discriminate Hg. cbn in Hg.
    rewrite forallb_forall in Hg.
    assert (Hall : ∀ vindent, Forall (fun e => is_Some (Exp_format e vindent)) l).
    { intros vindent. apply Forall_forall. intros e He.
      rewrite Forall_forall in IH. apply IH; [done|]. by apply Hg, list_elem_of_In. }
    cbn. destruct l as [|e1 [|e2 l]].
    + by eexists.
    + specialize (Hall prefix). apply Forall_inv in Hall as [s ->]. by eexists.
    + destruct (formatLines_is_Some (e1 :: e2 :: l) (prefix +:+ INDENT) (Hall _)) as [s Hs].
      rewrite Hs. by eexists.
  - destruct k; try discriminate Hg. cbn in Hg.
    rewrite forallb_forall in Hg.
    destruct m as [|kv m]; [by eexists|].
    cbn [Exp_format]. unfold ValExp_formatMap.
    rewrite formatMap_body_mapM.
    set (l := kv :: m) in *. set (vindent := prefix +:+ INDENT).
    assert (Hkeys : ∀ keys : list string, keys ⊆ map fst l →
      is_Some (mapM (fun key => e ← assoc key l; s ← Exp_format e vindent; Some (key, s)) keys)).
    { intros keys Hsub. apply mapM_is_Some, Forall_forall. intros key Hkey.
      destruct (assoc_is_Some key l (Hsub _ Hkey)) as [e He]. unfold compose. rewrite He. cbn.
      apply assoc_elem in He. rewrite Forall_forall in IH.
      destruct (IH _ He (Hg _ (proj1 (list_elem_of_In _ _) He)) vindent) as [s Hs].
      cbn in Hs. rewrite Hs. by eexists. }
    destruct (Hkeys (sort_Strings (map fst l))) as [entries ->].
    + intros key Hkey. by rewrite sort_Strings_perm in Hkey.
    + by eexists.
  - destruct v, k; try discriminate Hg; try done; cbn; try by eexists.
    all: destruct b; by eexists.
Qed.

(** X2.  [ValExp.format] and [RefExp.format] write a text for every
    expression that the grammar builds, at every indent: none of them runs
    into a failed type assertion or a malformed verb.  An array whose
    value is not a slice of expressions makes [formatArray] panic, and a
    [nil] value is written as [null] whatever the kind. *)
Theorem grammar_expressions_format (e : Exp) (prefix : string) :
  (grammar_exp e = true → is_Some (Exp_format e prefix))
  ∧ (∀ n v, (∀ l, v ≠ VExps l) → v ≠ VNil → ValExp_format n KindArray v prefix = None)
  ∧ (∀ n k, ValExp_format n k VNil prefix = Some "null").
Proof.
  split; [intros Hg; by apply grammar_exp_format|]. split.
  - intros n v Hv Hnil. destruct v; try reflexivity; [done|]. by destruct (Hv l).
  - intros n k. reflexivity.
Qed.

(** ** Comments *)

(** Programs that only write text. *)
Definition writes {A} (m : M A) (x : A) (s : string) : Prop :=
  ∀ p, m p = Some (x, mkPrinter (buf p +:+ s) (comments p) (lastComment p)).

Lemma writes_ret {A} (x : A) : writes (mret x) x EmptyString.
Proof. intros p. rewrite append_nil_r. by destruct p. Qed.

Lemma writes_WriteString (s : string) : writes (WriteString s) tt s.
Proof. intros p. reflexivity. Qed.

Lemma writes_bind {A B} (m : M A) (f : A → M B) (x : A) (y : B) (s t : string) :
  writes m x s → writes (f x) y t → writes (m ≫= f) y (s +:+ t).
Proof.
  intros Hm Hf p. rewrite run_bind, Hm, Hf. cbn. by rewrite append_assoc.
Qed.

Lemma writes_forM_ {A} (l : list A) (f : A → M unit) (g : A → string) :
  (∀ x, writes (f x) tt (g x)) → writes (forM_ l f) tt (concat_strings (map g l)).
Proof.
  intros Hf. induction l as [|x l IH]; [apply writes_ret|].
  cbn [forM_ map]. eapply writes_bind; [apply Hf|exact IH].
Qed.

(** The lines flushed for the comments left over from a file. *)
Definition commentLines (l : list commentBlock) : string :=
  concat_strings (map (fun c => comment_Value c +:+ NEWLINE) l).

Lemma writes_commentLines (l : list commentBlock) :
  writes (forM_ l (fun comment => WriteString (comment_Value comment);; WriteString NEWLINE))
         tt (commentLines l).
Proof.
  apply (writes_forM_ l _ (fun c => comment_Value c +:+ NEWLINE)).
  intros c. eapply writes_bind; apply writes_WriteString.
Qed.

(** The marker written when the printer moves to another file. *)
Definition includeMarker (nodeFile : SourceFile) : string :=
  "#" +:+ NEWLINE +:+ "# @include " +:+ quote +:+ FileName nodeFile +:+ quote
      +:+ NEWLINE +:+ "#" +:+ NEWLINE +:+ NEWLINE.

(** The first statement of [printComments]: the move to the file of the
    node. *)
Definition switchFile (node : AstNode) : M unit :=
  last ← get_lastComment;
  match File last with
  | None => mret tt
  | Some lastFile =>
      nodeFile ← liftO (File (Loc node));
      when (bool_decide (FullPath lastFile ≠ FullPath nodeFile))
        (cs ← get_comments;
         forM_ (default [] (cs !! FullPath lastFile))
           (fun comment => WriteString (comment_Value comment);; WriteString NEWLINE);;
         set_comments (delete (FullPath lastFile) cs);;
         WriteString ("#" +:+ NEWLINE +:+ "# @include " +:+ quote);;
         WriteString (FileName nodeFile);;
         WriteString (quote +:+ NEWLINE +:+ "#" +:+ NEWLINE +:+ NEWLINE))
  end.

(** The rest of [printComments]: the comments of the node. *)
Definition nodeComments (node : AstNode) (prefix : string) : M unit :=
  forM_ (scopeComments node)
    (fun c =>
       last ← get_lastComment;
       when (bool_decide (Line last ≠ 0) && bool_decide (Line last = Line (comment_Loc c) - 2))
         (WriteString NEWLINE);;
       set_lastComment (comment_Loc c);;
       WriteString prefix;;
       WriteString (comment_Value c);;
       WriteString NEWLINE);;
  when (bool_decide (0 < length (scopeComments node))%nat) (WriteString NEWLINE);;
  forM_ (Comments node)
    (fun c => WriteString prefix;; WriteString c;; WriteString NEWLINE);;
  set_lastComment (Loc node).

Lemma printComments_split (node : AstNode) (prefix : string) (p : printer) :
  printComments node prefix p = (switchFile node;; nodeComments node prefix) p.
Proof.
  unfold printComments, switchFile, nodeComments.
  rewrite !run_assoc. reflexivity.
Qed.

(** What [switchFile] does, case by case. *)
Lemma switchFile_spec (node : AstNode) (p : printer) :
  switchFile node p =
  match File (lastComment p) with
  | None => Some (tt, p)
  | Some lastFile =>
      match File (Loc node) with
      | None => None
      | Some nodeFile =>
          if bool_decide (FullPath lastFile = FullPath nodeFile) then Some (tt, p)
          else Some (tt, mkPrinter
                           (buf p +:+ commentLines (default [] (comments p !! FullPath lastFile))
                                  +:+ includeMarker nodeFile)
                           (delete (FullPath lastFile) (comments p))
                           (lastComment p))
      end
  end.
Proof.
  unfold switchFile. rewrite run_bind. cbn [get_lastComment].
  destruct (File (lastComment p)) as [lastFile|]; [|reflexivity].
  destruct (File (Loc node)) as [nodeFile|]; [|reflexivity].
  rewrite run_bind. cbn [liftO]. rewrite run_ret.
  destruct (decide (FullPath lastFile = FullPath nodeFile)) as [Heq|Heq].
  - rewrite bool_decide_eq_false_2 by tauto.
    rewrite bool_decide_eq_true_2 by exact Heq. reflexivity.
  - rewrite bool_decide_eq_true_2 by exact Heq.
    rewrite bool_decide_eq_false_2 by exact Heq. cbn [when].
    rewrite run_bind. cbn [get_comments]. rewrite run_bind.
    rewrite (writes_commentLines _ p). rewrite run_bind. cbn [set_comments].
    repeat (rewrite run_bind; cbn [WriteString buf comments lastComment]).
    cbn [WriteString buf comments lastComment].
    unfold includeMarker, WriteString. cbn [buf comments lastComment].
    by rewrite !append_assoc.
Qed.

(** Programs that never fail, append to the text and leave the table of
    pending comments alone. *)
Definition appends {A} (m : M A) : Prop :=
  ∀ p, ∃ x s loc, m p = Some (x, mkPrinter (buf p +:+ s) (comments p) loc).

Lemma appends_ret {A} (x : A) : appends (mret x).
Proof. intros p. exists x, EmptyString, (lastComment p). rewrite append_nil_r. by destruct p. Qed.

Lemma appends_WriteString (s : string) : appends (WriteString s).
Proof. intros p. by exists tt, s, (lastComment p). Qed.

Lemma appends_get_lastComment : appends get_lastComment.
Proof.
  intros p. exists (lastComment p), EmptyString, (lastComment p).
  rewrite append_nil_r. by destruct p.
Qed.

Lemma appends_set_lastComment (l : SourceLoc) : appends (set_lastComment l).
Proof. intros p. exists tt, EmptyString, l. by rewrite append_nil_r. Qed.

Lemma appends_bind {A B} (m : M A) (f : A → M B) :
  appends m → (∀ x, appends (f x)) → appends (m ≫= f).
Proof.
  intros Hm Hf p. destruct (Hm p) as (x & s & loc & Hx).
  destruct (Hf x (mkPrinter (buf p +:+ s) (comments p) loc)) as (y & t & loc' & Hy).
  exists y, (s +:+ t), loc'. rewrite run_bind, Hx, Hy. cbn. by rewrite append_assoc.
Qed.

Lemma appends_when (b : bool) (m : M unit) : appends m → appends (when b m).
Proof. destruct b; [done|]. intros _. apply appends_ret. Qed.

Lemma appends_forM_ {A} (l : list A) (f : A → M unit) :
  (∀ x, appends (f x)) → appends (forM_ l f).
Proof.
  intros Hf. induction l as [|x l IH]; [apply appends_ret|].
  cbn [forM_]. apply appends_bind; [apply Hf|]. intros _. exact IH.
Qed.

Ltac solve_appends :=
  repeat first
    [ apply appends_bind; [|intros ?]
    | apply appends_forM_; intros ?
    | apply appends_when
    | apply appends_WriteString
    | apply appends_get_lastComment
    | apply appends_set_lastComment
    | apply appends_ret ].

(** [nodeComments] never fails; it leaves the table alone and ends at the
    node; a node without comments adds nothing to the text. *)
Lemma nodeComments_spec (node : AstNode) (prefix : string) (p : printer) :
  ∃ s, nodeComments node prefix p
       = Some (tt, mkPrinter (buf p +:+ s) (comments p) (Loc node))
       ∧ (scopeComments node = [] → Comments node = [] → s = EmptyString).
Proof.
  unfold nodeComments.
  set (scope := forM_ (scopeComments node) _).
  set (own := forM_ (Comments node) _).
  assert (Hbody : appends (scope;; when (bool_decide (0 < length (scopeComments node))%nat)
                                     (WriteString NEWLINE);; own)).
  { subst scope own. solve_appends. }
  destruct (Hbody p) as ([] & s & loc & Hs).
  exists s. split.
  - rewrite <- !run_assoc. rewrite run_bind.
    rewrite <- run_assoc in Hs. rewrite Hs. reflexivity.
  - intros Hsc Hc. subst scope own. rewrite Hsc, Hc in Hs. cbn in Hs.
    injection Hs as Hs. apply (f_equal buf) in Hs. cbn [buf] in Hs.
    apply (f_equal String.length) in Hs.
    rewrite length_append in Hs. destruct s; [done|cbn in Hs; lia].
Qed.

(** X3.  [printComments] panics exactly when the printer stands in a file
    and the node has none.  Otherwise it ends at the location of the
    node; the table of pending comments is left as it was unless the node
    lies in another file than the last one, in which case the entry of
    the last file is removed from it, its comments are written and the
    include marker follows them; and a node without comments in the file
    of the last one adds nothing to the text. *)
Theorem printComments_effects (node : AstNode) (prefix : string) (p : printer) :
  (printComments node prefix p = None
   ↔ is_Some (File (lastComment p)) ∧ File (Loc node) = None)
  ∧ (∀ p', printComments node prefix p = Some (tt, p') →
       lastComment p' = Loc node
       ∧ ∃ s, buf p' = buf p +:+ s
         ∧ match File (lastComment p), File (Loc node) with
           | Some lastFile, Some nodeFile =>
               if bool_decide (FullPath lastFile = FullPath nodeFile)
               then comments p' = comments p
                    ∧ (scopeComments node = [] → Comments node = [] → s = EmptyString)
               else comments p' = delete (FullPath lastFile) (comments p)
                    ∧ ∃ t, s = commentLines (default [] (comments p !! FullPath lastFile))
                               +:+ includeMarker nodeFile +:+ t
           | _, _ =>
               comments p' = comments p
               ∧ (scopeComments node = [] → Comments node = [] → s = EmptyString)
           end).
Proof.
  rewrite printComments_split, run_bind, switchFile_spec.
  destruct (File (lastComment p)) as [lastFile|] eqn:Hlast.
  - destruct (File (Loc node)) as [nodeFile|] eqn:Hnode.
    + destruct (bool_decide (FullPath lastFile = FullPath nodeFile)).
      * destruct (nodeComments_spec node prefix p) as (s & -> & Hs).
        split; [split; [discriminate|by intros [_ ?]]|].
        intros p' [= <-]. split; [reflexivity|]. exists s. by repeat split.
      * match goal with |- context [nodeComments node prefix ?q] =>
          destruct (nodeComments_spec node prefix q) as (s & -> & Hs) end.
        split; [split; [discriminate|by intros [_ ?]]|].
        intros p' [= <-]. split; [reflexivity|]. cbn [buf comments].
        eexists. split; [by rewrite !append_assoc|]. split; [reflexivity|].
        by exists s.
    + split; [split; [by eauto|done]|]. discriminate.
  - destruct (nodeComments_spec node prefix p) as (s & -> & Hs).
    split; [split; [discriminate|by intros [[? ?] _]]|].
    intros p' [= <-]. split; [reflexivity|]. exists s. by repeat split.
Qed.

(** ** Ranging over a map *)

Lemma omap_lookup_elems {V} (m : gmap string V) (l : list (string * V)) :
  (∀ kv, kv ∈ l → m !! kv.1 = Some kv.2) →
  omap (fun k => (fun v => (k, v)) <$> m !! k) (map fst l) = l.
Proof.
  induction l as [|[k v] l IH]; intros H; [reflexivity|].
  pose proof (H (k, v) ltac:(left)) as Hk. cbn in Hk.
  cbn. rewrite Hk. cbn. f_equal. apply IH.
  intros kv Hkv. apply H. by right.
Qed.

Lemma range_map_Permutation {V} (o : MapOrder) (m : gmap string V) :
  valid_order o → range_map o m ≡ₚ map_to_list m.
Proof.
  intros Ho. unfold range_map. rewrite (Ho _).
  rewrite omap_lookup_elems; [reflexivity|].
  intros [k v] Hkv. by apply elem_of_map_to_list in Hkv.
Qed.

Lemma range_map_empty {V} (o : MapOrder) : range_map o (∅ : gmap string V) = [].
Proof.
  unfold range_map. induction (o _) as [|k l IH]; [reflexivity|].
  cbn. by rewrite lookup_empty.
Qed.

Lemma range_map_small {V} (o1 o2 : MapOrder) (m : gmap string V) :
  valid_order o1 → valid_order o2 → (size m ≤ 1)%nat → range_map o1 m = range_map o2 m.
Proof.
  intros H1 H2 Hsize.
  pose proof (range_map_Permutation o1 m H1) as P1.
  pose proof (range_map_Permutation o2 m H2) as P2.
  assert (Hlen : (length (map_to_list m) ≤ 1)%nat) by by rewrite length_map_to_list.
  destruct (map_to_list m) as [|kv [|kv' l]]; [| |cbn in Hlen; lia].
  - apply Permutation_nil_r in P1, P2. congruence.
  - apply Permutation_singleton_r in P1, P2. congruence.
Qed.

Lemma DumpComments_spec (o : MapOrder) (p : printer) :
  DumpComments o p
  = Some (tt, mkPrinter
                (buf p +:+ concat_strings
                             (map (fun kv => commentLines (snd kv)) (range_map o (comments p))))
                ∅ (lastComment p)).
Proof.
  unfold DumpComments. rewrite run_bind. cbn [get_comments]. rewrite run_bind.
  rewrite (writes_forM_ _ _ (fun kv => commentLines (snd kv))).
  - reflexivity.
  - intros kv. apply writes_commentLines.
Qed.

(** X4.  [DumpComments] never fails and empties the table of pending
    comments: it writes the comments of every file of the table, file by
    file in the order of the loop, each comment on a line of its own, so
    a second flush writes nothing.  When comments are pending for at most
    one file, the order of the loop does not show in the text. *)
Theorem DumpComments_flushes (o : MapOrder) (p : printer) :
  valid_order o →
  (∃ flushed,
     flushed ≡ₚ map_to_list (comments p)
     ∧ DumpComments o p
       = Some (tt, mkPrinter
                     (buf p +:+ concat_strings
                                  (map (fun kv => commentLines (snd kv)) flushed))
                     ∅ (lastComment p)))
  ∧ (∀ o', (DumpComments o;; DumpComments o') p = DumpComments o p)
  ∧ ((size (comments p) ≤ 1)%nat →
     ∀ o', valid_order o' → DumpComments o' p = DumpComments o p).
Proof.
  intros Ho. split; [|split].
  - exists (range_map o (comments p)). split; [by apply range_map_Permutation|].
    apply DumpComments_spec.
  - intros o'. rewrite run_bind, !DumpComments_spec. cbn [buf comments lastComment].
    rewrite range_map_empty. cbn. by rewrite append_nil_r.
  - intros Hsize o' Ho'. rewrite !DumpComments_spec.
    by rewrite (range_map_small o' o).
Qed.

(** ** Invariants of the printer

    A relation between the printer before and after a step that is
    reflexive and transitive and that [WriteString] and [printComments]
    respect is respected by every formatter up to the final flush. *)

Definition respects (R : relation printer) {A} (m : M A) : Prop :=
  ∀ p x p', m p = Some (x, p') → R p p'.

Section Respects.
Context (R : relation printer) `{!PreOrder R}.
Hypothesis R_WriteString : ∀ s, respects R (WriteString s).
Hypothesis R_printComments : ∀ node prefix, respects R (printComments node prefix).

Lemma respects_ret {A} (x : A) : respects R (mret x).
Proof. intros p y p' [= <- <-]. reflexivity. Qed.

Lemma respects_bind {A B} (m : M A) (f : A → M B) :
  respects R m → (∀ x, respects R (f x)) → respects R (m ≫= f).
Proof.
  intros Hm Hf p y p' H. apply run_bind_Some in H as (x & p1 & H1 & H2).
  etrans; [by eapply Hm|by eapply Hf].
Qed.

Lemma respects_liftO {A} (o : option A) : respects R (liftO o).
Proof. destruct o; [apply respects_ret|]. intros p y p' [=]. Qed.

Lemma respects_when (b : bool) (m : M unit) : respects R m → respects R (when b m).
Proof. destruct b; [done|]. intros _. apply respects_ret. Qed.

Lemma respects_forM_ {A} (l : list A) (f : A → M unit) :
  (∀ x, respects R (f x)) → respects R (forM_ l f).
Proof.
  intros Hf. induction l as [|x l IH]; [apply respects_ret|].
  cbn [forM_]. apply respects_bind; [apply Hf|]. intros _. exact IH.
Qed.

Lemma respects_forM {A B} (l : list A) (f : A → M B) :
  (∀ x, respects R (f x)) → respects R (forM l f).
Proof.
  intros Hf. induction l as [|x l IH]; [apply respects_ret|].
  cbn [forM]. apply respects_bind; [apply Hf|]. intros y.
  apply respects_bind; [exact IH|]. intros ys. apply respects_ret.
Qed.

Ltac respects_step :=
  repeat first
    [ apply R_WriteString
    | apply R_printComments
    | match goal with H : ∀ _, _ |- _ => apply H end
    | apply respects_ret
    | apply respects_liftO
    | apply respects_when
    | apply respects_forM_; intros ?
    | apply respects_forM; intros ?
    | apply respects_bind; [|intros ?]
    | match goal with
      | |- respects _ (if ?x then _ else _) => destruct x
      | |- respects _ (match ?x with _ => _ end) => destruct x
      end ].

Lemma respects_BindStms_format (self : BindStms) (prefix : string) :
  respects R (BindStms_format self prefix).
Proof. unfold BindStms_format, BindStm_format. respects_step. Qed.

Lemma respects_paramFormat (param : Param) (mw tw iw hw : Z) :
  respects R (paramFormat param mw tw iw hw).
Proof. unfold paramFormat. respects_step. Qed.

Lemma respects_InParams_format (self : InParams) (mw tw iw hw : Z) :
  respects R (InParams_format self mw tw iw hw).
Proof. unfold InParams_format. respects_step. Qed.

Lemma respects_OutParams_format (self : OutParams) (mw tw iw hw : Z) :
  respects R (OutParams_format self mw tw iw hw).
Proof. unfold OutParams_format. respects_step. Qed.

Lemma respects_CallStm_format (self : CallStm) (prefix : string) :
  respects R (CallStm_format self prefix).
Proof.
  pose proof respects_BindStms_format. unfold CallStm_format. respects_step.
Qed.

Lemma respects_Pipeline_format (self : Pipeline) : respects R (Pipeline_format self).
Proof.
  pose proof respects_BindStms_format. pose proof respects_CallStm_format.
  pose proof respects_InParams_format. pose proof respects_OutParams_format.
  unfold Pipeline_format, ReturnStm_format, PipelineRetains_format. respects_step.
Qed.

Lemma respects_Stage_format (self : Stage) : respects R (Stage_format self).
Proof.
  pose proof respects_InParams_format. pose proof respects_OutParams_format.
  unfold Stage_format, SrcParam_format, Resources_format, RetainParams_format.
  respects_step.
Qed.

Lemma respects_Callables_format_from (l : list Callable) (i : nat) :
  respects R (Callables_format_from i l).
Proof.
  pose proof respects_Stage_format. pose proof respects_Pipeline_format.
  revert i. induction l as [|callable l IH]; intros i; cbn [Callables_format_from].
  - apply respects_ret.
  - unfold Callable_format. respects_step.
Qed.

(** The statements of [Ast.format] before the final flush. *)
Definition Ast_format_items (self : Ast) (writeIncludes : bool)
    : M (list Callable * option CallStm) :=
  (if writeIncludes then
     forM_ (Includes self)
       (fun directive =>
          printComments (Include_Node directive) EmptyString;;
          WriteString ("@include " +:+ quote);;
          WriteString (Include_Value directive);;
          WriteString quote;;
          WriteString NEWLINE)
   else mret tt);;
  let needSpacer := writeIncludes && bool_decide (0 < length (Includes self))%nat in
  when (needSpacer && bool_decide (0 < length (UserTypes self))%nat) (WriteString NEWLINE);;
  forM_ (UserTypes self) UserType_format;;
  let needSpacer := needSpacer || bool_decide (0 < length (UserTypes self))%nat in
  when (needSpacer && bool_decide (0 < length (Callables self))%nat) (WriteString NEWLINE);;
  callables ← Callables_format (Callables self);
  call ← match Call self with
         | Some call =>
             when (bool_decide (0 < length (Callables self))%nat || needSpacer)
               (WriteString NEWLINE);;
             call' ← CallStm_format call EmptyString;
             mret (Some call')
         | None => mret None
         end;
  mret (callables, call).

Lemma respects_Ast_format_items (self : Ast) (writeIncludes : bool) :
  respects R (Ast_format_items self writeIncludes).
Proof.
  pose proof respects_CallStm_format. pose proof respects_Callables_format_from.
  unfold Ast_format_items, UserType_format, Callables_format. respects_step.
Qed.
End Respects.

Lemma Ast_format_body_items (oComments : MapOrder) (self : Ast) (writeIncludes : bool)
    (p : printer) :
  Ast_format_body oComments self writeIncludes p
  = ('(callables, call) ← Ast_format_items self writeIncludes;
     DumpComments oComments;;
     text ← get_String;
     mret (mkFormatted callables call text)) p.
Proof.
  unfold Ast_format_body, Ast_format_items.
  rewrite !run_assoc. apply run_bind_ext; intros [] q1.
  rewrite !run_assoc. apply run_bind_ext; intros [] q2.
  rewrite !run_assoc. apply run_bind_ext; intros [] q3.
  rewrite !run_assoc. apply run_bind_ext; intros [] q4.
  rewrite !run_assoc. apply run_bind_ext; intros callables q5.
  rewrite !run_assoc. apply run_bind_ext; intros call q6.
  reflexivity.
Qed.

(** ** What a formatter leaves of the printer *)

(** The text after a step is the text before it with something appended,
    and no file has more pending comments than before. *)
Definition extends (p p' : printer) : Prop :=
  (∃ s, buf p' = buf p +:+ s) ∧ comments p' ⊆ comments p.

#[local] Instance extends_PreOrder : PreOrder extends.
Proof.
  split.
  - intros p. split; [exists EmptyString; by rewrite append_nil_r|reflexivity].
  - intros p q r [[s Hs] Hpq] [[t Ht] Hqr]. split.
    + exists (s +:+ t). by rewrite Ht, Hs, append_assoc.
    + by etrans.
Qed.

Lemma extends_WriteString (s : string) : respects extends (WriteString s).
Proof. intros p [] p' [= <-]. split; [by exists s|reflexivity]. Qed.

Lemma extends_printComments (node : AstNode) (prefix : string) :
  respects extends (printComments node prefix).
Proof.
  intros p [] p'. rewrite printComments_split, run_bind, switchFile_spec.
  destruct (File (lastComment p)) as [lastFile|].
  - destruct (File (Loc node)) as [nodeFile|]; [|discriminate].
    destruct (bool_decide _).
    + destruct (nodeComments_spec node prefix p) as (s & -> & _). intros [= <-].
      split; [by exists s|reflexivity].
    + match goal with |- context [nodeComments node prefix ?q] =>
        destruct (nodeComments_spec node prefix q) as (s & -> & _) end.
      intros [= <-]. cbn. split; [|apply delete_subseteq].
      eexists. by rewrite !append_assoc.
  - destruct (nodeComments_spec node prefix p) as (s & -> & _). intros [= <-].
    split; [by exists s|reflexivity].
Qed.

(** X5.  The formatters of stages, call statements, return statements and
    binding lists only append to the text written so far, and they never
    add to the table of pending comments: an entry of the table is either
    left as it is or, when the printer moves to another file, removed
    whole. *)
Theorem formatters_extend (p p' : printer) :
  (∀ self, Stage_format self p = Some (tt, p') → extends p p')
  ∧ (∀ self self' prefix, CallStm_format self prefix p = Some (self', p') → extends p p')
  ∧ (∀ self, ReturnStm_format self p = Some (tt, p') → extends p p')
  ∧ (∀ self prefix, BindStms_format self prefix p = Some (tt, p') → extends p p')
  ∧ (∀ param modeWidth typeWidth idWidth helpWidth,
       paramFormat param modeWidth typeWidth idWidth helpWidth p = Some (tt, p') →
       extends p p').
Proof.
  split; [|split; [|split; [|split]]].
  - intros self H.
    by apply (respects_Stage_format extends extends_WriteString extends_printComments) in H.
  - intros self self' prefix H.
    by apply (respects_CallStm_format extends extends_WriteString extends_printComments) in H.
  - intros self H. revert H. unfold ReturnStm_format. intros H.
    apply run_bind_Some in H as ([] & p1 & H1 & H).
    apply run_bind_Some in H as ([] & p2 & H2 & H).
    apply run_bind_Some in H as ([] & p3 & H3 & H).
    apply run_bind_Some in H as ([] & p4 & H4 & H).
    apply run_bind_Some in H as ([] & p5 & H5 & H).
    apply extends_printComments in H1. apply extends_WriteString in H2, H3, H5, H.
    apply (respects_BindStms_format extends extends_WriteString extends_printComments) in H4.
    repeat (etrans; [eassumption|]). reflexivity.
  - intros self prefix H.
    by apply (respects_BindStms_format extends extends_WriteString extends_printComments) in H.
  - intros param mw tw iw hw H.
    by apply (respects_paramFormat extends extends_WriteString extends_printComments) in H.
Qed.

(** ** The table of pending comments *)

(** The path of the file a comment lies in. *)
Definition comment_path (c : commentBlock) : option string :=
  FullPath <$> File (comment_Loc c).

Lemma collectComments_fold (l : list commentBlock)
    (acc table : gmap string (list commentBlock)) :
  fold_left (fun acc comment =>
               table ← acc;
               file ← File (comment_Loc comment);
               Some (<[FullPath file := default [] (table !! FullPath file) ++ [comment]]> table))
            l (Some acc) = Some table →
  Forall (fun c => is_Some (File (comment_Loc c))) l
  ∧ ∀ k, table !! k
         = match filter (fun c => comment_path c = Some k) l with
           | [] => acc !! k
           | cs => Some (default [] (acc !! k) ++ cs)
           end.
Proof.
  revert acc. induction l as [|c l IH]; intros acc H.
  - cbn in H. injection H as <-. split; [constructor|]. intros k. reflexivity.
  - cbn [fold_left] in H. cbn [mbind option_bind] in H.
    destruct (File (comment_Loc c)) as [file|] eqn:Hfile; cbn in H.
    + apply IH in H as [Hall Htable]. split; [constructor; [by eexists|exact Hall]|].
      assert (Hcp : comment_path c = Some (FullPath file))
        by (unfold comment_path; by rewrite Hfile).
      intros k. rewrite Htable. rewrite filter_cons, Hcp.
      destruct (decide (Some (FullPath file) = Some k)) as [[= <-]|Hne].
      * rewrite lookup_insert_eq. cbn [default].
        destruct (filter _ l) as [|c' cs]; [reflexivity|].
        unfold id. by rewrite <- app_assoc.
      * rewrite lookup_insert_ne by congruence. reflexivity.
    + exfalso. clear -H. induction l as [|c' l IH]; [discriminate|]. by apply IH.
Qed.

Lemma collectComments_lookup (l : list commentBlock) (table : gmap string (list commentBlock)) :
  collectComments l = Some table →
  Forall (fun c => is_Some (File (comment_Loc c))) l
  ∧ ∀ k, table !! k
         = match filter (fun c => comment_path c = Some k) l with
           | [] => None
           | cs => Some cs
           end.
Proof.
  intros H. apply collectComments_fold in H as [Hall H]. split; [exact Hall|].
  intros k. rewrite H, lookup_empty. reflexivity.
Qed.

Lemma collectComments_is_Some (l : list commentBlock) :
  Forall (fun c => is_Some (File (comment_Loc c))) l → is_Some (collectComments l).
Proof.
  intros H. unfold collectComments. generalize (∅ : gmap string (list commentBlock)).
  induction H as [|c l [file Hfile] _ IH]; intros acc; [by eexists|].
  cbn [fold_left]. cbn [mbind option_bind]. rewrite Hfile. cbn. apply IH.
Qed.

(** X6.  The first loop of [Ast.format] files every free comment of the
    unit under the full path of its file: the entry of a path holds the
    comments of that file in the order of the source, a file without free
    comments has no entry, and the loop panics exactly when some comment
    has no file. *)
Theorem collectComments_by_file (l : list commentBlock) :
  (collectComments l = None ↔ ∃ c, c ∈ l ∧ File (comment_Loc c) = None)
  ∧ (∀ table, collectComments l = Some table →
       ∀ k, table !! k
            = match filter (fun c => comment_path c = Some k) l with
              | [] => None
              | cs => Some cs
              end).
Proof.
  split.
  - split.
    + intros Hnone.
      destruct (decide (Forall (fun c => is_Some (File (comment_Loc c))) l)) as [Hall|Hex].
      * apply collectComments_is_Some in Hall as [table Ht]. congruence.
      * apply not_Forall_Exists in Hex; [|apply _].
        apply Exists_exists in Hex as (c & Hc & Hfile). exists c. split; [done|].
        cbn in Hfile. destruct (File (comment_Loc c)); [|done]. destruct Hfile. by eexists.
    + intros (c & Hc & Hfile).
      destruct (collectComments l) as [table|] eqn:Ht; [|done].
      apply collectComments_lookup in Ht as [Hall _].
      rewrite Forall_forall in Hall. destruct (Hall c Hc) as [f Hf]. congruence.
  - intros table Ht. by apply collectComments_lookup in Ht as [_ Ht].
Qed.

Lemma size_le_1 {V} (m : gmap string V) (k0 : string) :
  (∀ k, is_Some (m !! k) → k = k0) → (size m ≤ 1)%nat.
Proof.
  intros H. destruct (m !! k0) as [x|] eqn:Hk0.
  - assert (m = {[ k0 := x ]}) as ->; [|rewrite map_size_singleton; lia].
    apply map_eq. intros k. destruct (decide (k = k0)) as [->|Hne].
    + by rewrite lookup_singleton_eq.
    + rewrite lookup_singleton_ne by done.
      destruct (m !! k) eqn:E; [|done]. destruct Hne. apply H. by eexists.
  - assert (m = ∅) as ->; [|rewrite map_size_empty; lia].
    apply map_eq. intros k. rewrite lookup_empty.
    destruct (m !! k) eqn:E; [|done]. assert (k = k0) as -> by (apply H; by eexists).
    congruence.
Qed.

(** ** Determinism of a unit of one file *)

Lemma range_map_first {V} (o : MapOrder) (m : gmap string V) :
  valid_order o →
  match range_map o m with
  | [] => m = ∅
  | (k, v) :: _ => m !! k = Some v
  end.
Proof.
  intros Ho. pose proof (range_map_Permutation o m Ho) as Hp.
  destruct (range_map o m) as [|[k v] l].
  - apply Permutation_nil_l in Hp. by apply map_to_list_empty_iff.
  - apply elem_of_map_to_list. rewrite <- Hp. left.
Qed.

(** X7.  A unit all of whose files lead up to one top-level file and all of
    whose free comments lie in one file is formatted the same way by every
    run: neither the order in which the loop over the files nor the order
    in which the final flush visits its map shows in the result. *)
Theorem Ast_format_single_file (oFiles1 oFiles2 oComments1 oComments2 : MapOrder)
    (self : Ast) (writeIncludes : bool) (top : option SourceFile) (path : string) :
  valid_order oFiles1 → valid_order oFiles2 →
  valid_order oComments1 → valid_order oComments2 →
  (∀ k f, Files self !! k = Some f → topFile_of f = top) →
  (∀ c, c ∈ Ast_comments self → comment_path c = Some path) →
  Ast_format oFiles1 oComments1 self writeIncludes
  = Ast_format oFiles2 oComments2 self writeIncludes.
Proof.
  intros Ho1 Ho2 Hc1 Hc2 Htop Hpath. unfold Ast_format.
  assert (Hlast : ∀ o, valid_order o →
    match range_map o (Files self) with
    | [] => {| Line := 0; File := None |}
    | (_, f) :: _ => {| Line := 0; File := topFile_of f |}
    end = if decide (Files self = ∅) then {| Line := 0; File := None |}
          else {| Line := 0; File := top |}).
  { intros o Ho. pose proof (range_map_first o (Files self) Ho) as H.
    destruct (range_map o (Files self)) as [|[k f] l].
    - by rewrite decide_True.
    - rewrite decide_False; [by rewrite (Htop k f H)|].
      intros E. rewrite E, lookup_empty in H. discriminate. }
  rewrite (Hlast _ Ho1), (Hlast _ Ho2).
  destruct (collectComments (Ast_comments self)) as [table|] eqn:Htable; [|reflexivity].
  cbn [mbind option_bind]. f_equal.
  rewrite !Ast_format_body_items, !run_bind.
  match goal with |- context [Ast_format_items self writeIncludes ?p0] =>
    destruct (Ast_format_items self writeIncludes p0) as [[[callables call] p1]|] eqn:Hitems;
    [|reflexivity] end.
  apply (respects_Ast_format_items extends extends_WriteString extends_printComments)
    in Hitems as [_ Hitems].
  cbn [comments] in Hitems.
  rewrite !run_bind, !DumpComments_spec.
  rewrite (range_map_small oComments1 oComments2 (comments p1) Hc1 Hc2); [reflexivity|].
  cbn [comments] in *.
  { etrans; [apply (map_subseteq_size _ _ Hitems)|].
    apply (size_le_1 _ path). intros k [cs Hk].
    apply collectComments_lookup in Htable as [_ Ht]. rewrite Ht in Hk.
    destruct (filter _ (Ast_comments self)) as [|c cs'] eqn:Hf; [discriminate|].
    assert (Hc : c ∈ filter (fun c => comment_path c = Some k) (Ast_comments self))
      by (rewrite Hf; left).
    apply list_elem_of_filter in Hc as [Hck Hc]. rewrite (Hpath c Hc) in Hck. congruence. }
Qed.

(** ** Formatting without a panic *)

(** Programs that return from every state of the printer. *)
Definition succeeds {A} (m : M A) : Prop := ∀ p, is_Some (m p).

Lemma succeeds_ret {A} (x : A) : succeeds (mret x).
Proof. intros p. by eexists. Qed.

Lemma succeeds_WriteString (s : string) : succeeds (WriteString s).
Proof. intros p. by eexists. Qed.

Lemma succeeds_bind {A B} (m : M A) (f : A → M B) :
  succeeds m → (∀ x, succeeds (f x)) → succeeds (m ≫= f).
Proof.
  intros Hm Hf p. rewrite run_bind. destruct (Hm p) as [[x q] ->]. apply Hf.
Qed.

Lemma succeeds_when (b : bool) (m : M unit) : succeeds m → succeeds (when b m).
Proof. destruct b; [done|]. intros _. apply succeeds_ret. Qed.

Lemma succeeds_liftO {A} (o : option A) : is_Some o → succeeds (liftO o).
Proof. intros [x ->]. apply succeeds_ret. Qed.

Lemma succeeds_forM_ {A} (l : list A) (f : A → M unit) :
  Forall (fun x => succeeds (f x)) l → succeeds (forM_ l f).
Proof.
  induction 1 as [|x l Hx _ IH]; [apply succeeds_ret|].
  cbn [forM_]. apply succeeds_bind; [exact Hx|]. intros _. exact IH.
Qed.

Lemma succeeds_forM {A B} (l : list A) (f : A → M B) :
  Forall (fun x => succeeds (f x)) l → succeeds (forM l f).
Proof.
  induction 1 as [|x l Hx _ IH]; [apply succeeds_ret|].
  cbn [forM]. apply succeeds_bind; [exact Hx|]. intros y.
  apply succeeds_bind; [exact IH|]. intros ys. apply succeeds_ret.
Qed.

(** A node that lies in a file, as every node of the grammar does. *)
Definition located (node : AstNode) : Prop := is_Some (File (Loc node)).

Lemma succeeds_printComments (node : AstNode) (prefix : string) :
  located node → succeeds (printComments node prefix).
Proof.
  intros [nodeFile Hnode] p. rewrite printComments_split, run_bind, switchFile_spec, Hnode.
  destruct (File (lastComment p)) as [lastFile|]; [destruct (bool_decide _)|];
    match goal with |- context [nodeComments node prefix ?q] =>
      destruct (nodeComments_spec node prefix q) as (s & -> & _) end; by eexists.
Qed.

Lemma strings_Repeat_is_Some (s : string) (count : Z) :
  0 ≤ count → is_Some (strings_Repeat s count).
Proof.
  intros H. unfold strings_Repeat.
  destruct (Z.ltb_spec count 0); [lia|]. by eexists.
Qed.

Lemma strings_Repeat_len (count : Z) (pad : string) :
  strings_Repeat " " count = Some pad → len pad = count.
Proof.
  unfold strings_Repeat. destruct (Z.ltb_spec count 0); [discriminate|].
  intros [= <-]. unfold len.
  assert (H1 : ∀ n, String.length (repeat_string " " n) = n).
  { induction n as [|n IH]; [reflexivity|]. cbn [repeat_string].
    rewrite length_append, IH. reflexivity. }
  rewrite H1. lia.
Qed.

Lemma maximum_ge (x : Z) (l : list Z) : x ∈ l → x ≤ maximum l.
Proof.
  induction l as [|y l IH]; intros Hin; [by apply elem_of_nil in Hin|].
  rewrite maximum_cons. apply elem_of_cons in Hin as [->|Hin]; [lia|].
  specialize (IH Hin). lia.
Qed.

Lemma succeeds_padded (id : string) (width : Z) :
  succeeds (if len id <? width
            then liftO (strings_Repeat " " (width - len id))
            else mret EmptyString).
Proof.
  destruct (Z.ltb_spec (len id) width); [|apply succeeds_ret].
  apply succeeds_liftO, strings_Repeat_is_Some. lia.
Qed.

Lemma succeeds_paramFormat (param : Param) (modeWidth typeWidth idWidth helpWidth : Z) :
  located (Param_getNode param) →
  len (Param_getMode param) ≤ modeWidth →
  len (Param_GetTname param) + 2 * Param_GetArrayDim param ≤ typeWidth →
  succeeds (paramFormat param modeWidth typeWidth idWidth helpWidth).
Proof.
  intros Hloc Hm Ht. unfold paramFormat.
  apply succeeds_bind; [by apply succeeds_printComments|]. intros _.
  apply succeeds_bind; [apply succeeds_liftO, strings_Repeat_is_Some; lia|]. intros modePad.
  apply succeeds_bind; [apply succeeds_liftO, strings_Repeat_is_Some; lia|]. intros typePad.
  apply succeeds_bind; [apply succeeds_padded|]. intros idPad.
  apply succeeds_bind; [apply succeeds_padded|]. intros helpPad.
  repeat first [ apply succeeds_WriteString | apply succeeds_when
               | apply succeeds_bind; [|intros ?] ].
Qed.

Lemma succeeds_paramFormat_group (param : Param) (all : list Param)
    (modeWidth idWidth helpWidth : Z) :
  param ∈ all → located (Param_getNode param) → modeWidthOf all ≤ modeWidth →
  succeeds (paramFormat param modeWidth (typeWidthOf all) idWidth helpWidth).
Proof.
  intros Hin Hloc Hmode. apply succeeds_paramFormat; [done| |].
  - etrans; [|exact Hmode].
    by apply maximum_ge, (list_elem_of_fmap_2 (fun p => len (Param_getMode p))).
  - by apply maximum_ge,
      (list_elem_of_fmap_2 (fun p => len (Param_GetTname p) + 2 * Param_GetArrayDim p)).
Qed.

(** ** Stages *)

(** The nodes that [Stage.format] prints the comments of. *)
Definition Resources_nodes (self : Resources) : list AstNode :=
  Resources_Node self
    :: option_list (MemNode self) ++ option_list (SpecialNode self)
    ++ option_list (ThreadNode self) ++ option_list (VolatileNode self).

Definition RetainParams_nodes (self : RetainParams) : list AstNode :=
  RetainParams_Node self :: map RetainParam_Node (RetainParams_Params self).

Definition Stage_params (self : Stage) : list Param :=
  group_params [Params_In (Stage_InParams self); Params_Out (Stage_OutParams self);
                Params_In (ChunkIns self); Params_Out (ChunkOuts self)].

Definition Stage_nodes (self : Stage) : list AstNode :=
  Stage_Node self
    :: map Param_getNode (Stage_params self)
    ++ SrcParam_Node (Src self)
    :: from_option Resources_nodes [] (Stage_Resources self)
    ++ from_option RetainParams_nodes [] (Stage_Retain self).

Lemma succeeds_SrcParam_format (self : SrcParam) (modeWidth typeWidth idWidth : Z) :
  located (SrcParam_Node self) → len "src" ≤ modeWidth → len (Lang self) ≤ typeWidth →
  succeeds (SrcParam_format self modeWidth typeWidth idWidth).
Proof.
  intros Hloc Hm Ht. unfold SrcParam_format.
  apply succeeds_bind; [by apply succeeds_printComments|]. intros _.
  apply succeeds_bind; [apply succeeds_liftO, strings_Repeat_is_Some; lia|]. intros langPad.
  apply succeeds_bind; [apply succeeds_liftO, strings_Repeat_is_Some; lia|]. intros modePad.
  apply succeeds_WriteString.
Qed.

Lemma succeeds_resource (node : option AstNode) (f : AstNode → M unit) :
  (∀ n, node = Some n → succeeds (f n)) →
  succeeds (match node with Some n => f n | None => mret tt end).
Proof. destruct node as [n|]; [auto|]. intros _. apply succeeds_ret. Qed.

Lemma succeeds_Resources_format (self : Resources) :
  Forall located (Resources_nodes self) → succeeds (Resources_format self).
Proof.
  intros Hloc. rewrite Forall_forall in Hloc. unfold Resources_format.
  assert (Hnode : ∀ node, node ∈ Resources_nodes self →
            succeeds (printComments node INDENT)).
  { intros node Hin. by apply succeeds_printComments, Hloc. }
  apply succeeds_bind; [apply Hnode; left|]. intros _.
  apply succeeds_bind; [apply succeeds_WriteString|]. intros _.
  destruct (if bool_decide _ then _ else _) as [memPad threadPad].
  unfold Resources_nodes in Hnode.
  repeat (apply succeeds_bind; [|intros _]);
    try (apply succeeds_resource; intros n Hn;
         repeat (apply succeeds_bind; [|intros _]); try apply succeeds_WriteString;
         apply Hnode; right; rewrite Hn;
         rewrite !elem_of_app; cbn; rewrite !elem_of_cons; tauto).
Qed.

Lemma succeeds_RetainParams_format (self : RetainParams) :
  Forall located (RetainParams_nodes self) → succeeds (RetainParams_format self).
Proof.
  intros Hloc. apply Forall_cons in Hloc as [Hnode Hloc]. unfold RetainParams_format.
  apply succeeds_bind; [by apply succeeds_printComments|]. intros _.
  apply succeeds_bind; [apply succeeds_WriteString|]. intros _.
  apply succeeds_forM_, Forall_forall. intros param Hparam.
  rewrite Forall_forall in Hloc.
  apply succeeds_bind; [apply succeeds_printComments, Hloc, list_elem_of_fmap; eauto|].
  intros _. repeat (apply succeeds_bind; [|intros _]); apply succeeds_WriteString.
Qed.

Lemma Stage_format_is_Some (self : Stage) :
  Forall located (Stage_nodes self) →
  len (Lang (Src self)) ≤ typeWidthOf (Stage_params self) →
  succeeds (Stage_format self).
Proof.
  intros Hloc Hlang. unfold Stage_nodes in Hloc.
  apply Forall_cons in Hloc as [Hnode Hloc].
  apply Forall_app in Hloc as [Hparams Hloc].
  apply Forall_cons in Hloc as [Hsrc Hloc].
  apply Forall_app in Hloc as [Hres Hret].
  rewrite Forall_fmap in Hparams.
  unfold Stage_format. fold (Stage_params self).
  rewrite measureParamsWidths_closed. cbv beta iota zeta.
  rewrite max_Zmax.
  assert (Hin : map Param_In (InParams_List (Stage_InParams self)) ⊆ Stage_params self).
  { unfold Stage_params, group_params. cbn. set_solver. }
  assert (Hout : map Param_Out (OutParams_List (Stage_OutParams self)) ⊆ Stage_params self).
  { unfold Stage_params, group_params. cbn. set_solver. }
  assert (Hcin : map Param_In (InParams_List (ChunkIns self)) ⊆ Stage_params self).
  { unfold Stage_params, group_params. cbn. set_solver. }
  assert (Hcout : map Param_Out (OutParams_List (ChunkOuts self)) ⊆ Stage_params self).
  { unfold Stage_params, group_params. cbn. set_solver. }
  assert (HIn : ∀ ps iw hw, map Param_In (InParams_List ps) ⊆ Stage_params self →
    succeeds (InParams_format ps (Z.max (modeWidthOf (Stage_params self)) (len "src"))
                (typeWidthOf (Stage_params self)) iw hw)).
  { intros ps iw hw Hsub. apply succeeds_forM_, Forall_forall. intros param Hparam.
    assert (Param_In param ∈ Stage_params self)
      by by apply Hsub, (list_elem_of_fmap_2 Param_In).
    apply succeeds_paramFormat_group; [done| |lia].
    rewrite Forall_forall in Hparams. by apply Hparams. }
  assert (HOut : ∀ ps iw hw, map Param_Out (OutParams_List ps) ⊆ Stage_params self →
    succeeds (OutParams_format ps (Z.max (modeWidthOf (Stage_params self)) (len "src"))
                (typeWidthOf (Stage_params self)) iw hw)).
  { intros ps iw hw Hsub. apply succeeds_forM_, Forall_forall. intros param Hparam.
    assert (Param_Out param ∈ Stage_params self)
      by by apply Hsub, (list_elem_of_fmap_2 Param_Out).
    apply succeeds_paramFormat_group; [done| |lia].
    rewrite Forall_forall in Hparams. by apply Hparams. }
  apply succeeds_bind; [by apply succeeds_printComments|]. intros _.
  apply succeeds_bind; [apply succeeds_WriteString|]. intros _.
  apply succeeds_bind; [by apply HIn|]. intros _.
  apply succeeds_bind; [by apply HOut|]. intros _.
  apply succeeds_bind; [apply succeeds_SrcParam_format; [done|lia|done]|]. intros _.
  destruct (Stage_chunkWidths _ _ _) as [idWidth helpWidth].
  apply succeeds_bind.
  { apply succeeds_when. apply succeeds_bind; [apply succeeds_WriteString|]. intros _.
    apply succeeds_bind; [by apply HIn|]. intros _. by apply HOut. }
  intros _. apply succeeds_bind.
  { destruct (Stage_Resources self) as [res|]; [|apply succeeds_ret].
    by apply succeeds_Resources_format. }
  intros _. apply succeeds_bind; [|intros _; apply succeeds_WriteString].
  destruct (Stage_Retain self) as [ret|]; [|apply succeeds_ret].
  by apply succeeds_RetainParams_format.
Qed.

Lemma Stage_format_is_None (self : Stage) (p : printer) :
  typeWidthOf (Stage_params self) < len (Lang (Src self)) →
  Stage_format self p = None.
Proof.
  intros Hlt. unfold Stage_format. fold (Stage_params self).
  rewrite measureParamsWidths_closed. cbv beta iota zeta.
  apply run_bind_None. intros [] q0.
  apply run_bind_None. intros [] q1.
  apply run_bind_None. intros [] q2.
  apply run_bind_None. intros [] q3.
  by rewrite run_bind, SrcParam_format_panics.
Qed.

(** X8.  [Stage.format] on a stage whose nodes all lie in a file panics
    exactly when the language tag of the [src] line is longer than the
    type column, that is longer than every parameter type of the stage
    with its array brackets; in particular it never panics on a stage with
    a parameter type of four bytes or more. *)
Theorem Stage_format_panics_iff (self : Stage) (p : printer) :
  Forall located (Stage_nodes self) →
  Stage_format self p = None
  ↔ typeWidthOf (Stage_params self) < len (Lang (Src self)).
Proof.
  intros Hloc. split.
  - intros Hnone. destruct (Z.lt_ge_cases (typeWidthOf (Stage_params self))
                                          (len (Lang (Src self)))) as [|Hge]; [done|].
    destruct (Stage_format_is_Some self Hloc Hge p) as [r Hr]. congruence.
  - apply Stage_format_is_None.
Qed.

(** ** Alignment *)

Lemma len_append (a b : string) : len (a +:+ b) = len a + len b.
Proof. unfold len. rewrite length_append. lia. Qed.

Lemma len_nonneg (a : string) : 0 ≤ len a.
Proof. unfold len. lia. Qed.

(** The padding that [BindStm.format] and [paramFormat] put behind a
    column entry: none when the entry fills the column or overflows it. *)
Lemma padded_spec (id : string) (width : Z) :
  ∃ pad, (∀ p, (if len id <? width
                then liftO (strings_Repeat " " (width - len id))
                else mret EmptyString) p = Some (pad, p))
         ∧ len (id +:+ pad) = Z.max (len id) width
         ∧ (width ≤ len id → pad = EmptyString).
Proof.
  destruct (Z.ltb_spec (len id) width) as [Hlt|Hge].
  - destruct (strings_Repeat_is_Some " " (width - len id)) as [pad Hpad]; [lia|].
    exists pad. rewrite Hpad. split; [reflexivity|].
    apply strings_Repeat_len in Hpad. rewrite len_append. split; lia.
  - exists EmptyString. split; [reflexivity|]. rewrite append_nil_r. split; [lia|done].
Qed.

Lemma maximum_lt (l : list Z) (bound : Z) :
  0 < bound → Forall (fun x => x < bound) l → maximum l < bound.
Proof.
  intros Hb. induction 1 as [|x l Hx _ IH]; [cbn; lia|]. rewrite maximum_cons. lia.
Qed.

Lemma BindStms_idWidth_fold (l : list BindStm) (acc : Z) :
  0 ≤ acc →
  fold_left (fun idWidth bindstm =>
               if len (BindStm_Id bindstm) <? 30
               then max idWidth (len (BindStm_Id bindstm)) else idWidth) l acc
  = Z.max acc (maximum (map (fun b => len (BindStm_Id b))
                            (filter (fun b => len (BindStm_Id b) < 30) l))).
Proof.
  revert acc. induction l as [|b l IH]; intros acc Hacc.
  - cbn. lia.
  - cbn [fold_left]. rewrite filter_cons.
    destruct (Z.ltb_spec (len (BindStm_Id b)) 30) as [Hlt|Hge].
    + rewrite decide_True by done. rewrite IH, max_Zmax by (rewrite max_Zmax; lia).
      cbn [map]. rewrite maximum_cons. lia.
    + rewrite decide_False by lia. by rewrite IH.
Qed.

Lemma BindStms_idWidth_closed (l : list BindStm) :
  BindStms_idWidth l
  = maximum (map (fun b => len (BindStm_Id b))
                 (filter (fun b => len (BindStm_Id b) < 30) l)).
Proof.
  unfold BindStms_idWidth. rewrite BindStms_idWidth_fold by lia.
  match goal with |- Z.max 0 (maximum ?l) = _ => pose proof (maximum_nonneg l); lia end.
Qed.

(** X9.  The bindings of a list are aligned on the longest identifier of
    fewer than 30 bytes: every binding with such an identifier is padded
    to that width before [ = ], and a binding with a longer identifier is
    written without padding.  The padding never makes [strings.Repeat]
    panic. *)
Theorem BindStms_alignment (l : list BindStm) (b : BindStm) (prefix : string)
    (p p1 p2 : printer) :
  b ∈ l →
  printComments (BindStm_Node b) (prefix +:+ INDENT) p = Some (tt, p1) →
  printComments (Exp_getNode (BindStm_Exp b)) (prefix +:+ INDENT) p1 = Some (tt, p2) →
  let idWidth := BindStms_idWidth l in
  idWidth = maximum (map (fun b => len (BindStm_Id b))
                         (filter (fun b => len (BindStm_Id b) < 30) l))
  ∧ ∃ idPad,
      BindStm_head b prefix idWidth p
      = Some (tt, mkPrinter (buf p2 +:+ prefix +:+ INDENT +:+ BindStm_Id b +:+ idPad +:+ " = ")
                            (comments p2) (lastComment p2))
      ∧ (len (BindStm_Id b) < 30 → len (BindStm_Id b +:+ idPad) = idWidth)
      ∧ (30 ≤ len (BindStm_Id b) → idPad = EmptyString).
Proof.
  intros Hb H1 H2 idWidth. split; [apply BindStms_idWidth_closed|].
  destruct (padded_spec (BindStm_Id b) idWidth) as (idPad & Hpad & Hlen & Hnone).
  exists idPad. split; [|split].
  - unfold BindStm_head. rewrite run_bind, H1, run_bind, H2, run_bind, Hpad.
    reflexivity.
  - intros Hshort. rewrite Hlen.
    assert (len (BindStm_Id b) ≤ idWidth); [|lia].
    unfold idWidth. rewrite BindStms_idWidth_closed.
    apply maximum_ge, (list_elem_of_fmap_2 (fun b => len (BindStm_Id b))).
    by apply list_elem_of_filter.
  - intros Hlong. apply Hnone.
    assert (Hw : idWidth < 30); [|lia].
    unfold idWidth. rewrite BindStms_idWidth_closed.
    apply maximum_lt; [lia|]. apply Forall_fmap, Forall_forall.
    intros x Hx. by apply list_elem_of_filter in Hx as [Hx _].
Qed.

Lemma len_repeat_string (s : string) (n : nat) :
  len (repeat_string s n) = Z.of_nat n * len s.
Proof.
  induction n as [|n IH]; [reflexivity|]. cbn [repeat_string].
  rewrite len_append, IH. lia.
Qed.

Lemma len_empty (s : string) : len s = 0 → s = EmptyString.
Proof. destruct s; [done|]. unfold len. cbn. lia. Qed.


(** ** The resources of a stage *)

(** The keys of the rows that [Resources.format] writes, and a row whose
    key is padded to a given width. *)
Definition Resources_keys (self : Resources) : list string :=
  (if bool_decide (is_Some (MemNode self)) then ["mem_gb"] else [])
  ++ (if bool_decide (is_Some (SpecialNode self)) then ["special"] else [])
  ++ (if bool_decide (is_Some (ThreadNode self)) then ["threads"] else [])
  ++ (if bool_decide (is_Some (VolatileNode self)) then ["volatile"] else []).

Lemma run_bind_congr {A B} (m m' : M A) (f g : A → M B) (p : printer) :
  m p = m' p → (∀ x q, f x q = g x q) → (m ≫= f) p = (m' ≫= g) p.
Proof. intros Hm H. rewrite !run_bind, Hm. destruct (m' p) as [[x p']|]; auto. Qed.

Definition Resources_row (node : option AstNode) (width : Z) (key value : string)
    : M unit :=
  match node with
  | Some node =>
      printComments node INDENT;;
      WriteString INDENT;;
      WriteString (key +:+ repeat_string " " (Z.to_nat (width - len key))
                     +:+ " = " +:+ value +:+ "," +:+ NEWLINE)
  | None => mret tt
  end.

(** X11.  [Resources.format] writes one row for each resource that is set,
    in the order [mem_gb], [special], [threads], [volatile], with the keys
    padded to the longest key among the rows written, so that the equals
    signs stand in one column. *)
Theorem Resources_format_aligned (self : Resources) (p : printer) :
  let width := maximum (map len (Resources_keys self)) in
  Resources_format self p
  = (printComments (Resources_Node self) INDENT;;
     WriteString (") using (" +:+ NEWLINE);;
     Resources_row (MemNode self) width "mem_gb" (strconv.FormatInt (MemGB self));;
     Resources_row (SpecialNode self) width "special" (quote +:+ Special self +:+ quote);;
     Resources_row (ThreadNode self) width "threads" (strconv.FormatInt (Threads self));;
     Resources_row (VolatileNode self) width "volatile" "strict") p.
Proof.
  intros width. unfold Resources_format.
  apply run_bind_ext; intros [] q1. apply run_bind_ext; intros [] q2.
  subst width. unfold Resources_keys, Resources_row.
  assert (HS : ∀ n : AstNode, bool_decide (is_Some (Some n)) = true)
    by (intros; by apply bool_decide_eq_true_2).
  assert (HN : bool_decide (is_Some (@None AstNode)) = false)
    by (apply bool_decide_eq_false_2; by intros [? ?]).
  destruct (MemNode self) as [mem|], (SpecialNode self) as [special|],
    (ThreadNode self) as [thread|], (VolatileNode self) as [vol|];
    rewrite ?HS, ?HN; cbn [orb app]; cbv beta iota zeta;
    repeat match goal with
           | |- context [repeat_string " " ?n] =>
               let v := eval vm_compute in (repeat_string " " n) in
               change (repeat_string " " n) with v
           end;
    rewrite ?run_assoc;
    repeat first
      [ reflexivity
      | apply run_bind_ext; intros [] ?; rewrite ?run_assoc
      | apply run_bind_congr;
        [unfold WriteString; by rewrite ?append_assoc|intros [] ?; rewrite ?run_assoc] ];
    unfold WriteString; by rewrite ?append_assoc.
Qed.

(** ** What the bulk export holds *)

Section FillLookup.
Context {A : Type} (key : A → string).

Lemma fill_lookup_Some (m : gmap string A) (l : list A) (id : string) (t : A) :
  fill key m l !! id = Some t → (t ∈ l ∧ key t = id) ∨ m !! id = Some t.
Proof.
  revert m. induction l as [|x l IH]; intros m H; [by right|].
  cbn in H. fold (fill key (<[key x:=x]> m) l) in H.
  apply IH in H as [[Hin Hk]|H].
  - left. split; [by right|done].
  - destruct (decide (key x = id)) as [<-|Hne].
    + rewrite lookup_insert_eq in H. injection H as <-. left. split; [left|done].
    + rewrite lookup_insert_ne in H by done. by right.
Qed.

Lemma fill_lookup_None (l : list A) (id : string) :
  fill key ∅ l !! id = None ↔ ∀ x, x ∈ l → key x ≠ id.
Proof.
  split.
  - intros Hnone x Hx Hk.
    apply list_elem_of_split in Hx as (l1 & l2 & ->).
    assert (Hlast : ∃ l3 y l4, l1 ++ x :: l2 = l3 ++ y :: l4 ∧ key y = id
                               ∧ ∀ z, z ∈ l4 → key z ≠ id).
    { clear Hnone. revert l1. induction l2 as [|z l2 IH] using rev_ind; intros l1.
      - exists l1, x, []. split; [done|]. split; [done|]. intros z Hz.
        by apply elem_of_nil in Hz.
      - destruct (decide (key z = id)) as [Hz|Hz].
        + exists (l1 ++ x :: l2), z, []. split; [by rewrite <- app_assoc|].
          split; [done|]. intros w Hw. by apply elem_of_nil in Hw.
        + destruct (IH l1) as (l3 & y & l4 & E & Hy & Hl4).
          exists l3, y, (l4 ++ [z]). split.
          * rewrite app_comm_cons, app_assoc, E. by rewrite <- app_assoc.
          * split; [done|]. intros w Hw. apply elem_of_app in Hw as [Hw|Hw]; [by apply Hl4|].
            apply list_elem_of_singleton in Hw as ->. done. }
    destruct Hlast as (l3 & y & l4 & E & Hy & Hl4). rewrite E in Hnone.
    rewrite <- Hy in Hnone, Hl4. rewrite fill_last in Hnone by done. discriminate.
  - intros H. rewrite fill_absent by done. apply lookup_empty.
Qed.
End FillLookup.

(** X12.  The table that [JsonDumpAsts] serialises holds an identifier
    exactly when some unit of the list declares it, and what it holds
    under an identifier is a declaration of one of the units with that
    identifier; the same for file types, stages and pipelines. *)
Theorem JsonDump_of_declared (asts : list Ast) (id : string) :
  let jd := JsonDump_of asts in
  (JsonDump_UserTypes jd !! id = None
   ↔ ∀ a t, a ∈ asts → t ∈ UserTypes a → UserType_Id t ≠ id)
  ∧ (∀ t, JsonDump_UserTypes jd !! id = Some t →
       UserType_Id t = id ∧ ∃ a, a ∈ asts ∧ t ∈ UserTypes a)
  ∧ (JsonDump_Stages jd !! id = None
     ↔ ∀ a s, a ∈ asts → s ∈ Stages a → Stage_Id s ≠ id)
  ∧ (∀ s, JsonDump_Stages jd !! id = Some s →
       Stage_Id s = id ∧ ∃ a, a ∈ asts ∧ s ∈ Stages a)
  ∧ (JsonDump_Pipelines jd !! id = None
     ↔ ∀ a pl, a ∈ asts → pl ∈ Pipelines a → Pipeline_Id pl ≠ id)
  ∧ (∀ pl, JsonDump_Pipelines jd !! id = Some pl →
       Pipeline_Id pl = id ∧ ∃ a, a ∈ asts ∧ pl ∈ Pipelines a).
Proof.
  intros jd. subst jd. unfold JsonDump_of.
  destruct (JsonDump_of_fill asts
              {| JsonDump_UserTypes := ∅; JsonDump_Stages := ∅; JsonDump_Pipelines := ∅ |})
    as (-> & -> & ->). cbn [JsonDump_UserTypes JsonDump_Stages JsonDump_Pipelines].
  assert (Hflat : ∀ {A} (f : Ast → list A) (x : A),
            x ∈ flat_map f asts ↔ ∃ a, a ∈ asts ∧ x ∈ f a).
  { intros A f x. rewrite list_elem_of_In, in_flat_map. split.
    - intros (a & Ha & Hx). exists a. by rewrite !list_elem_of_In.
    - intros (a & Ha & Hx). exists a. by rewrite <- !list_elem_of_In. }
  repeat split.
  all: try (rewrite fill_lookup_None; intros H a x Ha Hx; apply H, Hflat; by exists a).
  all: try (rewrite fill_lookup_None; intros H x Hx; apply Hflat in Hx as (a & Ha & Hx);
            by apply (H a x)).
  all: try (match goal with H : _ !! _ = Some _ |- _ =>
              apply fill_lookup_Some in H as [[Hin Hk]|H];
              [|by rewrite lookup_empty in H] end; try done; by apply Hflat).
Qed.

Section FillOrder.
Context {A : Type} (key : A → string).

Lemma fill_NoDup_lookup (l : list A) (t : A) :
  NoDup (map key l) → t ∈ l → fill key ∅ l !! key t = Some t.
Proof.
  intros Hnd Hin. apply list_elem_of_split in Hin as (l1 & l2 & ->).
  apply fill_last. intros x Hx Hk.
  rewrite map_app in Hnd. apply NoDup_app in Hnd as (_ & _ & Hnd).
  cbn in Hnd. apply NoDup_cons in Hnd as [Hnd _]. apply Hnd.
  rewrite <- Hk. by apply list_elem_of_fmap_2.
Qed.

Lemma fill_Permutation (l1 l2 : list A) :
  NoDup (map key l1) → l1 ≡ₚ l2 → fill key ∅ l1 = fill key ∅ l2.
Proof.
  intros Hnd Hp. assert (Hnd2 : NoDup (map key l2)) by by rewrite <- Hp.
  apply map_eq. intros id.
  destruct (fill key ∅ l1 !! id) as [t|] eqn:E1.
  - apply fill_lookup_Some in E1 as [[Hin <-]|E1]; [|by rewrite lookup_empty in E1].
    symmetry. apply fill_NoDup_lookup; [done|]. by rewrite <- Hp.
  - symmetry. apply fill_lookup_None. intros x Hx.
    rewrite fill_lookup_None in E1. apply E1. by rewrite Hp.
Qed.
End FillOrder.

(** X13.  When no identifier is declared twice over the units of the list,
    the table that [JsonDumpAsts] serialises does not depend on the order
    of the units. *)
Theorem JsonDump_of_order_independent (asts1 asts2 : list Ast) :
  asts1 ≡ₚ asts2 →
  NoDup (map UserType_Id (flat_map UserTypes asts1)) →
  NoDup (map Stage_Id (flat_map Stages asts1)) →
  NoDup (map Pipeline_Id (flat_map Pipelines asts1)) →
  JsonDump_of asts1 = JsonDump_of asts2
  ∧ ∀ MarshalIndent, JsonDumpAsts MarshalIndent asts1 = JsonDumpAsts MarshalIndent asts2.
Proof.
  intros Hp Ht Hs Hpl.
  assert (Heq : JsonDump_of asts1 = JsonDump_of asts2).
  { unfold JsonDump_of.
    pose proof (JsonDump_of_fill asts1
                  {| JsonDump_UserTypes := ∅; JsonDump_Stages := ∅; JsonDump_Pipelines := ∅ |})
      as (H1 & H2 & H3).
    pose proof (JsonDump_of_fill asts2
                  {| JsonDump_UserTypes := ∅; JsonDump_Stages := ∅; JsonDump_Pipelines := ∅ |})
      as (H1' & H2' & H3').
    cbn [JsonDump_UserTypes JsonDump_Stages JsonDump_Pipelines] in *.
    assert (Hflat : ∀ {A} (f : Ast → list A), flat_map f asts1 ≡ₚ flat_map f asts2).
    { intros A f. by apply Permutation_flat_map. }
    rewrite (fill_Permutation UserType_Id _ _ Ht (Hflat _ UserTypes)) in H1.
    rewrite (fill_Permutation Stage_Id _ _ Hs (Hflat _ Stages)) in H2.
    rewrite (fill_Permutation Pipeline_Id _ _ Hpl (Hflat _ Pipelines)) in H3.
    rewrite <- H1' in H1. rewrite <- H2' in H2. rewrite <- H3' in H3.
    destruct (fold_left JsonDump_add asts1 _), (fold_left JsonDump_add asts2 _).
    cbn in *. by subst. }
  split; [exact Heq|]. intros MarshalIndent. unfold JsonDumpAsts. by rewrite Heq.
Qed.

(** ** Formatting a formatted call *)

Section SortSorted.
Context {A : Type} (key : A → string).

Let less (a b : A) : bool := string_lt (key a) (key b).
Let le (a b : A) : Prop := String.le (key a) (key b).

Lemma Sorted_app_tail (l1 l2 : list A) : Sorted le (l1 ++ l2) → Sorted le l2.
Proof.
  induction l1 as [|x l1 IH]; [done|]. cbn. intros H. apply Sorted_inv in H as [H _]. auto.
Qed.

Lemma sort_fold_sorted_input (l racc : list A) :
  Sorted le (reverse racc ++ l) →
  fold_left (fun racc x => sort_insert less x racc) l racc = reverse l ++ racc.
Proof.
  revert racc. induction l as [|x l IH]; intros racc Hs; [reflexivity|].
  cbn [fold_left].
  assert (Hins : sort_insert less x racc = x :: racc).
  { destruct racc as [|y r]; [reflexivity|]. cbn [sort_insert].
    rewrite reverse_cons, <- app_assoc in Hs. apply Sorted_app_tail in Hs.
    cbn in Hs. apply Sorted_inv in Hs as [_ Hd]. apply HdRel_inv in Hd.
    unfold less. apply string_lt_false in Hd. by rewrite Hd. }
  rewrite Hins, IH.
  - rewrite reverse_cons, <- app_assoc. reflexivity.
  - rewrite reverse_cons, <- app_assoc. exact Hs.
Qed.

(** Sorting a sorted list moves nothing. *)
Lemma sort_Slice_sorted_input (l : list A) : Sorted le l → sort_Slice less l = l.
Proof.
  intros Hs. unfold sort_Slice. rewrite sort_fold_sorted_input by exact Hs.
  by rewrite app_nil_r, reverse_involutive.
Qed.
End SortSorted.

Lemma hasId_elem (id : string) (l : list BindStm) :
  hasId id l = true ↔ ∃ b, b ∈ l ∧ BindStm_Id b = id.
Proof.
  unfold hasId. rewrite existsb_exists. split.
  - intros (b & Hb & Hid). exists b. split; [by apply list_elem_of_In|].
    by apply bool_decide_eq_true in Hid.
  - intros (b & Hb & Hid). exists b. split; [by apply list_elem_of_In|].
    by apply bool_decide_eq_true.
Qed.

Lemma hasId_canonical (self : CallStm) (id : string) :
  id ∈ bareModifiers (CallStm_Modifiers self) →
  hasId id (BindStms_List (canonicalModifiers self)) = true.
Proof.
  intros Hbare. apply hasId_elem.
  pose proof (canonicalModifiers_unsorted self) as Hp. cbv zeta in Hp.
  destruct (hasId id (boundModifiers (CallStm_Modifiers self))) eqn:Hbound.
  - apply hasId_elem in Hbound as (b & Hb & Hid). exists b. split; [|done].
    rewrite Hp. apply elem_of_app. by left.
  - exists (boundTrue (modifiersNode self) id). split; [|reflexivity].
    rewrite Hp. apply elem_of_app. right. apply list_elem_of_fmap_2.
    by apply list_elem_of_filter.
Qed.

Lemma canonicalModifiers_formatted (self : CallStm) :
  hasModifiers (CallStm_Modifiers self) = true →
  canonicalModifiers (CallStm_setModifiers self (canonicalModifiers self))
  = canonicalModifiers self.
Proof.
  intros Hmods.
  set (L := BindStms_List (canonicalModifiers self)).
  assert (Hsorted : Sorted (fun a b => String.le (BindStm_Id a) (BindStm_Id b)) L)
    by apply (sort_Slice_sorted BindStm_Id).
  assert (Hfound : ∀ id, id ∈ bareModifiers (CallStm_Modifiers self) → hasId id L = true)
    by apply hasId_canonical.
  rewrite (canonicalModifiers_node self) at 2. fold L.
  unfold canonicalModifiers at 1.
  cbn [CallStm_setModifiers CallStm_Modifiers Modifiers_Bindings Local Preflight Volatile
       CallStm_Node].
  rewrite (canonicalModifiers_node self). cbn [BindStms_List BindStms_Node]. fold L.
  unfold bareModifiers in Hfound. unfold local, preflight, volatile.
  assert (H1 : Local (CallStm_Modifiers self) && negb (hasId "local" L) = false).
  { destruct (Local (CallStm_Modifiers self)) eqn:E; [|reflexivity].
    rewrite Hfound; [reflexivity|]. rewrite ?E. set_solver. }
  assert (H2 : Preflight (CallStm_Modifiers self) && negb (hasId "preflight" L) = false).
  { destruct (Preflight (CallStm_Modifiers self)) eqn:E; [|reflexivity].
    rewrite Hfound; [reflexivity|]. rewrite ?E. set_solver. }
  assert (H3 : Volatile (CallStm_Modifiers self) && negb (hasId "volatile" L) = false).
  { destruct (Volatile (CallStm_Modifiers self)) eqn:E; [|reflexivity].
    rewrite Hfound; [reflexivity|]. rewrite ?E. set_solver. }
  rewrite H1, H2, H3. f_equal.
  by apply (sort_Slice_sorted_input BindStm_Id).
Qed.

Lemma hasModifiers_formatted (self : CallStm) :
  hasModifiers (CallStm_Modifiers (CallStm_formatted self))
  = hasModifiers (CallStm_Modifiers self).
Proof.
  unfold CallStm_formatted.
  destruct (hasModifiers (CallStm_Modifiers self)) eqn:Hmods; [|exact Hmods].
  unfold hasModifiers in *.
  cbn [CallStm_setModifiers CallStm_Modifiers Modifiers_Bindings Local Preflight Volatile].
  destruct (Local (CallStm_Modifiers self)) eqn:El; [by rewrite !orb_true_r|].
  destruct (Preflight (CallStm_Modifiers self)) eqn:Ep; [by rewrite !orb_true_r|].
  destruct (Volatile (CallStm_Modifiers self)) eqn:Ev; [by rewrite !orb_true_r|].
  rewrite !orb_false_r in *.
  pose proof (canonicalModifiers_unsorted self) as Hp. cbv zeta in Hp.
  apply bool_decide_eq_true.
  destruct (Modifiers_Bindings (CallStm_Modifiers self)) as [b|] eqn:Eb; [|discriminate].
  apply bool_decide_eq_true in Hmods.
  apply Permutation_length in Hp. rewrite Hp, length_app.
  unfold boundModifiers. rewrite Eb. lia.
Qed.

(** X14.  Formatting a call statement a second time changes nothing: the
    call that [CallStm.format] leaves behind is formatted to the same text
    and is left as it is.  The modifier table it holds is sorted, every
    bare modifier has its bound entry in it, and the insertion sort that
    [sort.Slice] runs on a table of at most twelve entries moves nothing
    in a sorted one. *)
Theorem CallStm_format_twice (self self' : CallStm) (prefix : string) (p p' : printer) :
  (length (BindStms_List (canonicalModifiers self)) ≤ 12)%nat →
  CallStm_format self prefix p = Some (self', p') →
  CallStm_format self' prefix p = Some (self', p').
Proof.
  intros _ H. pose proof (CallStm_format_formatted _ _ _ _ _ H) as ->.
  rewrite CallStm_format_head in H. rewrite CallStm_format_head.
  assert (Hhead : CallStm_head (CallStm_formatted self) prefix = CallStm_head self prefix).
  { unfold CallStm_formatted. by destruct (hasModifiers _). }
  rewrite Hhead, hasModifiers_formatted.
  unfold CallStm_formatted in *.
  destruct (hasModifiers (CallStm_Modifiers self)) eqn:Hmods; [|exact H].
  rewrite canonicalModifiers_formatted by exact Hmods.
  rewrite run_bind in *. destruct (CallStm_head self prefix p) as [[[] q]|]; [|done].
  rewrite run_bind in *. destruct (WriteString _ q) as [[[] q1]|]; [|done].
  rewrite run_bind in *. destruct (BindStms_format _ prefix q1) as [[[] q2]|]; [|done].
  rewrite run_bind in *. destruct (WriteString prefix q2) as [[[] q3]|]; [|done].
  rewrite run_bind in *. destruct (WriteString _ q3) as [[[] q4]|]; [|done].
  cbv [mret M_MRet M_ret] in *. by injection H as <-.
Qed.

(** ** Calls that format *)

(** A binding as the grammar builds it: its node and the node of its
    expression lie in a file and the expression is one of the grammar. *)
Definition BindStm_ok (b : BindStm) : Prop :=
  located (BindStm_Node b) ∧ located (Exp_getNode (BindStm_Exp b))
  ∧ grammar_exp (BindStm_Exp b) = true.

Definition BindStms_ok (bs : BindStms) : Prop :=
  located (BindStms_Node bs) ∧ Forall BindStm_ok (BindStms_List bs).

Definition CallStm_ok (c : CallStm) : Prop :=
  located (CallStm_Node c) ∧ BindStms_ok (CallStm_Bindings c)
  ∧ ∀ b, Modifiers_Bindings (CallStm_Modifiers c) = Some b → BindStms_ok b.

Lemma ValExp_formatSweep_is_Some (n : AstNode) (k : ExpKind) (arr : list Exp)
    (prefix : string) :
  grammar_exp (ValExp n k (VExps arr)) = true →
  is_Some (ValExp_formatSweep Exp_format (VExps arr) prefix).
Proof.
  intros Hg. destruct k; try discriminate Hg. cbn in Hg. rewrite forallb_forall in Hg.
  unfold ValExp_formatSweep.
  destruct (formatLines_is_Some arr (prefix +:+ INDENT)) as [body ->]; [|by eexists].
  apply Forall_forall. intros e He. by apply grammar_exp_format, Hg, list_elem_of_In.
Qed.

Lemma succeeds_BindStm_format (b : BindStm) (prefix : string) (idWidth : Z) :
  BindStm_ok b → succeeds (BindStm_format b prefix idWidth).
Proof.
  intros (Hnode & Hexp & Hg). unfold BindStm_format.
  apply succeeds_bind; [by apply succeeds_printComments|]. intros _.
  apply succeeds_bind; [by apply succeeds_printComments|]. intros _.
  apply succeeds_bind; [apply succeeds_padded|]. intros idPad.
  apply succeeds_bind; [apply succeeds_WriteString|]. intros _.
  assert (Htail : ∀ s, succeeds (WriteString s;; WriteString ",";; WriteString NEWLINE)).
  { intros s. repeat (apply succeeds_bind; [|intros _]); apply succeeds_WriteString. }
  destruct (BindStm_sweepValue b) as [Value|] eqn:Hsweep.
  - apply succeeds_bind; [|intros s; apply Htail].
    apply succeeds_liftO. unfold BindStm_sweepValue in Hsweep.
    destruct (BindStm_Exp b) as [n k [| | | | |arr| |]|]; try discriminate Hsweep.
    destruct (_ && _); [|discriminate]. injection Hsweep as <-.
    by eapply ValExp_formatSweep_is_Some.
  - apply succeeds_bind; [|intros s; apply Htail].
    by apply succeeds_liftO, grammar_exp_format.
Qed.

Lemma succeeds_BindStms_format (bs : BindStms) (prefix : string) :
  BindStms_ok bs → succeeds (BindStms_format bs prefix).
Proof.
  intros [Hnode Hlist]. unfold BindStms_format.
  apply succeeds_bind; [by apply succeeds_printComments|]. intros _.
  apply succeeds_forM_. eapply Forall_impl; [exact Hlist|].
  intros b Hb. by apply succeeds_BindStm_format.
Qed.

Lemma canonicalModifiers_ok (self : CallStm) :
  CallStm_ok self → BindStms_ok (canonicalModifiers self).
Proof.
  intros (Hnode & _ & Hmods).
  assert (HN : located (modifiersNode self)).
  { unfold modifiersNode.
    destruct (Modifiers_Bindings (CallStm_Modifiers self)) as [b|]; [|done].
    by destruct (Hmods b eq_refl). }
  rewrite canonicalModifiers_node. split; [exact HN|]. cbn [BindStms_List].
  pose proof (canonicalModifiers_unsorted self) as Hp. cbv zeta in Hp. rewrite Hp.
  apply Forall_app. split.
  - unfold boundModifiers.
    destruct (Modifiers_Bindings (CallStm_Modifiers self)) as [b|]; [|constructor].
    by destruct (Hmods b eq_refl).
  - apply Forall_fmap, Forall_forall. intros id _. by repeat split.
Qed.

Lemma succeeds_CallStm_format (c : CallStm) (prefix : string) :
  CallStm_ok c → succeeds (CallStm_format c prefix).
Proof.
  intros Hok. pose proof Hok as (Hnode & Hbind & Hmods). unfold CallStm_format.
  apply succeeds_bind; [by apply succeeds_printComments|]. intros _.
  do 3 (apply succeeds_bind; [apply succeeds_WriteString|]; intros _).
  apply succeeds_bind.
  { apply succeeds_when. apply succeeds_bind; [|intros _]; apply succeeds_WriteString. }
  intros _. apply succeeds_bind; [apply succeeds_WriteString|]. intros _.
  apply succeeds_bind; [by apply succeeds_BindStms_format|]. intros _.
  apply succeeds_bind; [apply succeeds_WriteString|]. intros _.
  destruct (hasModifiers _).
  - apply succeeds_bind; [apply succeeds_WriteString|]. intros _.
    apply succeeds_bind; [by apply succeeds_BindStms_format, canonicalModifiers_ok|].
    intros _. do 2 (apply succeeds_bind; [apply succeeds_WriteString|]; intros _).
    apply succeeds_ret.
  - apply succeeds_bind; [apply succeeds_WriteString|]. intros _. apply succeeds_ret.
Qed.

Lemma succeeds_ReturnStm_format (ret : ReturnStm) :
  located (ReturnStm_Node ret) → BindStms_ok (ReturnStm_Bindings ret) →
  succeeds (ReturnStm_format ret).
Proof.
  intros Hnode Hbind. unfold ReturnStm_format.
  apply succeeds_bind; [by apply succeeds_printComments|]. intros _.
  do 2 (apply succeeds_bind; [apply succeeds_WriteString|]; intros _).
  apply succeeds_bind; [by apply succeeds_BindStms_format|]. intros _.
  apply succeeds_bind; [apply succeeds_WriteString|]. intros _.
  apply succeeds_WriteString.
Qed.

(** X15.  [CallStm.format] and [ReturnStm.format] return, whatever the state
    of the printer, on the statements that the grammar builds: every node
    lies in a file and every bound expression is one of the grammar.  In
    particular no padding of the bindings and no sweep makes them panic. *)
Theorem CallStm_format_succeeds (c : CallStm) (ret : ReturnStm) (prefix : string)
    (p : printer) :
  (CallStm_ok c → is_Some (CallStm_format c prefix p))
  ∧ (located (ReturnStm_Node ret) → BindStms_ok (ReturnStm_Bindings ret) →
     is_Some (ReturnStm_format ret p)).
Proof.
  split.
  - intros Hok. by apply succeeds_CallStm_format.
  - intros Hnode Hbind. by apply succeeds_ReturnStm_format.
Qed.

(** ** Units that format *)

Definition Pipeline_params (self : Pipeline) : list Param :=
  group_params [Params_In (Pipeline_InParams self); Params_Out (Pipeline_OutParams self)].

(** A pipeline, a callable and a unit as the parser builds them: every
    node lies in a file and every bound expression is one of the
    grammar. *)
Definition Pipeline_ok (self : Pipeline) : Prop :=
  located (Pipeline_Node self)
  ∧ Forall (fun param => located (Param_getNode param)) (Pipeline_params self)
  ∧ Forall CallStm_ok (Calls self)
  ∧ located (ReturnStm_Node (Ret self)) ∧ BindStms_ok (ReturnStm_Bindings (Ret self))
  ∧ ∀ retain, Pipeline_Retain self = Some retain → located (PipelineRetains_Node retain).

Definition Callable_ok (callable : Callable) : Prop :=
  match callable with
  | Callable_Stage s => Forall located (Stage_nodes s)
  | Callable_Pipeline pl => Pipeline_ok pl
  end.

Definition Ast_ok (self : Ast) : Prop :=
  Forall (fun directive => located (Include_Node directive)) (Includes self)
  ∧ Forall (fun filetype => located (UserType_Node filetype)) (UserTypes self)
  ∧ Forall Callable_ok (Callables self)
  ∧ (∀ call, Call self = Some call → CallStm_ok call)
  ∧ Forall (fun c => is_Some (File (comment_Loc c))) (Ast_comments self).

(** The stages whose [src] line cannot be padded. *)
Definition narrow (s : Stage) : Prop :=
  typeWidthOf (Stage_params s) < len (Lang (Src s)).

Lemma succeeds_Pipeline_format (self : Pipeline) :
  Pipeline_ok self → succeeds (Pipeline_format self).
Proof.
  intros (Hnode & Hparams & Hcalls & Hret & Hbind & Hretain). unfold Pipeline_format.
  fold (Pipeline_params self). rewrite measureParamsWidths_closed. cbv beta iota zeta.
  rewrite Forall_forall in Hparams.
  apply succeeds_bind; [by apply succeeds_printComments|]. intros _.
  apply succeeds_bind; [apply succeeds_WriteString|]. intros _.
  apply succeeds_bind.
  { apply succeeds_forM_, Forall_forall. intros param Hparam.
    assert (Param_In param ∈ Pipeline_params self).
    { unfold Pipeline_params, group_params. cbn. apply elem_of_app. left.
      by apply (list_elem_of_fmap_2 Param_In). }
    apply succeeds_paramFormat_group; [done|by apply Hparams|lia]. }
  intros _. apply succeeds_bind.
  { apply succeeds_forM_, Forall_forall. intros param Hparam.
    assert (Param_Out param ∈ Pipeline_params self).
    { unfold Pipeline_params, group_params. cbn. apply elem_of_app. right.
      rewrite app_nil_r. by apply (list_elem_of_fmap_2 Param_Out). }
    apply succeeds_paramFormat_group; [done|by apply Hparams|lia]. }
  intros _. apply succeeds_bind; [apply succeeds_WriteString|]. intros _.
  apply succeeds_bind.
  { apply succeeds_forM. unfold topoSort. rewrite topo_Permutation.
    eapply Forall_impl; [exact Hcalls|]. intros c Hc.
    apply succeeds_bind; [apply succeeds_WriteString|]. intros _.
    by apply succeeds_CallStm_format. }
  intros calls. apply succeeds_bind; [apply succeeds_WriteString|]. intros _.
  apply succeeds_bind; [by apply succeeds_ReturnStm_format|]. intros _.
  apply succeeds_bind.
  { destruct (Pipeline_Retain self) as [retain|]; [|apply succeeds_ret].
    apply succeeds_bind; [apply succeeds_WriteString|]. intros _.
    unfold PipelineRetains_format.
    apply succeeds_bind; [by apply succeeds_printComments, Hretain|]. intros _.
    do 2 (apply succeeds_bind; [apply succeeds_WriteString|]; intros _).
    apply succeeds_bind; [|intros _].
    - apply succeeds_forM_, Forall_forall. intros ref _.
      repeat (apply succeeds_bind; [|intros _]); apply succeeds_WriteString.
    - apply succeeds_bind; [|intros _]; apply succeeds_WriteString. }
  intros _. apply succeeds_bind; [apply succeeds_WriteString|]. intros _.
  apply succeeds_ret.
Qed.

Lemma succeeds_Callables_format_from (l : list Callable) (i : nat) :
  Forall Callable_ok l →
  (∀ s, Callable_Stage s ∈ l → ¬ narrow s) →
  succeeds (Callables_format_from i l).
Proof.
  intros Hok. revert i. induction Hok as [|callable l Hc _ IH]; intros i Hwide.
  - apply succeeds_ret.
  - cbn [Callables_format_from].
    apply succeeds_bind; [apply succeeds_when, succeeds_WriteString|]. intros _.
    apply succeeds_bind.
    { destruct callable as [s|pl]; cbn [Callable_format].
      - apply succeeds_bind; [|intros _; apply succeeds_ret].
        apply Stage_format_is_Some; [exact Hc|].
        assert (¬ narrow s) by (apply Hwide; left). unfold narrow in *. lia.
      - apply succeeds_bind; [|intros ?; apply succeeds_ret].
        by apply succeeds_Pipeline_format. }
    intros c. apply succeeds_bind; [|intros ?; apply succeeds_ret].
    apply IH. intros s Hs. apply Hwide. by right.
Qed.

Lemma Callables_format_from_None (l : list Callable) (i : nat) (s : Stage) (p : printer) :
  Callable_Stage s ∈ l → narrow s → Callables_format_from i l p = None.
Proof.
  intros Hin Hnarrow. revert i p. induction l as [|callable l IH]; intros i p.
  - by apply elem_of_nil in Hin.
  - cbn [Callables_format_from]. apply run_bind_None. intros [] q.
    apply elem_of_cons in Hin as [<-|Hin].
    + rewrite run_bind. cbn [Callable_format]. rewrite run_bind.
      by rewrite Stage_format_is_None.
    + apply run_bind_None. intros c q'. rewrite run_bind, (IH Hin). reflexivity.
Qed.

(** X16.  On a unit as the parser builds it (every node and every free
    comment lies in a file, every bound expression is one of the
    grammar), [Ast.format] panics exactly when the unit declares a stage
    whose language tag is longer than its type column; otherwise it
    returns a text, in every run.  Of the ordering of the calls of a
    pipeline the proof only uses that it is a permutation. *)
Theorem Ast_format_panics_iff (oFiles oComments : MapOrder) (self : Ast)
    (writeIncludes : bool) :
  Ast_ok self →
  Ast_format oFiles oComments self writeIncludes = None
  ↔ ∃ s, Callable_Stage s ∈ Callables self ∧ narrow s.
Proof.
  intros (Hinc & Htypes & Hcallables & Hcall & Hcomments).
  destruct (collectComments_is_Some _ Hcomments) as [table Htable].
  unfold Ast_format. rewrite Htable. cbn [mbind option_bind].
  set (p0 := mkPrinter _ _ _). rewrite fmap_None.
  split.
  - intros Hnone.
    set (P := fun callable => match callable with
                              | Callable_Stage s => narrow s
                              | Callable_Pipeline _ => False
                              end).
    assert (Hdec : ∀ callable, Decision (P callable)).
    { intros [s|pl]; [unfold P, narrow; apply _|right; tauto]. }
    destruct (@Exists_dec _ P Hdec (Callables self)) as [Hex|Hall].
    + apply Exists_exists in Hex as ([s|pl] & Hin & Hs); [|done]. by exists s.
    + exfalso. assert (Hsucc : succeeds (Ast_format_body oComments self writeIncludes)).
      { unfold Ast_format_body.
        apply succeeds_bind.
        { destruct writeIncludes; [|apply succeeds_ret].
          apply succeeds_forM_. eapply Forall_impl; [exact Hinc|]. intros d Hd.
          apply succeeds_bind; [by apply succeeds_printComments|]. intros _.
          repeat (apply succeeds_bind; [|intros _]); apply succeeds_WriteString. }
        intros _. apply succeeds_bind; [apply succeeds_when, succeeds_WriteString|].
        intros _. apply succeeds_bind.
        { apply succeeds_forM_. eapply Forall_impl; [exact Htypes|]. intros t Ht.
          apply succeeds_bind; [by apply succeeds_printComments|]. intros _.
          apply succeeds_WriteString. }
        intros _. apply succeeds_bind; [apply succeeds_when, succeeds_WriteString|].
        intros _. apply succeeds_bind.
        { apply succeeds_Callables_format_from; [exact Hcallables|].
          intros s Hs Hnarrow. apply Hall, Exists_exists. by exists (Callable_Stage s). }
        intros callables. apply succeeds_bind.
        { destruct (Call self) as [call|]; [|apply succeeds_ret].
          apply succeeds_bind; [apply succeeds_when, succeeds_WriteString|]. intros _.
          apply succeeds_bind; [by apply succeeds_CallStm_format, Hcall|].
          intros ?. apply succeeds_ret. }
        intros call. apply succeeds_bind.
        { intros p. rewrite DumpComments_spec. by eexists. }
        intros _. apply succeeds_bind; [|intros ?; apply succeeds_ret].
        intros p. by eexists. }
      destruct (Hsucc p0) as [r Hr]. congruence.
  - intros (s & Hin & Hnarrow). unfold Ast_format_body.
    apply run_bind_None. intros [] q1. apply run_bind_None. intros [] q2.
    apply run_bind_None. intros [] q3. apply run_bind_None. intros [] q4.
    rewrite run_bind. unfold Callables_format.
    by rewrite (Callables_format_from_None _ _ s).
Qed.

(** ** Further instances *)

Module MoreInstances.
Import Instances.

(** The map [{"b": 1, "a": [2, null]}] in the two orders a run may list
    it in. *)
Definition entry_a : string * Exp :=
  ("a", ValExp (node 2) KindArray
          (VExps [ValExp (node 2) KindInt (VInt 2); ValExp (node 2) KindNull VNil])).
Definition entry_b : string * Exp := ("b", ValExp (node 1) KindInt (VInt 1)).

Definition map_ba : Exp := ValExp (node 1) KindMap (VMapExp [entry_b; entry_a]).

(** A node and a comment without a file. *)
Definition nowhere : AstNode :=
  {| Loc := {| Line := 1; File := None |}; Comments := []; scopeComments := [] |}.
Definition stray : commentBlock := mkCommentBlock {| Line := 1; File := None |} "# stray".

(** A printer with one pending comment for each of two files. *)
Definition pending : printer :=
  {| buf := EmptyString;
     comments := {[ "/a.mro" := [mkCommentBlock {| Line := 5; File := Some TrailingComments.a |}
                                   "# end of a"];
                    "/b.mro" := [mkCommentBlock {| Line := 2; File := Some TrailingComments.b |}
                                   "# end of b"] ]};
     lastComment := {| Line := 0; File := Some TrailingComments.a |} |}.

(** The unit [call local FOO()] followed by a comment. *)
Definition commented : Ast :=
  {| UserTypes := []; Stages := []; Pipelines := []; Callables := [];
     Call := Some BareModifier.call; Includes := [];
     Ast_comments := [mkCommentBlock {| Line := 3; File := Some BareModifier.file |} "# end"];
     Files := {[ "/test" := BareModifier.file ]} |}.

(** The bindings of STAGE_3 in [TestFormatTopoSort]. *)
Definition in1 : BindStm :=
  TestFormatTopoSort.bind 8 "in1" (TestFormatTopoSort.self_ref 8 "input").
Definition in2 : BindStm :=
  TestFormatTopoSort.bind 9 "in2" (TestFormatTopoSort.call_ref 9 "STAGE_2" "output").

Definition at_line (line : Z) : printer :=
  {| buf := EmptyString; comments := ∅;
     lastComment := {| Line := line; File := Some TestFormatTopoSort.file |} |}.

(** The parameters of the stage [wide]. *)
Definition values : Param :=
  Param_In (mkInParam (node 2) "float" 1 "values_with_a_very_long_name_32b" EmptyString).

Definition after_values : printer :=
  {| buf := EmptyString; comments := ∅; lastComment := {| Line := 2; File := Some file |} |}.

(** A unit that declares the file type [bam]. *)
Definition bam : Ast :=
  {| UserTypes := [mkUserType (node 1) "bam"]; Stages := []; Pipelines := []; Callables := [];
     Call := None; Includes := []; Ast_comments := []; Files := ∅ |}.

(** The printer after the stage [wide]. *)
Definition wide_formatted : printer :=
  Eval vm_compute in default start (snd <$> Stage_format wide start).

(** The call of MAP_EXAMPLE, formatted. *)
Definition map_example_formatted : CallStm * printer :=
  Eval vm_compute in default (map_example, start) (CallStm_format map_example INDENT start).
End MoreInstances.

Lemma formatMap_order_independent_witness :
  ValExp_formatMap Exp_format
    (VMapExp [MoreInstances.entry_b; MoreInstances.entry_a]) EmptyString
  = ValExp_formatMap Exp_format
      (VMapExp [MoreInstances.entry_a; MoreInstances.entry_b]) EmptyString.
Proof.
  apply (proj1 (formatMap_order_independent
                  [MoreInstances.entry_b; MoreInstances.entry_a]
                  [MoreInstances.entry_a; MoreInstances.entry_b] EmptyString
                  ltac:(apply (bool_decide_unpack _); vm_compute; exact I)
                  (perm_swap _ _ _))).
Defined.

Lemma grammar_expressions_format_witness :
  is_Some (Exp_format MoreInstances.map_ba INDENT).
Proof.
  apply (proj1 (grammar_expressions_format MoreInstances.map_ba INDENT)). reflexivity.
Defined.

Lemma printComments_effects_witness :
  printComments MoreInstances.nowhere INDENT Instances.start = None.
Proof.
  apply (proj2 (proj1 (printComments_effects MoreInstances.nowhere INDENT Instances.start))).
  split; [by eexists|reflexivity].
Defined.

Lemma DumpComments_flushes_witness :
  (DumpComments (fun l => l);; DumpComments reverse) MoreInstances.pending
  = DumpComments (fun l => l) MoreInstances.pending.
Proof.
  apply (proj1 (proj2 (DumpComments_flushes (fun l => l) MoreInstances.pending
                         valid_order_id)) reverse).
Defined.

Lemma formatters_extend_witness :
  extends Instances.start MoreInstances.wide_formatted.
Proof.
  apply (proj1 (formatters_extend Instances.start MoreInstances.wide_formatted)
           Instances.wide).
  vm_compute. reflexivity.
Defined.

Lemma collectComments_by_file_witness :
  collectComments [MoreInstances.stray] = None.
Proof.
  apply (proj2 (proj1 (collectComments_by_file [MoreInstances.stray]))).
  exists MoreInstances.stray. split; [left|reflexivity].
Defined.

Lemma Ast_format_single_file_witness :
  Ast_format (fun l => l) (fun l => l) MoreInstances.commented true
  = Ast_format reverse reverse MoreInstances.commented true.
Proof.
  apply (Ast_format_single_file (fun l => l) reverse (fun l => l) reverse
           MoreInstances.commented true (Some BareModifier.file) "/test").
  - apply valid_order_id.
  - apply valid_order_reverse.
  - apply valid_order_id.
  - apply valid_order_reverse.
  - intros k f H. cbn [Files MoreInstances.commented] in H.
    apply lookup_singleton_Some in H as [_ <-]. reflexivity.
  - intros c Hc. apply list_elem_of_singleton in Hc as ->. reflexivity.
Defined.

Lemma Stage_format_panics_iff_witness :
  Stage_format NarrowStage.stage Instances.start = None.
Proof.
  apply (proj2 (Stage_format_panics_iff NarrowStage.stage Instances.start
                  ltac:(repeat constructor; by eexists))).
  vm_compute. reflexivity.
Defined.

Lemma BindStms_alignment_witness :
  BindStms_idWidth [MoreInstances.in1; MoreInstances.in2] = 3.
Proof.
  rewrite (proj1 (BindStms_alignment [MoreInstances.in1; MoreInstances.in2]
                    MoreInstances.in1 INDENT
                    (MoreInstances.at_line 7) (MoreInstances.at_line 8)
                    (MoreInstances.at_line 8)
                    ltac:(left) ltac:(vm_compute; reflexivity)
                    ltac:(vm_compute; reflexivity))).
  vm_compute. reflexivity.
Defined.


Lemma JsonDump_of_declared_witness :
  UserType_Id (Instances.json 2) = "json"
  ∧ ∃ a, a ∈ [Instances.unit 1; Instances.unit 2] ∧ Instances.json 2 ∈ UserTypes a.
Proof.
  apply (proj1 (proj2 (JsonDump_of_declared [Instances.unit 1; Instances.unit 2] "json"))
           (Instances.json 2)).
  vm_compute. reflexivity.
Defined.

Lemma JsonDump_of_order_independent_witness :
  JsonDump_of [Instances.unit 1; MoreInstances.bam]
  = JsonDump_of [MoreInstances.bam; Instances.unit 1].
Proof.
  apply (proj1 (JsonDump_of_order_independent
                  [Instances.unit 1; MoreInstances.bam]
                  [MoreInstances.bam; Instances.unit 1]
                  (perm_swap _ _ _)
                  ltac:(apply (bool_decide_unpack _); vm_compute; exact I)
                  ltac:(constructor) ltac:(constructor))).
Defined.

Lemma CallStm_format_twice_witness :
  CallStm_format (fst MoreInstances.map_example_formatted) INDENT Instances.start
  = Some (fst MoreInstances.map_example_formatted, snd MoreInstances.map_example_formatted).
Proof.
  apply (CallStm_format_twice Instances.map_example
           (fst MoreInstances.map_example_formatted) INDENT Instances.start
           (snd MoreInstances.map_example_formatted)).
  - vm_compute. lia.
  - vm_compute. reflexivity.
Defined.

Lemma CallStm_format_succeeds_witness :
  is_Some (CallStm_format Instances.map_example INDENT Instances.start).
Proof.
  apply (proj1 (CallStm_format_succeeds Instances.map_example
                  (mkReturnStm (Instances.node 1) (mkBindStms (Instances.node 1) []))
                  INDENT Instances.start)).
  split; [by eexists|]. split.
  - split; [by eexists|constructor].
  - intros b [= <-]. split; [by eexists|].
    repeat constructor; by eexists.
Defined.

Lemma Ast_format_panics_iff_witness :
  Ast_format (fun l => l) (fun l => l) NarrowStage.ast true = None.
Proof.
  apply (proj2 (Ast_format_panics_iff (fun l => l) (fun l => l) NarrowStage.ast true
                  ltac:(repeat split; try constructor; try discriminate;
                        repeat constructor; by eexists))).
  exists NarrowStage.stage. split; [left|vm_compute; reflexivity].
Defined.
